(** * sql.cpp: a MySQL Connector/C++ client, embedded and verified

    The program of [src/sql.cpp] is a sequence of calls into the MySQL
    Connector/C++ legacy API.  The development has these parts:

    - [Cpp]: the values the program handles (exceptions, bound parameters,
      buffered result sets) and the program monad [prog]: a tree of
      connector calls, each of which either returns or throws, with
      [try]/[catch] and the two output streams; [run] executes a program
      against a connection and records what happened;
    - [Sql]: the functions of the source file, one definition per function;
    - [MySQL]: a model of the server behind the connection: a lexer and
      a parser for the statements of the dialect that the program uses,
      and the meaning of the parsed statements on the tables of a
      session; used where a property depends on what the statements do;
    - [Props]: the vocabulary in which the properties are stated;
    - the laws of [run] ([RunFacts], [RaisesFacts], [CallFacts]), the
      statements the command layer sends ([Statements]) and what the
      parser reads in the texts of the program ([Texts]), through which
      every property proved on the server model goes;
    - the properties: of the transaction coordinator ([Coordinator]) and
      of the command layer ([CommandLayer]) on any connection, of the
      queries ([Queries]) and the schema bootstrapper ([Bootstrap]) on
      the server model, and of the top-level driver ([Driver]);
    - further properties: where a run ends when a call throws
      ([FailFast]), the paths of the coordinator and of the driver on
      any connection ([Paths]), and on the server model the inserts the
      unique key rejects, the bulk insert ([Inserts]), the transaction
      and the whole driver ([Sessions]). *)

From stdpp Require Import base gmap strings list sorting pretty.

Open Scope Z_scope.

(** The line feed that the source writes as "\n". *)
Definition nl : string := String (Ascii.ascii_of_nat 10) "".

(* ===================================================================== *)
(** * The C++ side: values, exceptions and the program monad             *)
(* ===================================================================== *)

Module Cpp.

(** ** Exceptions *)

(** [sql::SQLException]: message, vendor error code, SQLState. *)
Record SQLException := mkSQLException {
  what : string;
  getErrorCode : Z;
  getSQLStateCStr : string
}.

(** What a [throw] can carry, as seen by the handlers of the source:
    [catch (const sql::SQLException&)], [catch (const std::exception&)]
    and [catch (...)].  [sql::SQLException] derives from
    [std::runtime_error]; the order of the handlers in [main] makes the
    first one take it. *)
Inductive exn :=
| Sql (e : SQLException)
| Std (msg : string)
| Foreign.

Definition is_sql (e : exn) : bool :=
  match e with Sql _ => true | _ => false end.

(** ** C++ [int] *)

Definition int_min : Z := - 2 ^ 31.
Definition int_max : Z := 2 ^ 31 - 1.
Definition is_int (z : Z) : Prop := int_min ≤ z ≤ int_max.
Definition to_int (z : Z) : Z := (z + 2 ^ 31) `mod` 2 ^ 32 - 2 ^ 31.

(** ** Statement parameters and result sets *)

(** A value bound to a placeholder by [setNull], [setInt], [setString]. *)
Inductive Param :=
| PNull
| PInt (z : Z)
| PString (s : string).

(** [sql::PreparedStatement]: the statement text and the placeholders
    bound so far (1-indexed). *)
Record PreparedStatement := mkPS {
  ps_sql : string;
  ps_params : gmap nat Param
}.

Definition setString (i : nat) (s : string) (ps : PreparedStatement) :=
  mkPS (ps_sql ps) (<[i := PString s]> (ps_params ps)).
Definition setInt (i : nat) (z : Z) (ps : PreparedStatement) :=
  mkPS (ps_sql ps) (<[i := PInt z]> (ps_params ps)).
(** The second argument of [setNull] is the SQL type code; the source
    passes 0 and the binding carries no type. *)
Definition setNull (i : nat) (sqlType : Z) (ps : PreparedStatement) :=
  mkPS (ps_sql ps) (<[i := PNull]> (ps_params ps)).

(** One field of a fetched row. *)
Inductive Cell :=
| CNull
| CInt (z : Z)
| CString (s : string).

(** What a query sends back: column labels and the rows, in order. *)
Record QueryResult := mkQR {
  qr_columns : list string;
  qr_rows : list (list Cell)
}.

(** [sql::ResultSet]: the buffered rows with a cursor.  The cursor starts
    before the first row ([rs_current = None]); [next] moves it. *)
Record ResultSet := mkRS {
  rs_columns : list string;
  rs_current : option (list Cell);
  rs_pending : list (list Cell)
}.

Definition open_result (q : QueryResult) : ResultSet :=
  mkRS (qr_columns q) None (qr_rows q).

Definition next (rs : ResultSet) : bool * ResultSet :=
  match rs_pending rs with
  | [] => (false, mkRS (rs_columns rs) None [])
  | r :: rest => (true, mkRS (rs_columns rs) (Some r) rest)
  end.

(** A column is named by its 1-based position or by its label. *)
Inductive Column :=
| ByIndex (i : nat)
| ByLabel (l : string).

Fixpoint find_label (l : string) (cols : list string) : option nat :=
  match cols with
  | [] => None
  | c :: cs => if decide (c = l) then Some 0%nat else S <$> find_label l cs
  end.

Definition column_index (rs : ResultSet) (c : Column) : option nat :=
  match c with
  | ByIndex O => None
  | ByIndex (S i) => Some i
  | ByLabel l => find_label l (rs_columns rs)
  end.

(** [sql::InvalidArgumentException] and [sql::InvalidInstanceException]
    are subclasses of [sql::SQLException] built from a reason only: error
    code 0, SQLState HY000. *)
Definition invalid (reason : string) : exn :=
  Sql (mkSQLException reason 0 "HY000").

Definition cell (rs : ResultSet) (c : Column) : exn + Cell :=
  match rs_current rs with
  | None => inl (invalid "not on a row")
  | Some row =>
      match column_index rs c with
      | None => inl (invalid "invalid column")
      | Some i =>
          match row !! i with
          | None => inl (invalid "invalid column")
          | Some x => inr x
          end
      end
  end.

(** [getInt] yields a C++ [int]; SQL NULL reads as 0.  (A text field is
    converted by the connector with [strtoll]; the program reads only
    integer columns through [getInt], and the text case is left at 0.) *)
Definition cell_int (x : Cell) : Z :=
  match x with
  | CNull => 0
  | CInt z => to_int z
  | CString _ => 0
  end.

Definition cell_string (x : Cell) : string :=
  match x with
  | CNull => ""
  | CInt z => pretty z
  | CString s => s
  end.

Definition cell_null (x : Cell) : bool :=
  match x with CNull => true | _ => false end.

Definition getInt (c : Column) (rs : ResultSet) : exn + Z :=
  match cell rs c with inl e => inl e | inr x => inr (cell_int x) end.
Definition getString (c : Column) (rs : ResultSet) : exn + string :=
  match cell rs c with inl e => inl e | inr x => inr (cell_string x) end.
Definition isNull (c : Column) (rs : ResultSet) : exn + bool :=
  match cell rs c with inl e => inl e | inr x => inr (cell_null x) end.

(** ** Calls into the connector *)

(** The calls that reach the connection, indexed by what they return.
    Each of them may throw instead. *)
Inductive Call : Type → Type :=
| Connect (host user pass : string) : Call unit
| CreateStatement : Call unit
| Execute (sql : string) : Call bool
| ExecuteQuery (sql : string) : Call QueryResult
| SetSchema (schema : string) : Call unit
| PrepareStatement (sql : string) : Call unit
| PsExecuteUpdate (ps : PreparedStatement) : Call Z
| PsExecuteQuery (ps : PreparedStatement) : Call QueryResult
| SetAutoCommit (b : bool) : Call unit
| Commit : Call unit
| Rollback : Call unit.

Inductive Stream := Cout | Cerr.

(** ** Programs *)

(** A program returns, throws, calls the connector and goes on with the
    outcome of the call, or writes to a stream. *)
Inductive prog (A : Type) : Type :=
| Ret (a : A)
| Raise (e : exn)
| Do {X : Type} (c : Call X) (k : exn + X → prog A)
| Print (s : Stream) (text : string) (k : prog A).

Arguments Ret {A} a.
Arguments Raise {A} e.
Arguments Do {A X} c k.
Arguments Print {A} s text k.

Fixpoint bind {A B} (p : prog A) (f : A → prog B) : prog B :=
  match p with
  | Ret a => f a
  | Raise e => Raise e
  | Do c k => Do c (λ r, bind (k r) f)
  | Print s text k => Print s text (bind k f)
  end.

#[global] Instance prog_ret : MRet prog := @Ret.
#[global] Instance prog_bind : MBind prog := λ A B f p, bind p f.

(** A call whose exception propagates. *)
Definition call {X} (c : Call X) : prog X :=
  Do c (λ r, match r with inl e => Raise e | inr x => Ret x end).

(** A client-side accessor that may throw. *)
Definition lift {A} (r : exn + A) : prog A :=
  match r with inl e => Raise e | inr a => Ret a end.

Definition cout (text : string) : prog unit := Print Cout text (Ret tt).
Definition cerr (text : string) : prog unit := Print Cerr text (Ret tt).

(** [try p catch (const sql::SQLException& e) h]: other exceptions pass. *)
Fixpoint try_catch_sql {A} (p : prog A) (h : SQLException → prog A) : prog A :=
  match p with
  | Ret a => Ret a
  | Raise (Sql e) => h e
  | Raise e => Raise e
  | Do c k => Do c (λ r, try_catch_sql (k r) h)
  | Print s text k => Print s text (try_catch_sql k h)
  end.

(** [try p catch (...) h]. *)
Fixpoint try_catch_all {A} (p : prog A) (h : prog A) : prog A :=
  match p with
  | Ret a => Ret a
  | Raise _ => h
  | Do c k => Do c (λ r, try_catch_all (k r) h)
  | Print s text k => Print s text (try_catch_all k h)
  end.

(** [try p catch (const sql::SQLException& e) h1
          catch (const std::exception& e) h2]. *)
Fixpoint try_catch_sql_std {A} (p : prog A)
    (h1 : SQLException → prog A) (h2 : string → prog A) : prog A :=
  match p with
  | Ret a => Ret a
  | Raise (Sql e) => h1 e
  | Raise (Std msg) => h2 msg
  | Raise Foreign => Raise Foreign
  | Do c k => Do c (λ r, try_catch_sql_std (k r) h1 h2)
  | Print s text k => Print s text (try_catch_sql_std k h1 h2)
  end.

(** ** Running a program against a connection *)

(** The other end of the connection: given its state, every call returns
    or throws, and leaves a new state. *)
Definition handler (W : Type) : Type := ∀ X, Call X → W → (exn + X) * W.

Inductive event :=
| EvCall {X : Type} (c : Call X) (r : exn + X)
| EvPrint (s : Stream) (text : string).

Fixpoint run {W A} (h : handler W) (p : prog A) (w : W)
    : (exn + A) * W * list event :=
  match p with
  | Ret a => (inr a, w, [])
  | Raise e => (inl e, w, [])
  | Do c k =>
      let '(r, w1) := h _ c w in
      let '(res, w2, t) := run h (k r) w1 in
      (res, w2, EvCall c r :: t)
  | Print s text k =>
      let '(res, w2, t) := run h k w in
      (res, w2, EvPrint s text :: t)
  end.

(** What was written to a stream, in order. *)
Fixpoint written (s : Stream) (t : list event) : string :=
  match t with
  | [] => ""
  | EvPrint s' text :: t' =>
      match s, s' with
      | Cout, Cout | Cerr, Cerr => text +:+ written s t'
      | _, _ => written s t'
      end
  | EvCall _ _ :: t' => written s t'
  end.

(** The calls made, without their outcomes. *)
Inductive anycall :=
| Any {X : Type} (c : Call X).

Fixpoint calls (t : list event) : list anycall :=
  match t with
  | [] => []
  | EvCall c _ :: t' => Any c :: calls t'
  | EvPrint _ _ :: t' => calls t'
  end.

End Cpp.

(* ===================================================================== *)
(** * The program: the functions of sql.cpp                              *)
(* ===================================================================== *)

Module Sql.
Import Cpp.

(** ** The connector's objects as the program uses them *)

(** [con->createStatement()]; a [sql::Statement] carries no state. *)
Definition createStatement : prog unit := call CreateStatement.

(** [con->prepareStatement(sql)]: the server compiles the text; the
    handle starts with no placeholder bound. *)
Definition prepareStatement (sql : string) : prog PreparedStatement :=
  call (PrepareStatement sql);; mret (mkPS sql ∅).

Definition execute (sql : string) : prog bool := call (Execute sql).
Definition executeUpdate (ps : PreparedStatement) : prog Z :=
  call (PsExecuteUpdate ps).
Definition executeQuery (sql : string) : prog ResultSet :=
  q ← call (ExecuteQuery sql); mret (open_result q).
Definition psExecuteQuery (ps : PreparedStatement) : prog ResultSet :=
  q ← call (PsExecuteQuery ps); mret (open_result q).
Definition setSchema (schema : string) : prog unit := call (SetSchema schema).
Definition setAutoCommit (b : bool) : prog unit := call (SetAutoCommit b).
Definition commit : prog unit := call Commit.
Definition rollback : prog unit := call Rollback.

(** [while (rs->next()) body]: the loop runs [body] with the cursor on
    each pending row in turn and stops when [next] finds none; [acc] is
    what the body updates. *)
Fixpoint while_next {A} (body : ResultSet → A → prog A)
    (columns : list string) (pending : list (list Cell)) (acc : A) : prog A :=
  match pending with
  | [] => mret acc
  | row :: rest =>
      acc' ← body (mkRS columns (Some row) rest) acc;
      while_next body columns rest acc'
  end.

(** [std::left << std::setw(w) << s]. *)
Definition setw_left (w : nat) (s : string) : string :=
  s +:+ String.concat "" (replicate (w - String.length s) " ").

(** ** struct DbConfig, struct User *)

Record DbConfig := mkDbConfig {
  host : string;
  user : string;
  pass : string;
  schema : string
}.

Definition cfg : DbConfig :=
  mkDbConfig "tcp://127.0.0.1:3306" "root" "sinatra1" "testdb".

Record User := mkUser {
  id : Z;
  name : string;
  age : Z
}.

(** ** printSqlError *)

Definition sql_error_line (e : SQLException) (where_ : string) : string :=
  "[SQL ERROR @ " +:+ where_ +:+ "] " +:+ what e
  +:+ " | MySQL error code: " +:+ pretty (getErrorCode e)
  +:+ " | SQLState: " +:+ getSQLStateCStr e +:+ nl.

Definition printSqlError (e : SQLException) (where_ : string) : prog unit :=
  cerr (sql_error_line e where_).

(** ** ensureSchemaAndTables *)

Definition create_users_sql : string :=
  "CREATE TABLE IF NOT EXISTS users ("
  +:+ "  id INT AUTO_INCREMENT PRIMARY KEY,"
  +:+ "  name VARCHAR(100) NOT NULL,"
  +:+ "  age INT NULL,"
  +:+ "  UNIQUE KEY uq_users_name (name)"
  +:+ ") ENGINE=InnoDB DEFAULT CHARSET=utf8mb4;".

Definition create_database_sql (schema : string) : string :=
  "CREATE DATABASE IF NOT EXISTS `" +:+ schema +:+ "`".

Definition ensureSchemaAndTables (schema : string) : prog unit :=
  createStatement;;
  execute (create_database_sql schema);;
  setSchema schema;;
  execute create_users_sql;;
  mret tt.

(** ** insertUser *)

Definition insert_sql : string := "INSERT INTO users(name, age) VALUES(?, ?)".

Definition insertUser (u : User) : prog Z :=
  ps ← prepareStatement insert_sql;
  let ps := setString 1 (name u) ps in
  let ps := if bool_decide (age u = 0) then setNull 2 0 ps
            else setInt 2 (age u) ps in
  executeUpdate ps;;
  createStatement;;
  r ← executeQuery "SELECT LAST_INSERT_ID()";
  let '(more, r) := next r in
  if more then lift (getInt (ByIndex 1) r) else mret 0.

(** ** insertUsersBulk *)

(** The body of [for (const auto& u : users)], on the one statement. *)
Fixpoint insert_each (ps : PreparedStatement) (users : list User) : prog unit :=
  match users with
  | [] => mret tt
  | u :: rest =>
      let ps := setString 1 (name u) ps in
      let ps := if bool_decide (age u = 0) then setNull 2 0 ps
                else setInt 2 (age u) ps in
      executeUpdate ps;;
      insert_each ps rest
  end.

Definition insertUsersBulk (users : list User) : prog unit :=
  ps ← prepareStatement insert_sql;
  insert_each ps users.

(** ** updateUserAgeByName *)

Definition update_sql : string := "UPDATE users SET age = ? WHERE name = ?".

Definition updateUserAgeByName (name : string) (newAge : Z) : prog Z :=
  ps ← prepareStatement update_sql;
  let ps := setInt 1 newAge ps in
  let ps := setString 2 name ps in
  executeUpdate ps.

(** ** getUsersByMinAge *)

Definition select_sql : string :=
  "SELECT id, name, age FROM users WHERE age >= ? ORDER BY age DESC, id ASC".

(** The loop body: build a [User] from the current row, append it. *)
Definition read_user (rs : ResultSet) (out : list User) : prog (list User) :=
  i ← lift (getInt (ByLabel "id") rs);
  n ← lift (getString (ByLabel "name") rs);
  null ← lift (isNull (ByLabel "age") rs);
  a ← (if null : bool then mret 0 else lift (getInt (ByLabel "age") rs));
  mret (out ++ [mkUser i n a]).

Definition getUsersByMinAge (minAge : Z) : prog (list User) :=
  ps ← prepareStatement select_sql;
  let ps := setInt 1 minAge ps in
  rs ← psExecuteQuery ps;
  while_next read_user (rs_columns rs) (rs_pending rs) [].

(** ** demoTransaction *)

(** The [try] block. *)
Definition demoTransaction_body : prog unit :=
  insertUsersBulk [mkUser 0 "alice" 24; mkUser 0 "bob" 29];;
  changed ← updateUserAgeByName "alice" 25;
  cout ("Rows updated: " +:+ pretty changed +:+ nl);;
  commit;;
  setAutoCommit true;;
  cout ("Transaction committed." +:+ nl).

(** The [catch (const sql::SQLException& e)] block; [throw;] rethrows [e]. *)
Definition demoTransaction_handler (e : SQLException) : prog unit :=
  printSqlError e "demoTransaction";;
  try_catch_sql
    (rollback;; cerr ("Transaction rolled back." +:+ nl))
    (λ e2, printSqlError e2 "rollback");;
  setAutoCommit true;;
  Raise (Sql e).

Definition demoTransaction : prog unit :=
  setAutoCommit false;;
  try_catch_sql demoTransaction_body demoTransaction_handler.

(** ** main *)

(** Step 7, the loop printing the filtered users. *)
Fixpoint print_users (results : list User) : prog unit :=
  match results with
  | [] => mret tt
  | u :: rest =>
      cout (setw_left 5 (pretty (id u)) +:+ setw_left 12 (name u)
            +:+ pretty (if bool_decide (age u = 0) then -1 else age u) +:+ nl);;
      print_users rest
  end.

(** Step 9, the loop body printing one row of the final table.  The
    operands of [<<] are evaluated and written left to right. *)
Definition print_row (rs : ResultSet) (_ : unit) : prog unit :=
  cout "ID=";;
  i ← lift (getInt (ByLabel "id") rs);
  cout (pretty i);;
  cout " | name=";;
  n ← lift (getString (ByLabel "name") rs);
  cout n;;
  cout " | age=";;
  null ← lift (isNull (ByLabel "age") rs);
  a ← (if null : bool then mret (-1) else lift (getInt (ByLabel "age") rs));
  cout (pretty a);;
  cout nl.

(** The [try] block of [main].  Step 1 fetches the driver singleton, which
    reaches no server; the first call is the connect of step 2. *)
Definition main_body : prog unit :=
  call (Connect (host cfg) (user cfg) (pass cfg));;
  ensureSchemaAndTables (schema cfg);;
  (createStatement;; execute "DELETE FROM users");;
  newId ← insertUser (mkUser 0 "carol" 32);
  cout ("Inserted carol with id = " +:+ pretty newId +:+ nl);;
  try_catch_all demoTransaction
    (cerr ("Transaction demo failed (rolled back)." +:+ nl));;
  results ← getUsersByMinAge 25;
  cout (nl +:+ "Users with age >= 25:" +:+ nl);;
  cout (setw_left 5 "ID" +:+ setw_left 12 "Name" +:+ "Age" +:+ nl);;
  print_users results;;
  affected ← updateUserAgeByName "bob" 31;
  cout (nl +:+ "Updated rows (bob -> 31): " +:+ pretty affected +:+ nl);;
  createStatement;;
  rs ← executeQuery "SELECT id, name, age FROM users ORDER BY id";
  cout (nl +:+ "Final users:" +:+ nl);;
  while_next print_row (rs_columns rs) (rs_pending rs) tt.

(** [main] returns the exit code; an exception that no handler takes
    ends the program through [std::terminate], which is [Raise] here. *)
Definition main : prog Z :=
  try_catch_sql_std
    (main_body;; mret 0)
    (λ e, printSqlError e "main";; mret 1)
    (λ msg, cerr ("[STD ERROR] " +:+ msg +:+ nl);; mret 1).

End Sql.

(* ===================================================================== *)
(** * The server behind the connection                                   *)
(* ===================================================================== *)

(** The database engine is not part of the program; the program fixes
    only the text of the statements it sends.  This module reads that
    text: a lexer and a parser for the statements of the MySQL dialect
    that the program uses turn it into a syntax tree, and the tree is
    given its MySQL meaning on a small state: the databases, each with
    its [users] table once created, and the session (selected schema,
    autocommit mode, last generated identifier).  The module names no
    text of the program: what a statement does follows from what it
    says.  It is one [handler]; the theorems that do not depend on the
    engine quantify over all of them.

    Conventions of the model.  The one table definition it stores is
    that of [users] as the program creates it ([users_def]); any other
    definition, and any statement or parameter shape outside the grammar
    below, is answered with an error.  The text columns of that table
    compare under the default collation of [utf8mb4], which ignores the
    case of letters; the model folds the case of ASCII letters, which is
    the whole of that collation on names made of ASCII letters, digits
    and underscores.  Lengths are counted in characters of the UTF-8
    text.  The session is in strict SQL mode, the default of the server:
    a value that a column cannot hold is refused, not adjusted.  Database
    and table names are compared as written. *)

Module MySQL.
Import Cpp.

(** A row of [users]: [id INT AUTO_INCREMENT PRIMARY KEY],
    [name VARCHAR(100) NOT NULL] with [UNIQUE KEY], [age INT NULL]. *)
Record Row := mkRow {
  r_id : Z;
  r_name : string;
  r_age : option Z
}.

(** The rows in insertion order and the next AUTO_INCREMENT value. *)
Record Table := mkTable {
  t_rows : list Row;
  t_auto : Z
}.

Record Server := mkServer {
  connected : bool;
  (** per database, its [users] table when it exists *)
  databases : gmap string (option Table);
  (** the state as of the last commit, what [rollback] returns to *)
  committed : gmap string (option Table);
  current : option string;
  autocommit : bool;
  last_insert_id : Z
}.

Definition err (code : Z) (state msg : string) : exn :=
  Sql (mkSQLException msg code state).

Definition gone_away : exn := err 2006 "HY000" "MySQL server has gone away".
Definition syntax_error : exn :=
  err 1064 "42000" "You have an error in your SQL syntax".
Definition unsupported : exn :=
  err 1210 "HY000" "Incorrect arguments to statement".

(** ** Characters *)

Definition code (c : Ascii.ascii) : N := Ascii.N_of_ascii c.

Definition in_range (lo hi : N) (c : Ascii.ascii) : bool :=
  ((lo <=? code c) && (code c <=? hi))%N.

Definition backtick : Ascii.ascii := Ascii.ascii_of_nat 96.
Definition space : Ascii.ascii := Ascii.ascii_of_nat 32.

Definition is_upper : Ascii.ascii → bool := in_range 65 90.
Definition is_lower : Ascii.ascii → bool := in_range 97 122.
Definition is_digit : Ascii.ascii → bool := in_range 48 57.

(** Letters, digits and the underscore make up keywords, identifiers and
    numbers. *)
Definition is_word_char (c : Ascii.ascii) : bool :=
  is_upper c || is_lower c || is_digit c || (code c =? 95)%N.

(** Space, tab, line feed, carriage return. *)
Definition is_blank (c : Ascii.ascii) : bool :=
  ((code c =? 32) || (code c =? 9) || (code c =? 10) || (code c =? 13))%N.

(** The one-character symbols: ( ) * , ; = ? *)
Definition is_symbol (c : Ascii.ascii) : bool :=
  ((code c =? 40) || (code c =? 41) || (code c =? 42) || (code c =? 44)
   || (code c =? 59) || (code c =? 61) || (code c =? 63))%N.

Definition greater : Ascii.ascii := Ascii.ascii_of_nat 62.
Definition equals : Ascii.ascii := Ascii.ascii_of_nat 61.

Definition lower (c : Ascii.ascii) : Ascii.ascii :=
  if is_upper c then Ascii.ascii_of_N (code c + 32) else c.

(** Keywords, column names and, under the collation of the table, the
    values of its text column are compared after folding the case of
    letters. *)
Fixpoint fold (s : string) : string :=
  match s with
  | "" => ""
  | String c rest => String (lower c) (fold rest)
  end.

(** The number of characters of a UTF-8 text: its bytes other than the
    continuation bytes 10xxxxxx. *)
Fixpoint char_length (s : string) : nat :=
  match s with
  | "" => 0%nat
  | String c rest =>
      ((if in_range 128 191 c then 0 else 1) + char_length rest)%nat
  end.

(** The first [n] characters of a UTF-8 text, and the text after them.
    A continuation byte goes with the character before it. *)
Fixpoint take_chars (n : nat) (s : string) : string :=
  match s with
  | "" => ""
  | String c rest =>
      if in_range 128 191 c then String c (take_chars n rest)
      else match n with
           | O => ""
           | S n' => String c (take_chars n' rest)
           end
  end.

Fixpoint drop_chars (n : nat) (s : string) : string :=
  match s with
  | "" => ""
  | String c rest =>
      if in_range 128 191 c then drop_chars n rest
      else match n with
           | O => s
           | S n' => drop_chars n' rest
           end
  end.

Fixpoint spaces_only (s : string) : bool :=
  match s with
  | "" => true
  | String c rest => bool_decide (c = space) && spaces_only rest
  end.

Fixpoint last_char (s : string) : option Ascii.ascii :=
  match s with
  | "" => None
  | String c "" => Some c
  | String _ rest => last_char rest
  end.

(** ** The lexer *)

Inductive Token :=
| TWord (w : string)     (** a keyword, an identifier or a number, as written *)
| TQuoted (q : string)   (** an identifier between back quotes, unquoted *)
| TSym (s : string).     (** one of ( ) * , ; = ? >= *)

#[global] Instance Token_eq_dec : EqDecision Token.
Proof. solve_decision. Defined.

(** Where the lexer is: in plain text with the word read so far, or
    inside back quotes with the identifier read so far. *)
Inductive LexMode :=
| Plain (w : string)
| Quoted (q : string).

Definition flush (w : string) (ts : list Token) : list Token :=
  if decide (w = "") then ts else TWord w :: ts.

(** Inside back quotes a doubled back quote stands for one; a single one
    closes the identifier.  A character outside the alphabet of the
    dialect, and an identifier left open, make the text unreadable. *)
Fixpoint lex (s : string) (m : LexMode) {struct s} : option (list Token) :=
  match s with
  | "" =>
      match m with
      | Plain w => Some (flush w [])
      | Quoted _ => None
      end
  | String c rest =>
      match m with
      | Quoted q =>
          if decide (c = backtick) then
            match rest with
            | "" => Some [TQuoted q]
            | String c2 rest2 =>
                if decide (c2 = backtick)
                then lex rest2 (Quoted (q +:+ String backtick ""))
                else cons (TQuoted q) <$> lex rest (Plain "")
            end
          else lex rest (Quoted (q +:+ String c ""))
      | Plain w =>
          if is_word_char c then lex rest (Plain (w +:+ String c ""))
          else if is_blank c then flush w <$> lex rest (Plain "")
          else if decide (c = backtick) then flush w <$> lex rest (Quoted "")
          else if decide (c = greater) then
            match rest with
            | "" => None
            | String c2 rest2 =>
                if decide (c2 = equals)
                then (λ ts, flush w (TSym ">=" :: ts)) <$> lex rest2 (Plain "")
                else None
            end
          else if is_symbol c then
            (λ ts, flush w (TSym (String c "") :: ts)) <$> lex rest (Plain "")
          else None
      end
  end.

(** ** The syntax tree *)

Inductive Dir := Asc | Desc.

Inductive ColType :=
| TInt
| TVarchar (n : nat).

Record ColDef := mkCol {
  c_name : string;
  c_type : ColType;
  c_not_null : bool;
  c_auto : bool;
  c_primary : bool
}.

Record TableDef := mkDef {
  td_name : string;
  td_cols : list ColDef;
  (** the unique keys: name and columns *)
  td_unique : list (string * list string);
  td_engine : option string;
  td_charset : option string;
  td_collate : option string
}.

#[global] Instance Dir_eq_dec : EqDecision Dir.
Proof. solve_decision. Defined.
#[global] Instance ColType_eq_dec : EqDecision ColType.
Proof. solve_decision. Defined.
#[global] Instance ColDef_eq_dec : EqDecision ColDef.
Proof. solve_decision. Defined.
#[global] Instance TableDef_eq_dec : EqDecision TableDef.
Proof. solve_decision. Defined.

(** The statements of the grammar.  Every value of a data statement is a
    [?] placeholder, numbered from 1 in the order of the text. *)
Inductive Stmt :=
| CreateDatabase (if_not_exists : bool) (n : string)
| CreateTable (if_not_exists : bool) (d : TableDef)
| DropTable (if_exists : bool) (t : string)
| DeleteFrom (t : string)
    (** [INSERT INTO t (cols) VALUES (?, ..)] with that many [?] *)
| InsertInto (t : string) (cols : list string) (values : nat)
    (** [UPDATE t SET c = ? WHERE k = ?] *)
| UpdateSet (t : string) (c k : string)
    (** [SELECT cols FROM t [WHERE c >= ?] [ORDER BY ..]] *)
| SelectFrom (cols : list string) (t : string) (at_least : option string)
    (order : list (string * Dir))
| SelectLastInsertId.

(** ** The parser *)

Definition word (k : string) (t : Token) : bool :=
  match t with TWord w => bool_decide (fold w = k) | _ => false end.

Definition sym (s : string) (t : Token) : bool :=
  match t with TSym x => bool_decide (x = s) | _ => false end.

Definition name_of (t : Token) : option string :=
  match t with
  | TWord w => Some w
  | TQuoted q => Some q
  | TSym _ => None
  end.

(** The tokens after the keywords [ks]. *)
Fixpoint take (ks : list string) (ts : list Token) : option (list Token) :=
  match ks with
  | [] => Some ts
  | k :: ks' =>
      match ts with
      | t :: ts' => if word k t then take ks' ts' else None
      | [] => None
      end
  end.

Definition take_sym (s : string) (ts : list Token) : option (list Token) :=
  match ts with
  | t :: ts' => if sym s t then Some ts' else None
  | [] => None
  end.

Definition optional (ks : list string) (ts : list Token) : bool * list Token :=
  match take ks ts with
  | Some rest => (true, rest)
  | None => (false, ts)
  end.

Definition skip_sym (s : string) (ts : list Token) : list Token :=
  match take_sym s ts with
  | Some rest => rest
  | None => ts
  end.

(** A statement ends with its last token or with one semicolon. *)
Definition at_end (ts : list Token) : bool :=
  match ts with
  | [] => true
  | [t] => sym ";" t
  | _ => false
  end.

Fixpoint number (s : string) (acc : nat) : option nat :=
  match s with
  | "" => Some acc
  | String c rest =>
      if is_digit c
      then number rest (10 * acc + (N.to_nat (code c) - 48))%nat
      else None
  end.

(** [n {, n}] *)
Fixpoint names (fuel : nat) (ts : list Token)
    : option (list string * list Token) :=
  match fuel, ts with
  | S f, t :: rest =>
      n ← name_of t;
      match take_sym "," rest with
      | Some rest' => '(ns, r) ← names f rest'; Some (n :: ns, r)
      | None => Some ([n], rest)
      end
  | _, _ => None
  end.

(** [( n {, n} )] *)
Definition paren_names (ts : list Token) : option (list string * list Token) :=
  r ← take_sym "(" ts;
  '(ns, r) ← names (length r) r;
  r ← take_sym ")" r;
  Some (ns, r).

(** [? {, ?}], counted *)
Fixpoint marks (fuel : nat) (ts : list Token) : option (nat * list Token) :=
  match fuel with
  | S f =>
      r ← take_sym "?" ts;
      match take_sym "," r with
      | Some r' => '(n, r'') ← marks f r'; Some (S n, r'')
      | None => Some (1%nat, r)
      end
  | O => None
  end.

(** [c [ASC|DESC] {, c [ASC|DESC]}] *)
Fixpoint order_items (fuel : nat) (ts : list Token)
    : option (list (string * Dir) * list Token) :=
  match fuel, ts with
  | S f, t :: rest =>
      c ← name_of t;
      let '(d, rest) :=
        match take ["desc"] rest, take ["asc"] rest with
        | Some r, _ => (Desc, r)
        | None, Some r => (Asc, r)
        | None, None => (Asc, rest)
        end in
      match take_sym "," rest with
      | Some rest' => '(os, r) ← order_items f rest'; Some ((c, d) :: os, r)
      | None => Some ([(c, d)], rest)
      end
  | _, _ => None
  end.

Definition col_type (ts : list Token) : option (ColType * list Token) :=
  match ts with
  | t :: rest =>
      if word "int" t then Some (TInt, rest)
      else if word "varchar" t then
        match rest with
        | p :: TWord n :: q :: rest' =>
            if sym "(" p && sym ")" q
            then k ← number n 0; Some (TVarchar k, rest')
            else None
        | _ => None
        end
      else None
  | [] => None
  end.

(** The attributes of a column, up to the comma or parenthesis that ends
    its definition.  A primary key column is not null. *)
Fixpoint col_attrs (ts : list Token) (d : ColDef)
    : option (ColDef * list Token) :=
  match ts with
  | t :: rest =>
      if word "auto_increment" t then
        col_attrs rest
          (mkCol (c_name d) (c_type d) (c_not_null d) true (c_primary d))
      else if word "null" t then col_attrs rest d
      else if word "not" t then
        match rest with
        | t2 :: rest2 =>
            if word "null" t2 then
              col_attrs rest2
                (mkCol (c_name d) (c_type d) true (c_auto d) (c_primary d))
            else None
        | [] => None
        end
      else if word "primary" t then
        match rest with
        | t2 :: rest2 =>
            if word "key" t2 then
              col_attrs rest2 (mkCol (c_name d) (c_type d) true (c_auto d) true)
            else None
        | [] => None
        end
      else Some (d, ts)
  | [] => Some (d, [])
  end.

(** One item between the parentheses of [CREATE TABLE]: a column, or
    [UNIQUE KEY name (columns)]. *)
Definition table_item (ts : list Token) (d : TableDef)
    : option (TableDef * list Token) :=
  match take ["unique"; "key"] ts with
  | Some (t :: rest) =>
      k ← name_of t;
      '(cs, r) ← paren_names rest;
      Some (mkDef (td_name d) (td_cols d) (td_unique d ++ [(k, cs)])
              (td_engine d) (td_charset d) (td_collate d), r)
  | Some [] => None
  | None =>
      match ts with
      | t :: rest =>
          c ← name_of t;
          '(ty, r) ← col_type rest;
          '(cd, r) ← col_attrs r (mkCol c ty false false false);
          Some (mkDef (td_name d) (td_cols d ++ [cd]) (td_unique d)
                  (td_engine d) (td_charset d) (td_collate d), r)
      | [] => None
      end
  end.

Fixpoint table_items (fuel : nat) (ts : list Token) (d : TableDef)
    : option (TableDef * list Token) :=
  match fuel with
  | S f =>
      '(d, r) ← table_item ts d;
      match take_sym "," r, take_sym ")" r with
      | Some r', _ => table_items f r' d
      | None, Some r' => Some (d, r')
      | None, None => None
      end
  | O => None
  end.

(** [ENGINE [=] e], [[DEFAULT] CHARSET [=] c], [[DEFAULT] COLLATE [=] c],
    in any order, up to the end of the statement. *)
Fixpoint table_options (fuel : nat) (ts : list Token) (d : TableDef)
    : option TableDef :=
  match fuel with
  | S f =>
      if at_end ts then Some d
      else
        let ts := (optional ["default"] ts).2 in
        match ts with
        | k :: rest =>
            match skip_sym "=" rest with
            | v :: rest' =>
                x ← name_of v;
                if word "engine" k then
                  table_options f rest'
                    (mkDef (td_name d) (td_cols d) (td_unique d) (Some x)
                       (td_charset d) (td_collate d))
                else if word "charset" k then
                  table_options f rest'
                    (mkDef (td_name d) (td_cols d) (td_unique d) (td_engine d)
                       (Some x) (td_collate d))
                else if word "collate" k then
                  table_options f rest'
                    (mkDef (td_name d) (td_cols d) (td_unique d) (td_engine d)
                       (td_charset d) (Some x))
                else None
            | [] => None
            end
        | [] => None
        end
  | O => None
  end.

Definition parse_create_database (ts : list Token) : option Stmt :=
  let '(ine, ts) := optional ["if"; "not"; "exists"] ts in
  match ts with
  | t :: rest =>
      n ← name_of t;
      if at_end rest then Some (CreateDatabase ine n) else None
  | [] => None
  end.

Definition parse_create_table (ts : list Token) : option Stmt :=
  let '(ine, ts) := optional ["if"; "not"; "exists"] ts in
  match ts with
  | t :: rest =>
      n ← name_of t;
      r ← take_sym "(" rest;
      '(d, r) ← table_items (length r) r (mkDef n [] [] None None None);
      d ← table_options (S (length r)) r d;
      Some (CreateTable ine d)
  | [] => None
  end.

Definition parse_drop_table (ts : list Token) : option Stmt :=
  let '(ie, ts) := optional ["if"; "exists"] ts in
  match ts with
  | t :: rest =>
      n ← name_of t;
      if at_end rest then Some (DropTable ie n) else None
  | [] => None
  end.

Definition parse_delete (ts : list Token) : option Stmt :=
  match ts with
  | t :: rest =>
      n ← name_of t;
      if at_end rest then Some (DeleteFrom n) else None
  | [] => None
  end.

Definition parse_insert (ts : list Token) : option Stmt :=
  match ts with
  | t :: rest =>
      n ← name_of t;
      '(cols, r) ← paren_names rest;
      r ← take ["values"] r;
      r ← take_sym "(" r;
      '(k, r) ← marks (length r) r;
      r ← take_sym ")" r;
      if at_end r then Some (InsertInto n cols k) else None
  | [] => None
  end.

Definition parse_update (ts : list Token) : option Stmt :=
  match ts with
  | t :: rest =>
      n ← name_of t;
      r ← take ["set"] rest;
      match r with
      | c :: r =>
          c ← name_of c;
          r ← take_sym "=" r;
          r ← take_sym "?" r;
          r ← take ["where"] r;
          match r with
          | k :: r =>
              k ← name_of k;
              r ← take_sym "=" r;
              r ← take_sym "?" r;
              if at_end r then Some (UpdateSet n c k) else None
          | [] => None
          end
      | [] => None
      end
  | [] => None
  end.

Definition parse_where (ts : list Token) : option (option string * list Token) :=
  match take ["where"] ts with
  | Some (c :: r) =>
      c ← name_of c;
      r ← take_sym ">=" r;
      r ← take_sym "?" r;
      Some (Some c, r)
  | Some [] => None
  | None => Some (None, ts)
  end.

Definition parse_order (ts : list Token)
    : option (list (string * Dir) * list Token) :=
  match take ["order"; "by"] ts with
  | Some r => order_items (length r) r
  | None => Some ([], ts)
  end.

Definition parse_select (ts : list Token) : option Stmt :=
  match take ["last_insert_id"] ts with
  | Some r =>
      r ← take_sym "(" r;
      r ← take_sym ")" r;
      if at_end r then Some SelectLastInsertId else None
  | None =>
      '(cols, r) ← names (length ts) ts;
      r ← take ["from"] r;
      match r with
      | t :: r =>
          n ← name_of t;
          '(wh, r) ← parse_where r;
          '(order, r) ← parse_order r;
          if at_end r then Some (SelectFrom cols n wh order) else None
      | [] => None
      end
  end.

Definition parse (ts : list Token) : option Stmt :=
  match take ["create"; "database"] ts, take ["create"; "table"] ts,
        take ["drop"; "table"] ts, take ["delete"; "from"] ts,
        take ["insert"; "into"] ts, take ["update"] ts, take ["select"] ts with
  | Some r, _, _, _, _, _, _ => parse_create_database r
  | _, Some r, _, _, _, _, _ => parse_create_table r
  | _, _, Some r, _, _, _, _ => parse_drop_table r
  | _, _, _, Some r, _, _, _ => parse_delete r
  | _, _, _, _, Some r, _, _ => parse_insert r
  | _, _, _, _, _, Some r, _ => parse_update r
  | _, _, _, _, _, _, Some r => parse_select r
  | _, _, _, _, _, _, _ => None
  end.

(** What a text says, when it is a statement of the grammar. *)
Definition statement (sql : string) : option Stmt :=
  ts ← lex sql (Plain ""); parse ts.

(** ** The table the model stores *)

(** [users] as the program defines it: the definition that the rows of
    type [Row] and the checks of [insert_row] stand for. *)
Definition users_def : TableDef :=
  mkDef "users"
    [mkCol "id" TInt true true true;
     mkCol "name" (TVarchar 100) true false false;
     mkCol "age" TInt false false false]
    [("uq_users_name", ["name"])]
    (Some "innodb") (Some "utf8mb4") None.

(** Column names, key names, engine and character set as the server
    compares them. *)
Definition fold_col (c : ColDef) : ColDef :=
  mkCol (fold (c_name c)) (c_type c) (c_not_null c) (c_auto c) (c_primary c).

Definition fold_def (d : TableDef) : TableDef :=
  mkDef (td_name d) (fold_col <$> td_cols d)
    ((λ k : string * list string, (fold k.1, fold <$> k.2)) <$> td_unique d)
    (fold <$> td_engine d) (fold <$> td_charset d) (fold <$> td_collate d).

Definition is_col (c k : string) : bool := bool_decide (fold c = k).

Definition known (c : string) : bool :=
  is_col c "id" || is_col c "name" || is_col c "age".

(** The integer columns: what [WHERE c >= ?] and [ORDER BY c] read. *)
Definition int_key (c : string) (r : Row) : option (option Z) :=
  if is_col c "id" then Some (Some (r_id r))
  else if is_col c "age" then Some (r_age r)
  else None.

Definition field (c : string) (r : Row) : Cell :=
  if is_col c "id" then CInt (r_id r)
  else if is_col c "name" then CString (r_name r)
  else match r_age r with None => CNull | Some a => CInt a end.

(** The value of the text column as the unique key and [WHERE name = ?]
    compare it. *)
Definition keys (rows : list Row) : list string :=
  (λ r, fold (r_name r)) <$> rows.

(** ** Transactions *)

(** Data definition statements commit; so does every statement in
    autocommit mode. *)
Definition set_databases (implicit_commit : bool)
    (dbs : gmap string (option Table)) (w : Server) : Server :=
  mkServer (connected w) dbs
    (if implicit_commit || autocommit w then dbs else committed w)
    (current w) (autocommit w) (last_insert_id w).

(** [rollback] restores the rows of the last commit (the table is stored
    by the transactional engine InnoDB); the AUTO_INCREMENT counters are
    not transactional and stay. *)
Definition restore_table (cur old : option (option Table))
    : option (option Table) :=
  match cur, old with
  | Some (Some t), Some (Some t0) => Some (Some (mkTable (t_rows t0) (t_auto t)))
  | _, _ => cur
  end.

Definition rolled_back (w : Server) : gmap string (option Table) :=
  merge restore_table (databases w) (committed w).

(** ** The statements *)

Definition no_database : exn := err 1046 "3D000" "No database selected".
Definition no_table : exn := err 1146 "42S02" "Table doesn't exist".
Definition unknown_column : exn :=
  err 1054 "42S22" "Unknown column in 'field list'".

Definition users_table (w : Server) : exn + (string * Table) :=
  match current w with
  | None => inl no_database
  | Some db =>
      match databases w !! db with
      | Some (Some t) => inr (db, t)
      | _ => inl no_table
      end
  end.

(** The table a data statement names: the model holds [users] only. *)
Definition table_named (t : string) (w : Server) : exn + (string * Table) :=
  if decide (t = "users") then users_table w
  else match current w with
       | None => inl no_database
       | Some _ => inl no_table
       end.

(** A database name is not empty, has at most 64 characters and does not
    end with a space. *)
Definition check_database_name (n : string) : option exn :=
  if decide (n = "") then Some (err 1102 "42000" "Incorrect database name")
  else if decide (64 < char_length n)%nat
       then Some (err 1059 "42000" "Identifier name is too long")
  else if decide (last_char n = Some space)
       then Some (err 1102 "42000" "Incorrect database name")
  else None.

(** [CREATE DATABASE [IF NOT EXISTS] n] *)
Definition create_database (if_not_exists : bool) (n : string) (w : Server)
    : (exn + bool) * Server :=
  match check_database_name n with
  | Some e => (inl e, w)
  | None =>
      match databases w !! n with
      | Some _ =>
          if if_not_exists then (inr false, set_databases true (databases w) w)
          else (inl (err 1007 "HY000" "Can't create database; database exists"),
                w)
      | None => (inr false, set_databases true (<[n := None]> (databases w)) w)
      end
  end.

(** [CREATE TABLE [IF NOT EXISTS] ..] *)
Definition create_table (if_not_exists : bool) (d : TableDef) (w : Server)
    : (exn + bool) * Server :=
  if decide (fold_def d = users_def) then
    match current w with
    | None => (inl no_database, w)
    | Some db =>
        match databases w !! db with
        | Some (Some _) =>
            if if_not_exists
            then (inr false, set_databases true (databases w) w)
            else (inl (err 1050 "42S01" "Table already exists"), w)
        | _ =>
            (inr false,
             set_databases true (<[db := Some (mkTable [] 1)]> (databases w)) w)
        end
    end
  else (inl unsupported, w).

(** [DROP TABLE [IF EXISTS] t]: the table and its rows go. *)
Definition drop_table (if_exists : bool) (t : string) (w : Server)
    : (exn + bool) * Server :=
  match current w with
  | None => (inl no_database, w)
  | Some db =>
      match (if decide (t = "users") then databases w !! db else None) with
      | Some (Some _) =>
          (inr false, set_databases true (<[db := None]> (databases w)) w)
      | _ =>
          if if_exists then (inr false, set_databases true (databases w) w)
          else (inl (err 1051 "42S02" "Unknown table"), w)
      end
  end.

(** [DELETE FROM t]: the rows go, the counter stays. *)
Definition delete_from (t : string) (w : Server) : (exn + bool) * Server :=
  match table_named t w with
  | inl e => (inl e, w)
  | inr (db, tb) =>
      (inr false,
       set_databases false
         (<[db := Some (mkTable [] (t_auto tb))]> (databases w)) w)
  end.

(** What is bound to the placeholder that stands for column [c]: [None]
    when the statement does not list the column. *)
Definition bound (c : string) (cols : list string) (ps : gmap nat Param)
    : option (option Param) :=
  (λ ix, ps !! S ix.1) <$> list_find (λ x, fold x = c) cols.

(** The checks of [name VARCHAR(100) NOT NULL] and of [age INT NULL], in
    strict SQL mode.  A text of more than 100 characters is refused,
    unless what exceeds them is spaces only, which are cut off. *)
Definition insert_name (p : option Param) : exn + string :=
  match p with
  | None => inl (invalid "Value not set for all parameters")
  | Some PNull => inl (err 1048 "23000" "Column 'name' cannot be null")
  | Some (PInt z) => inr (pretty z)
  | Some (PString s) =>
      if spaces_only (drop_chars 100 s) then inr (take_chars 100 s)
      else inl (err 1406 "22001" "Data too long for column 'name'")
  end.

Definition int_column (p : option Param) : exn + option Z :=
  match p with
  | None => inl (invalid "Value not set for all parameters")
  | Some PNull => inr None
  | Some (PInt z) =>
      if decide (is_int z) then inr (Some z)
      else inl (err 1264 "22003" "Out of range value for column 'age'")
  | Some (PString _) => inl unsupported
  end.

Definition set_last_insert_id (i : Z) (w : Server) : Server :=
  mkServer (connected w) (databases w) (committed w) (current w)
    (autocommit w) i.

(** The columns of an insert are known, listed once, as many as the
    values; the model takes no explicit [id]. *)
Definition check_insert (cols : list string) (values : nat) : option exn :=
  if negb (forallb known cols) then Some unknown_column
  else if negb (bool_decide (NoDup (fold <$> cols)))
       then Some (err 1110 "42000" "Column specified twice")
  else if negb (bool_decide (length cols = values))
       then Some (err 1136 "21S01" "Column count doesn't match value count")
  else if existsb (λ c, is_col c "id") cols then Some unsupported
  else None.

(** [INSERT INTO users (cols) VALUES (?, ..)].  The identifier is taken
    from the counter before the unique key is checked, so that a rejected
    insert leaves a gap.  A column not listed takes its default: none for
    [name], NULL for [age]. *)
Definition insert_row (cols : list string) (ps : gmap nat Param) (w : Server)
    : (exn + Z) * Server :=
  match users_table w with
  | inl e => (inl e, w)
  | inr (db, t) =>
      match bound "name" cols ps with
      | None =>
          (inl (err 1364 "HY000" "Field 'name' doesn't have a default value"),
           w)
      | Some pn =>
          match insert_name pn,
                int_column (default (Some PNull) (bound "age" cols ps)) with
          | inl e, _ | _, inl e => (inl e, w)
          | inr n, inr a =>
              let i := t_auto t in
              if decide (int_max < i) then
                (inl (err 1467 "HY000" "Failed to read auto-increment value"),
                 w)
              else if decide (fold n ∈ keys (t_rows t)) then
                (inl (err 1062 "23000"
                        "Duplicate entry for key 'users.uq_users_name'"),
                 set_databases false
                   (<[db := Some (mkTable (t_rows t) (i + 1))]> (databases w))
                   w)
              else
                (inr 1,
                 set_last_insert_id i
                   (set_databases false
                      (<[db := Some (mkTable (t_rows t ++ [mkRow i n a])
                                       (i + 1))]>
                         (databases w)) w))
          end
      end
  end.

(** [UPDATE users SET age = ? WHERE name = ?].  The connection is opened
    without the CLIENT_FOUND_ROWS flag: the count returned is that of the
    rows whose value changed. *)
Definition update_row (n : string) (a : option Z) (r : Row) : Row :=
  if decide (fold (r_name r) = fold n) then mkRow (r_id r) (r_name r) a else r.

Definition changed_by (n : string) (a : option Z) (r : Row) : Prop :=
  fold (r_name r) = fold n ∧ r_age r ≠ a.

#[global] Instance changed_by_dec n a r : Decision (changed_by n a r).
Proof. unfold changed_by. apply _. Defined.

Definition update_age (ps : gmap nat Param) (w : Server) : (exn + Z) * Server :=
  match users_table w, int_column (ps !! 1%nat), ps !! 2%nat with
  | inl e, _, _ | _, inl e, _ => (inl e, w)
  | _, _, None => (inl (invalid "Value not set for all parameters"), w)
  | _, _, Some (PInt _) => (inl unsupported, w)
  | inr _, inr _, Some PNull => (inr 0, w)
  | inr (db, t), inr a, Some (PString n) =>
      (inr (Z.of_nat (length (filter (changed_by n a) (t_rows t)))),
       set_databases false
         (<[db := Some (mkTable (update_row n a <$> t_rows t) (t_auto t))]>
            (databases w)) w)
  end.

(** The model updates the integer column [age] by the text column
    [name]. *)
Definition check_update (c k : string) : option exn :=
  if negb (known c && known k) then Some unknown_column
  else if is_col c "age" && is_col k "name" then None
  else Some unsupported.

(** [c >= ?] holds of no NULL. *)
Definition at_least (c : string) (m : Z) (r : Row) : Prop :=
  match int_key c r with
  | Some (Some v) => m ≤ v
  | _ => False
  end.

#[global] Instance at_least_dec c m r : Decision (at_least c m r).
Proof. unfold at_least. destruct (int_key c r) as [[v|]|]; apply _. Defined.

(** The order of one key: NULL comes before every integer. *)
Definition key_cmp (a b : option Z) : comparison :=
  match a, b with
  | None, None => Eq
  | None, Some _ => Lt
  | Some _, None => Gt
  | Some x, Some y => x ?= y
  end.

(** [ORDER BY]: by the first key, ties by the next; [DESC] reverses. *)
Fixpoint row_cmp (order : list (string * Dir)) (r1 r2 : Row) : comparison :=
  match order with
  | [] => Eq
  | (c, d) :: rest =>
      match key_cmp (default None (int_key c r1))
                    (default None (int_key c r2)) with
      | Eq => row_cmp rest r1 r2
      | x => match d with Asc => x | Desc => CompOpp x end
      end
  end.

Definition row_le (order : list (string * Dir)) (r1 r2 : Row) : Prop :=
  row_cmp order r1 r2 ≠ Gt.

#[global] Instance row_le_dec order r1 r2 : Decision (row_le order r1 r2).
Proof. unfold row_le. apply _. Defined.

(** The columns of a query are known; it filters and orders by integer
    columns. *)
Definition check_select (cols : list string) (wh : option string)
    (order : list (string * Dir)) : option exn :=
  if negb (forallb known cols) then Some unknown_column
  else if negb (forallb known (option_list wh ++ order.*1))
       then Some unknown_column
  else if existsb (λ c, is_col c "name") (option_list wh ++ order.*1)
       then Some unsupported
  else None.

Definition selected (cols : list string) (order : list (string * Dir))
    (rows : list Row) : QueryResult :=
  mkQR cols ((λ r, (λ c, field c r) <$> cols) <$> merge_sort (row_le order) rows).

(** [SELECT cols FROM users WHERE c >= ? ORDER BY ..] *)
Definition select_rows (cols : list string) (wh : option string)
    (order : list (string * Dir)) (ps : gmap nat Param) (w : Server)
    : (exn + QueryResult) * Server :=
  match users_table w with
  | inl e => (inl e, w)
  | inr (_, t) =>
      match wh with
      | None => (inr (selected cols order (t_rows t)), w)
      | Some c =>
          match ps !! 1%nat with
          | None => (inl (invalid "Value not set for all parameters"), w)
          | Some (PString _) => (inl unsupported, w)
          | Some PNull => (inr (selected cols order []), w)
          | Some (PInt m) =>
              (inr (selected cols order (filter (at_least c m) (t_rows t))), w)
          end
      end
  end.

(** [SELECT LAST_INSERT_ID()] *)
Definition select_last_insert_id (w : Server) : (exn + QueryResult) * Server :=
  (inr (mkQR ["LAST_INSERT_ID()"] [[CInt (last_insert_id w)]]), w).

(** ** The session *)

(** A statement the server compiles: a data statement on a table that
    exists, with columns the table has. *)
Definition check (s : Stmt) (w : Server) : option exn :=
  match s with
  | InsertInto t cols values =>
      match table_named t w with
      | inl e => Some e
      | inr _ => check_insert cols values
      end
  | UpdateSet t c k =>
      match table_named t w with
      | inl e => Some e
      | inr _ => check_update c k
      end
  | SelectFrom cols t wh order =>
      match table_named t w with
      | inl e => Some e
      | inr _ => check_select cols wh order
      end
  | _ => Some unsupported
  end.

(** [stmt->execute(sql)]: a statement without placeholder. *)
Definition exec_text (sql : string) (w : Server) : (exn + bool) * Server :=
  match statement sql with
  | None => (inl syntax_error, w)
  | Some (CreateDatabase ine n) => create_database ine n w
  | Some (CreateTable ine d) => create_table ine d w
  | Some (DropTable ie t) => drop_table ie t w
  | Some (DeleteFrom t) => delete_from t w
  | Some _ => (inl unsupported, w)
  end.

(** [stmt->executeQuery(sql)] *)
Definition query_text (sql : string) (w : Server)
    : (exn + QueryResult) * Server :=
  match statement sql with
  | None => (inl syntax_error, w)
  | Some SelectLastInsertId => select_last_insert_id w
  | Some (SelectFrom cols t None order as s) =>
      match check s w with
      | Some e => (inl e, w)
      | None => select_rows cols None order ∅ w
      end
  | Some _ => (inl unsupported, w)
  end.

(** [con->prepareStatement(sql)] *)
Definition prepare (sql : string) (w : Server) : (exn + unit) * Server :=
  match statement sql with
  | None => (inl syntax_error, w)
  | Some s =>
      match check s w with
      | Some e => (inl e, w)
      | None => (inr tt, w)
      end
  end.

(** [ps->executeUpdate()] *)
Definition execute_update (ps : PreparedStatement) (w : Server)
    : (exn + Z) * Server :=
  match statement (ps_sql ps) with
  | None => (inl syntax_error, w)
  | Some s =>
      match check s w, s with
      | Some e, _ => (inl e, w)
      | None, InsertInto _ cols _ => insert_row cols (ps_params ps) w
      | None, UpdateSet _ _ _ => update_age (ps_params ps) w
      | None, _ => (inl unsupported, w)
      end
  end.

(** [ps->executeQuery()] *)
Definition execute_query (ps : PreparedStatement) (w : Server)
    : (exn + QueryResult) * Server :=
  match statement (ps_sql ps) with
  | None => (inl syntax_error, w)
  | Some s =>
      match check s w, s with
      | Some e, _ => (inl e, w)
      | None, SelectFrom cols _ wh order =>
          select_rows cols wh order (ps_params ps) w
      | None, _ => (inl unsupported, w)
      end
  end.

Definition select_schema (n : string) (w : Server) : (exn + unit) * Server :=
  match databases w !! n with
  | None => (inl (err 1049 "42000" "Unknown database"), w)
  | Some _ =>
      (inr tt, mkServer (connected w) (databases w) (committed w) (Some n)
                 (autocommit w) (last_insert_id w))
  end.

(** Switching autocommit on commits what is pending. *)
Definition set_autocommit (b : bool) (w : Server) : (exn + unit) * Server :=
  (inr tt, mkServer (connected w) (databases w)
             (if b then databases w else committed w)
             (current w) b (last_insert_id w)).

Definition do_commit (w : Server) : (exn + unit) * Server :=
  (inr tt, mkServer (connected w) (databases w) (databases w) (current w)
             (autocommit w) (last_insert_id w)).

Definition do_rollback (w : Server) : (exn + unit) * Server :=
  (inr tt, mkServer (connected w) (rolled_back w) (committed w) (current w)
             (autocommit w) (last_insert_id w)).

(** A new session: no schema selected, autocommit on; work a previous
    session left uncommitted is gone. *)
Definition connect (w : Server) : (exn + unit) * Server :=
  (inr tt, mkServer true (rolled_back w) (committed w) None true 0).

Definition server : handler Server := λ X c w,
  match c in Call X return (exn + X) * Server with
  | Connect _ _ _ => connect w
  | c' =>
      if connected w then
        match c' in Call X return (exn + X) * Server with
        | Connect _ _ _ => connect w
        | CreateStatement => (inr tt, w)
        | Execute sql => exec_text sql w
        | ExecuteQuery sql => query_text sql w
        | SetSchema n => select_schema n w
        | PrepareStatement sql => prepare sql w
        | PsExecuteUpdate ps => execute_update ps w
        | PsExecuteQuery ps => execute_query ps w
        | SetAutoCommit b => set_autocommit b w
        | Commit => do_commit w
        | Rollback => do_rollback w
        end
      else (inl gone_away, w)
  end.

(** A server with no database and no session. *)
Definition fresh : Server := mkServer false ∅ ∅ None true 0.

End MySQL.

(* ===================================================================== *)
(** * Vocabulary of the properties                                       *)
(* ===================================================================== *)

Module Props.
Import Cpp Sql MySQL.

(** [raises P p]: every exception the program [p] can end with satisfies
    [P], provided the exceptions thrown by the calls it makes do. *)
Inductive raises (P : exn → Prop) {A} : prog A → Prop :=
| raises_Ret a : raises P (Ret a)
| raises_Raise e : P e → raises P (Raise e)
| raises_Do X (c : Call X) k :
    (∀ r, (∀ e, r = inl e → P e) → raises P (k r)) → raises P (Do c k)
| raises_Print s text k : raises P k → raises P (Print s text k).

(** What the [catch] block of the coordinator writes after its rollback
    attempt, given the outcome of that attempt. *)
Definition rollback_report (rr : exn + unit) : string :=
  match rr with
  | inr _ => "Transaction rolled back." +:+ nl
  | inl (Sql e2) => sql_error_line e2 "rollback"
  | inl _ => ""
  end.

(** The calls of a trace, each with the exception it threw, if any. *)
Fixpoint outcomes (t : list event) : list (anycall * option exn) :=
  match t with
  | [] => []
  | EvCall c r :: t' =>
      (Any c, match r with inl e => Some e | inr _ => None end) :: outcomes t'
  | EvPrint _ _ :: t' => outcomes t'
  end.

(** The calls that leave the autocommit mode of a session as it is: all
    but [setAutoCommit] and [connect], which opens a session. *)
Definition keeps_mode {X} (c : Call X) : bool :=
  match c with
  | SetAutoCommit _ | Connect _ _ _ => false
  | _ => true
  end.

(** [mode] reads the autocommit mode off the state of the connection
    [h]: a [setAutoCommit(b)] that returns leaves the mode [b], one that
    throws leaves the mode as it was, and so does every call of
    [keeps_mode]. *)
Definition tracks_autocommit {W} (h : handler W) (mode : W → bool) : Prop :=
  (∀ b w w', h _ (SetAutoCommit b) w = (inr tt, w') → mode w' = b)
  ∧ (∀ b w x w', h _ (SetAutoCommit b) w = (inl x, w') → mode w' = mode w)
  ∧ (∀ X (c : Call X) w, keeps_mode c = true → mode (h X c w).2 = mode w).

(** The mode that an event sets: a [setAutoCommit(b)] that returned
    sets [b]. *)
Definition sets_mode (ev : event) : option bool :=
  match ev with
  | EvCall c (inr _) =>
      match c with
      | SetAutoCommit b => Some b
      | _ => None
      end
  | _ => None
  end.

(** The autocommit mode of a session after the events [t], when it was
    [b] before them: the mode of the last [setAutoCommit] that
    returned. *)
Definition mode_after (b : bool) (t : list event) : bool :=
  foldl (λ m ev, default m (sets_mode ev)) b t.

(** The calls made on a session, once it is open. *)
Definition on_session (X : Type) (c : Call X) : Prop :=
  match c with
  | Connect _ _ _ => False
  | _ => True
  end.

(** [propagates p]: [p] has no handler and no [throw] of its own: it
    ends with an exception exactly where a call throws, with that
    exception. *)
Inductive propagates {A} : prog A → Prop :=
| propagates_Ret a : propagates (Ret a)
| propagates_Do X (c : Call X) k :
    (∀ e, k (inl e) = Raise e) → (∀ x, propagates (k (inr x))) →
    propagates (Do c k)
| propagates_Print s text k : propagates k → propagates (Print s text k).

(** A statement of the server answers with a value or with a database
    error, and leaves the connection and its autocommit mode as they
    are. *)
Definition tame {A} (f : Server → (exn + A) * Server) : Prop :=
  ∀ w, (∀ e, (f w).1 = inl e → is_sql e = true)
       ∧ connected (f w).2 = connected w
       ∧ autocommit (f w).2 = autocommit w.

(** The server once [main] has connected and bootstrapped the schema. *)
Definition ready : Server :=
  mkServer true {["testdb" := Some (mkTable [] 1)]}
    {["testdb" := Some (mkTable [] 1)]} (Some "testdb") true 0.

(** The server as a complete run of [main] leaves it. *)
Definition demo_rows : list Row :=
  [mkRow 1 "carol" (Some 32); mkRow 2 "alice" (Some 25); mkRow 3 "bob" (Some 31)].

Definition populated : Server :=
  mkServer true {["testdb" := Some (mkTable demo_rows 4)]}
    {["testdb" := Some (mkTable demo_rows 4)]} (Some "testdb") true 3.

(** A connection on which the call number [n] (from 0) throws [e] and
    every other call goes to [h]. *)
Definition failing {W} (h : handler W) (e : exn) : handler (option nat * W) :=
  λ X c '(n, w),
    match n with
    | Some O => (inl e, (None, w))
    | Some (S n') => let '(r, w') := h X c w in (r, (Some n', w'))
    | None => let '(r, w') := h X c w in (r, (None, w'))
    end.

(** ** Names, columns and order *)

(** A name made of ASCII letters, digits and underscores.  On such names
    the collation of the table is the folding of case, and the characters
    are the bytes. *)
Fixpoint plain (s : string) : bool :=
  match s with
  | "" => true
  | String c rest => is_word_char c && plain rest
  end.

Definition plain_rows (rows : list Row) : Prop :=
  Forall (λ r, plain (r_name r) = true) rows.

(** No row has the name [n], the case of letters ignored. *)
Definition unused (n : string) (rows : list Row) : Prop :=
  fold n ∉ keys rows.

(** A row has the name [n], the case of letters ignored. *)
Definition taken (n : string) (rows : list Row) : Prop :=
  fold n ∈ keys rows.

#[global] Instance taken_dec n rows : Decision (taken n rows).
Proof. unfold taken. apply _. Defined.

(** The names of records as the unique key compares them. *)
Definition names_of (users : list User) : list string :=
  (λ u, fold (name u)) <$> users.

Definition plain_users (users : list User) : Prop :=
  Forall (λ u, plain (name u) = true) users.

(** The columns the queries of the program select, and a row as they
    send it. *)
Definition users_columns : list string := ["id"; "name"; "age"].

Definition row_cells (r : Row) : list Cell :=
  [CInt (r_id r); CString (r_name r);
   match r_age r with None => CNull | Some a => CInt a end].

(** The rows with an age, of at least [m]. *)
Definition age_at_least (m : Z) (r : Row) : Prop :=
  match r_age r with None => False | Some a => m ≤ a end.

#[global] Instance age_at_least_dec m r : Decision (age_at_least m r).
Proof. unfold age_at_least. destruct (r_age r); apply _. Defined.

(** Age descending with the rows without age last, then identifier
    ascending. *)
Definition age_below (a b : option Z) : Prop :=
  match a, b with
  | None, Some _ => True
  | Some x, Some y => x < y
  | _, None => False
  end.

Definition by_age_desc_id_asc (r1 r2 : Row) : Prop :=
  age_below (r_age r2) (r_age r1) ∨ (r_age r1 = r_age r2 ∧ r_id r1 ≤ r_id r2).

Definition by_id (r1 r2 : Row) : Prop := r_id r1 ≤ r_id r2.

(** ** The statements as the command layer binds them *)

(** The placeholder value for an age: absent when the age is 0. *)
Definition age_param (a : Z) : Param :=
  if bool_decide (a = 0) then PNull else PInt a.

(** The stored form of the age a record carries. *)
Definition stored_age (a : Z) : option Z :=
  if bool_decide (a = 0) then None else Some a.

Definition insert_statement (u : User) : PreparedStatement :=
  mkPS insert_sql {[1%nat := PString (name u); 2%nat := age_param (age u)]}.

Definition update_statement (n : string) (a : Z) : PreparedStatement :=
  mkPS update_sql {[1%nat := PInt a; 2%nat := PString n]}.

Definition select_statement (m : Z) : PreparedStatement :=
  mkPS select_sql {[1%nat := PInt m]}.

(** The placeholders of [ps] other than 1 and 2 are unbound. *)
Definition two_placeholders (ps : PreparedStatement) : Prop :=
  ∀ i, i ≠ 1%nat → i ≠ 2%nat → ps_params ps !! i = None.

(** The calls of a complete [insertUsersBulk]: one prepare, then one
    execution per record, in the order of the records. *)
Definition insertUsersBulk_calls (users : list User) : list anycall :=
  Any (PrepareStatement insert_sql)
  :: ((λ u, Any (PsExecuteUpdate (insert_statement u))) <$> users).

Definition updateUserAgeByName_calls (n : string) (a : Z) : list anycall :=
  [Any (PrepareStatement update_sql); Any (PsExecuteUpdate (update_statement n a))].

Definition transaction_control (c : anycall) : bool :=
  match c with
  | Any (SetAutoCommit _) | Any Commit | Any Rollback => true
  | _ => false
  end.

(** What [insertUser] makes of the answer to its follow-up read. *)
Definition read_generated_id (q : QueryResult) : exn + Z :=
  match qr_rows q with
  | [] => inr 0
  | [] :: _ => inl (invalid "invalid column")
  | (x :: _) :: _ => inr (cell_int x)
  end.

Definition insertUser_trace (u : User) (n : Z) (q : QueryResult) : list event :=
  [EvCall (PrepareStatement insert_sql) (inr tt);
   EvCall (PsExecuteUpdate (insert_statement u)) (inr n);
   EvCall CreateStatement (inr tt);
   EvCall (ExecuteQuery "SELECT LAST_INSERT_ID()") (inr q)].

(** ** The table after a statement *)

Definition new_row (t : Table) (u : User) : Row :=
  mkRow (t_auto t) (name u) (stored_age (age u)).

Definition new_table (t : Table) (u : User) : Table :=
  mkTable (t_rows t ++ [new_row t u]) (t_auto t + 1).

Definition inserted (u : User) (db : string) (t : Table) (w : Server) : Server :=
  set_last_insert_id (t_auto t)
    (set_databases false (<[db := Some (new_table t u)]> (databases w)) w).

Definition updated_table (n : string) (a : Z) (t : Table) : Table :=
  mkTable (update_row n (Some a) <$> t_rows t) (t_auto t).

Definition updated (n : string) (a : Z) (db : string) (t : Table) (w : Server)
    : Server :=
  set_databases false (<[db := Some (updated_table n a t)]> (databases w)) w.

(** The rows of a table carry identifiers below the counter and ages of
    the column type INT; the counter is at most one past the largest
    INT. *)
Definition wf_row (auto : Z) (r : Row) : Prop :=
  1 ≤ r_id r < auto ∧ from_option is_int True (r_age r).

Definition wf_table (t : Table) : Prop :=
  1 ≤ t_auto t ≤ int_max + 1 ∧ Forall (wf_row (t_auto t)) (t_rows t).

(** ** Reading users *)

(** The [User] that [getUsersByMinAge] builds from a fetched row. *)
Definition surfaced (r : Row) : User :=
  mkUser (to_int (r_id r)) (r_name r)
    (match r_age r with None => 0 | Some a => to_int a end).

(** Age descending, then identifier ascending. *)
Definition older_first (u1 u2 : User) : Prop :=
  age u2 < age u1 ∨ (age u1 = age u2 ∧ id u1 ≤ id u2).

(** ** The schema bootstrapper *)

Fixpoint has_backtick (s : string) : bool :=
  match s with
  | "" => false
  | String c rest => bool_decide (c = backtick) || has_backtick rest
  end.

(** A schema name that reads back as itself between back quotes and that
    the server takes as a database name. *)
Definition valid_schema_name (n : string) : Prop :=
  has_backtick n = false ∧ check_database_name n = None.

(** What [CREATE TABLE IF NOT EXISTS] does with the definition that the
    model stores. *)
Definition create_users (w : Server) : (exn + bool) * Server :=
  match current w with
  | None => (inl no_database, w)
  | Some db =>
      match databases w !! db with
      | Some (Some _) => (inr false, set_databases true (databases w) w)
      | _ =>
          (inr false,
           set_databases true (<[db := Some (mkTable [] 1)]> (databases w)) w)
      end
  end.

(** The server after [ensureSchemaAndTables n]. *)
Definition bootstrapped (n : string) (w : Server) : Server :=
  let dbs := match databases w !! n with
             | Some (Some _) => databases w
             | _ => <[n := Some (mkTable [] 1)]> (databases w)
             end in
  mkServer true dbs dbs (Some n) (autocommit w) (last_insert_id w).

Definition ensureSchemaAndTables_trace (n : string) : list event :=
  [EvCall CreateStatement (inr tt);
   EvCall (Execute (create_database_sql n)) (inr false);
   EvCall (SetSchema n) (inr tt);
   EvCall (Execute create_users_sql) (inr false)].

(** [only_calls Q p]: every call the program [p] can make satisfies [Q]. *)
Inductive only_calls (Q : ∀ X, Call X → Prop) {A} : prog A → Prop :=
| only_Ret a : only_calls Q (Ret a)
| only_Raise e : only_calls Q (Raise e)
| only_Do X (c : Call X) k :
    Q X c → (∀ r, only_calls Q (k r)) → only_calls Q (Do c k)
| only_Print s text k : only_calls Q k → only_calls Q (Print s text k).

(** The calls of the bootstrapper. *)
Definition bootstrap_call (X : Type) (c : Call X) : Prop :=
  match c with
  | CreateStatement | SetSchema _ => True
  | Execute sql => sql = create_users_sql ∨ ∃ n, sql = create_database_sql n
  | _ => False
  end.

(** ** The driver *)

(** A database error, for the examples. *)
Definition access_denied : exn :=
  Sql (mkSQLException "Access denied for user" 1045 "28000").

Definition std_error_line (msg : string) : string :=
  "[STD ERROR] " +:+ msg +:+ nl.

(** The outcome of [main] as determined by the outcome of its [try]
    block. *)
Definition main_outcome {W} (body : (exn + unit) * W * list event)
    : (exn + Z) * W * list event :=
  let '(r, w, t) := body in
  match r with
  | inr _ => (inr 0, w, t)
  | inl (Sql e) => (inr 1, w, t ++ [EvPrint Cerr (sql_error_line e "main")])
  | inl (Std msg) => (inr 1, w, t ++ [EvPrint Cerr (std_error_line msg)])
  | inl Foreign => (inl Foreign, w, t)
  end.

(** ** Vocabulary of the further properties *)

(** The exception a trace event carries, when it is a call that threw. *)
Definition thrown_by (ev : event) : option exn :=
  match ev with
  | EvCall c (inl e) => Some e
  | _ => None
  end.

(** [fails_fast p]: [p] has no handler of its own: where a call throws,
    [p] ends with that exception. *)
Inductive fails_fast {A} : prog A → Prop :=
| fails_fast_Ret a : fails_fast (Ret a)
| fails_fast_Raise e : fails_fast (Raise e)
| fails_fast_Do X (c : Call X) k :
    (∀ e, k (inl e) = Raise e) → (∀ x, fails_fast (k (inr x))) →
    fails_fast (Do c k)
| fails_fast_Print s text k : fails_fast k → fails_fast (Print s text k).

(** Running [p] on [h]: a call that throws is the last thing that happens
    and what it threw is what [p] ends with. *)
Definition ends_at_first_throw {W A} (h : handler W) (p : prog A) : Prop :=
  ∀ w t1 ev t2 e,
    (run h p w).2 = t1 ++ ev :: t2 → thrown_by ev = Some e →
    t2 = [] ∧ (run h p w).1.1 = inl e.

(** [silent p]: [p] writes to no stream. *)
Inductive silent {A} : prog A → Prop :=
| silent_Ret a : silent (Ret a)
| silent_Raise e : silent (Raise e)
| silent_Do X (c : Call X) k : (∀ r, silent (k r)) → silent (Do c k).

(** The records and the calls of a [demoTransaction] that commits. *)
Definition demo_users : list User := [mkUser 0 "alice" 24; mkUser 0 "bob" 29].

Definition demoTransaction_calls : list anycall :=
  Any (SetAutoCommit false)
  :: insertUsersBulk_calls demo_users
  ++ updateUserAgeByName_calls "alice" 25
  ++ [Any Commit; Any (SetAutoCommit true)].

(** An exception that derives from [std::exception]. *)
Definition standard (e : exn) : Prop := e ≠ Foreign.

(** ** The table under several statements *)

(** The answer to an insert whose name the unique key [uq_users_name]
    already holds. *)
Definition duplicate_name : SQLException :=
  mkSQLException "Duplicate entry for key 'users.uq_users_name'" 1062 "23000".

(** The server after such an insert: no row, one identifier used up. *)
Definition rejected (db : string) (t : Table) (w : Server) : Server :=
  set_databases false
    (<[db := Some (mkTable (t_rows t) (t_auto t + 1))]> (databases w)) w.

(** A record the columns [name VARCHAR(100)] and [age INT] take. *)
Definition storable (u : User) : Prop :=
  (char_length (name u) ≤ 100)%nat ∧ is_int (age u).

(** The rows that inserting [users] in order adds when the counter is at
    [auto]. *)
Fixpoint bulk_rows (auto : Z) (users : list User) : list Row :=
  match users with
  | [] => []
  | u :: rest =>
      mkRow auto (name u) (stored_age (age u)) :: bulk_rows (auto + 1) rest
  end.

Definition bulk_table (t : Table) (users : list User) : Table :=
  mkTable (t_rows t ++ bulk_rows (t_auto t) users)
    (t_auto t + Z.of_nat (length users)).

(** The table a [demoTransaction] that commits leaves. *)
Definition committed_demo (t : Table) : Table :=
  mkTable (t_rows t ++ [mkRow (t_auto t) "alice" (Some 25);
                        mkRow (t_auto t + 1) "bob" (Some 29)])
    (t_auto t + 2).

(** The next identifier of the [users] table of the configured schema,
    1 when there is no such table yet. *)
Definition next_id (w : Server) : Z :=
  match databases w !! schema cfg with
  | Some (Some t) => t_auto t
  | _ => 1
  end.

(** The table a complete run of [main] leaves when the counter was at
    [a]. *)
Definition demo_table (a : Z) : Table :=
  mkTable [mkRow a "carol" (Some 32); mkRow (a + 1) "alice" (Some 25);
           mkRow (a + 2) "bob" (Some 31)] (a + 3).

(** The session after statements that leave it as it is: same connection,
    same schema, same mode, and outside autocommit mode nothing newly
    committed. *)
Definition session_kept (w w' : Server) : Prop :=
  connected w' = connected w ∧ current w' = current w
  ∧ autocommit w' = autocommit w
  ∧ (autocommit w = false → committed w' = committed w).

(** ** What [main] writes for its lists *)

(** The line of step 7 for one user. *)
Definition user_line (u : User) : string :=
  setw_left 5 (pretty (id u)) +:+ setw_left 12 (name u)
  +:+ pretty (if bool_decide (age u = 0) then -1 else age u) +:+ nl.

(** What step 9 writes for one row. *)
Definition row_events (r : Row) : list event :=
  [EvPrint Cout "ID="; EvPrint Cout (pretty (to_int (r_id r)));
   EvPrint Cout " | name="; EvPrint Cout (r_name r);
   EvPrint Cout " | age=";
   EvPrint Cout (pretty (match r_age r with
                         | None => -1
                         | Some a => to_int a
                         end));
   EvPrint Cout nl].

(** ** The statements the command layer sends *)

(** The three statement texts of the command layer, each with [?]
    placeholders only. *)
Definition fixed_texts : list string := [insert_sql; update_sql; select_sql].

(** A call that sends one of those texts, with whatever is bound to its
    placeholders, or reads the last generated identifier. *)
Definition parameterized (X : Type) (c : Call X) : Prop :=
  match c with
  | PrepareStatement sql => sql ∈ fixed_texts
  | PsExecuteUpdate ps | PsExecuteQuery ps => ps_sql ps ∈ fixed_texts
  | CreateStatement => True
  | ExecuteQuery sql => sql = "SELECT LAST_INSERT_ID()"
  | _ => False
  end.

Definition sent (Q : ∀ X, Call X → Prop) (c : anycall) : Prop :=
  match c with Any c => Q _ c end.

End Props.

(* ===================================================================== *)
(** * Running programs: the laws of [run]                                *)
(* ===================================================================== *)

Module RunFacts.
Import Cpp.

Section WithHandler.
Context {W : Type} (h : handler W).

Lemma run_bind {A B} (p : prog A) (f : A → prog B) (w : W) :
  run h (p ≫= f) w =
    let '(r, w1, t1) := run h p w in
    match r with
    | inl e => (inl e, w1, t1)
    | inr a => let '(r2, w2, t2) := run h (f a) w1 in (r2, w2, t1 ++ t2)
    end.
Proof.
  unfold mbind, prog_bind. revert w.
  induction p as [a|e|X c k IH|s text k IH]; intros w; simpl.
  - by destruct (run h (f a) w) as [[? ?] ?].
  - done.
  - destruct (h X c w) as [r w1]. rewrite IH.
    destruct (run h (k r) w1) as [[[e|a] w2] t]; [done|].
    by destruct (run h (f a) w2) as [[? ?] ?].
  - rewrite IH.
    destruct (run h k w) as [[[e|a] w2] t]; [done|].
    by destruct (run h (f a) w2) as [[? ?] ?].
Qed.

Lemma run_call {X} (c : Call X) (w : W) :
  run h (call c) w = ((h X c w).1, (h X c w).2, [EvCall c (h X c w).1]).
Proof. simpl. by destruct (h X c w) as [[e|x] w1]. Qed.

Lemma run_call_eq {X} (c : Call X) (w : W) r w1 :
  h X c w = (r, w1) → run h (call c) w = (r, w1, [EvCall c r]).
Proof. intros E. by rewrite run_call, E. Qed.

Lemma run_try_catch_sql {A} (p : prog A) (hd : SQLException → prog A) (w : W) :
  run h (try_catch_sql p hd) w =
    let '(r, w1, t1) := run h p w in
    match r with
    | inl (Sql e) => let '(r2, w2, t2) := run h (hd e) w1 in (r2, w2, t1 ++ t2)
    | _ => (r, w1, t1)
    end.
Proof.
  revert w. induction p as [a|e|X c k IH|s text k IH]; intros w; simpl.
  - done.
  - destruct e; [|done..]. by destruct (run h (hd e) w) as [[? ?] ?].
  - destruct (h X c w) as [r w1]. rewrite IH.
    destruct (run h (k r) w1) as [[[[e| |]|a] w2] t]; [|done..].
    by destruct (run h (hd e) w2) as [[? ?] ?].
  - rewrite IH.
    destruct (run h k w) as [[[[e| |]|a] w2] t]; [|done..].
    by destruct (run h (hd e) w2) as [[? ?] ?].
Qed.

Lemma run_try_catch_all {A} (p hd : prog A) (w : W) :
  run h (try_catch_all p hd) w =
    let '(r, w1, t1) := run h p w in
    match r with
    | inl _ => let '(r2, w2, t2) := run h hd w1 in (r2, w2, t1 ++ t2)
    | inr a => (inr a, w1, t1)
    end.
Proof.
  revert w. induction p as [a|e|X c k IH|s text k IH]; intros w; simpl.
  - done.
  - by destruct (run h hd w) as [[? ?] ?].
  - destruct (h X c w) as [r w1]. rewrite IH.
    destruct (run h (k r) w1) as [[[e|a] w2] t]; [|done].
    by destruct (run h hd w2) as [[? ?] ?].
  - rewrite IH.
    destruct (run h k w) as [[[e|a] w2] t]; [|done].
    by destruct (run h hd w2) as [[? ?] ?].
Qed.

Lemma run_try_catch_sql_std {A} (p : prog A)
    (h1 : SQLException → prog A) (h2 : string → prog A) (w : W) :
  run h (try_catch_sql_std p h1 h2) w =
    let '(r, w1, t1) := run h p w in
    match r with
    | inl (Sql e) => let '(r2, w2, t2) := run h (h1 e) w1 in (r2, w2, t1 ++ t2)
    | inl (Std m) => let '(r2, w2, t2) := run h (h2 m) w1 in (r2, w2, t1 ++ t2)
    | _ => (r, w1, t1)
    end.
Proof.
  revert w. induction p as [a|e|X c k IH|s text k IH]; intros w; simpl.
  - done.
  - destruct e as [e|m|]; [| |done].
    + by destruct (run h (h1 e) w) as [[? ?] ?].
    + by destruct (run h (h2 m) w) as [[? ?] ?].
  - destruct (h X c w) as [r w1]. rewrite IH.
    destruct (run h (k r) w1) as [[[[e|m|]|a] w2] t]; [| |done..].
    + by destruct (run h (h1 e) w2) as [[? ?] ?].
    + by destruct (run h (h2 m) w2) as [[? ?] ?].
  - rewrite IH.
    destruct (run h k w) as [[[[e|m|]|a] w2] t]; [| |done..].
    + by destruct (run h (h1 e) w2) as [[? ?] ?].
    + by destruct (run h (h2 m) w2) as [[? ?] ?].
Qed.

Lemma calls_app (t1 t2 : list event) : calls (t1 ++ t2) = calls t1 ++ calls t2.
Proof.
  induction t1 as [|[X c r|s text] t1 IH]; simpl; [done| |done].
  by rewrite IH.
Qed.

Lemma append_assoc (a b c : string) : (a +:+ b) +:+ c = a +:+ (b +:+ c).
Proof.
  induction a as [|x a IH]; [done|].
  change (String x ((a +:+ b) +:+ c) = String x (a +:+ (b +:+ c))).
  by rewrite IH.
Qed.

Lemma written_app (s : Stream) (t1 t2 : list event) :
  written s (t1 ++ t2) = written s t1 +:+ written s t2.
Proof.
  induction t1 as [|[X c r|s' text] t1 IH]; [done..|].
  change (written s ((EvPrint s' text :: t1) ++ t2))
    with (written s (EvPrint s' text :: (t1 ++ t2))).
  destruct s, s'; cbn [written]; rewrite IH; by rewrite ?append_assoc.
Qed.

End WithHandler.
End RunFacts.

(* ===================================================================== *)
(** * Which exceptions a program can end with                            *)
(* ===================================================================== *)

Module RaisesFacts.
Import Cpp Sql Props.

Lemma raises_bind P {A B} (p : prog A) (f : A → prog B) :
  raises P p → (∀ a, raises P (f a)) → raises P (p ≫= f).
Proof.
  intros Hp Hf. unfold mbind, prog_bind.
  induction Hp; simpl; [auto|by constructor|constructor; auto|constructor; auto].
Qed.

Lemma raises_call P {X} (c : Call X) : raises P (call c).
Proof. constructor. intros [e|x] He; constructor. by apply He. Qed.

Lemma raises_lift P {A} (r : exn + A) :
  (∀ e, r = inl e → P e) → raises P (lift r).
Proof. destruct r; constructor; auto. Qed.

Section Running.
Context {W : Type} (h : handler W) (live : W → Prop) (P : exn → Prop).
Hypothesis live_step : ∀ X (c : Call X) w, live w → live (h X c w).2.
Hypothesis thrown : ∀ X (c : Call X) w e w',
  live w → h X c w = (inl e, w') → P e.

Lemma live_run {A} (p : prog A) w : live w → live (run h p w).1.2.
Proof.
  revert w. induction p as [a|e|X c k IH|s text k IH]; intros w Hw; simpl;
    try done.
  - pose proof (live_step X c w Hw) as Hl.
    destruct (h X c w) as [r w1]. simpl in Hl.
    specialize (IH r w1 Hl). by destruct (run h (k r) w1) as [[? ?] ?].
  - specialize (IH w Hw). by destruct (run h k w) as [[? ?] ?].
Qed.

Lemma raises_run {A} (p : prog A) w e w' t :
  raises P p → live w → run h p w = (inl e, w', t) → P e.
Proof.
  intros Hp. revert w t.
  induction Hp as [a|e0 He0|X c k Hk IH|s text k Hk IH]; intros w t Hw; simpl.
  - done.
  - by intros [= <- _ _].
  - pose proof (live_step X c w Hw) as Hl.
    destruct (h X c w) as [r w1] eqn:Hc. simpl in Hl.
    destruct (run h (k r) w1) as [[r' w2] t'] eqn:Hr. intros [= -> -> <-].
    eapply (IH r); [|done..]. intros e0 ->. eauto.
  - destruct (run h k w) as [[r' w2] t'] eqn:Hr. intros [= -> -> <-]. eauto.
Qed.
End Running.

(** The command layer catches nothing and throws nothing of its own. *)
Lemma raises_insert_each P ps users : raises P (insert_each ps users).
Proof.
  revert ps. induction users as [|u users IH]; intros ps; cbn [insert_each];
    [constructor|].
  apply raises_bind; [apply raises_call|auto].
Qed.

Lemma raises_insertUsersBulk P users : raises P (insertUsersBulk users).
Proof.
  apply raises_bind; [|intros; apply raises_insert_each].
  apply raises_bind; [apply raises_call|constructor].
Qed.

Lemma raises_updateUserAgeByName P n a : raises P (updateUserAgeByName n a).
Proof.
  apply raises_bind; [|intros; apply raises_call].
  apply raises_bind; [apply raises_call|constructor].
Qed.

Lemma raises_demoTransaction_body P : raises P demoTransaction_body.
Proof.
  unfold demoTransaction_body.
  repeat first [apply raises_bind; [|intros] | apply raises_call
               | apply raises_insertUsersBulk | apply raises_updateUserAgeByName
               | by repeat constructor].
Qed.

End RaisesFacts.

(* ===================================================================== *)
(** * Which calls a program makes, and where it stops                    *)
(* ===================================================================== *)

Module CallFacts.
Import Cpp Sql Props RunFacts.

Lemma only_calls_bind Q {A B} (p : prog A) (f : A → prog B) :
  only_calls Q p → (∀ a, only_calls Q (f a)) → only_calls Q (p ≫= f).
Proof.
  intros Hp Hf. unfold mbind, prog_bind.
  induction Hp; simpl; [auto|constructor|constructor; auto|constructor; auto].
Qed.

Lemma only_calls_call (Q : ∀ X, Call X → Prop) {X} (c : Call X) :
  Q X c → only_calls Q (call c).
Proof. intros Hc. constructor; [done|]. intros [e|x]; constructor. Qed.

Lemma only_calls_run {W A} (h : handler W) (Q : ∀ X, Call X → Prop)
    (P : W → Prop) (p : prog A) w :
  (∀ X (c : Call X) w0, Q X c → P w0 → P (h X c w0).2) →
  only_calls Q p → P w → P (run h p w).1.2.
Proof.
  intros Hstep Hp. revert w.
  induction Hp as [a|e|X c k Hc Hk IH|s text k Hk IH]; intros w Hw; simpl;
    try done.
  - pose proof (Hstep X c w Hc Hw) as Hw1.
    destruct (h X c w) as [r w1]. simpl in Hw1.
    specialize (IH r w1 Hw1). by destruct (run h (k r) w1) as [[? ?] ?].
  - specialize (IH w Hw). by destruct (run h k w) as [[? ?] ?].
Qed.

Lemma only_calls_impl (Q1 Q2 : ∀ X, Call X → Prop) {A} (p : prog A) :
  (∀ X (c : Call X), Q1 X c → Q2 X c) → only_calls Q1 p → only_calls Q2 p.
Proof. intros HQ Hp. induction Hp; constructor; auto. Qed.

Lemma outcomes_app (t1 t2 : list event) :
  outcomes (t1 ++ t2) = outcomes t1 ++ outcomes t2.
Proof.
  induction t1 as [|[X c r|s text] t1 IH]; simpl; [done| |done].
  by rewrite IH.
Qed.

Lemma only_calls_try_catch_sql Q {A} (p : prog A) (hd : SQLException → prog A) :
  only_calls Q p → (∀ e, only_calls Q (hd e)) →
  only_calls Q (try_catch_sql p hd).
Proof.
  intros Hp Hh.
  induction Hp as [a|e|X c k Hc Hk IH|s text k Hk IH]; simpl.
  - constructor.
  - destruct e; [apply Hh|constructor..].
  - by constructor.
  - by constructor.
Qed.

(** ** The autocommit mode along a trace *)

Lemma mode_after_app b t1 t2 :
  mode_after b (t1 ++ t2) = mode_after (mode_after b t1) t2.
Proof. apply foldl_app. Qed.

Lemma mode_after_cons b ev t :
  mode_after b (ev :: t) = mode_after (default b (sets_mode ev)) t.
Proof. done. Qed.

Lemma sets_mode_keeps {X} (c : Call X) r :
  keeps_mode c = true → sets_mode (EvCall c r) = None.
Proof. destruct r; [done|]. by destruct c. Qed.

(** Calls that keep the mode leave it as it was. *)
Lemma mode_after_keeps {W A} (h : handler W) (p : prog A) w b :
  only_calls (λ X c, keeps_mode c = true) p →
  mode_after b (run h p w).2 = b.
Proof.
  intros Hp. revert w.
  induction Hp as [a|e|X c k Hc Hk IH|s text k Hk IH]; intros w; cbn [run];
    try done.
  - destruct (h X c w) as [r w1]. specialize (IH r w1).
    destruct (run h (k r) w1) as [[r2 w2] t]. cbn [fst snd] in *.
    by rewrite mode_after_cons, sets_mode_keeps.
  - specialize (IH w). by destruct (run h k w) as [[r2 w2] t].
Qed.

(** On a connection whose state carries the mode, the mode of the state
    after a run is the mode after its trace. *)
Lemma tracked_mode_run {W A} (h : handler W) (mode : W → bool) (p : prog A) w :
  tracks_autocommit h mode → only_calls on_session p →
  mode (run h p w).1.2 = mode_after (mode w) (run h p w).2.
Proof.
  intros (H1 & H2 & H3) Hp. revert w.
  induction Hp as [a|e|X c k Hc Hk IH|s text k Hk IH]; intros w; cbn [run];
    try done.
  - destruct (h X c w) as [r w1] eqn:E. specialize (IH r w1).
    destruct (run h (k r) w1) as [[r2 w2] t]. cbn [fst snd] in *.
    rewrite mode_after_cons, IH. f_equal.
    destruct (keeps_mode c) eqn:Hk'.
    + rewrite sets_mode_keeps by done.
      specialize (H3 X c w Hk'). by rewrite E in H3.
    + destruct c; try done. destruct r as [x|[]]; simpl.
      * by eapply H2.
      * by eapply H1.
  - specialize (IH w). by destruct (run h k w) as [[r2 w2] t].
Qed.

(** ** Programs without handler and without [throw] *)

Lemma propagates_bind {A B} (p : prog A) (f : A → prog B) :
  propagates p → (∀ a, propagates (f a)) → propagates (p ≫= f).
Proof.
  intros Hp Hf. unfold mbind, prog_bind.
  induction Hp as [a|X c k Hk Hs IH|s text k Hs IH]; simpl.
  - apply Hf.
  - constructor; [|done]. intros e. by rewrite Hk.
  - by constructor.
Qed.

Lemma propagates_call {X} (c : Call X) : propagates (call c).
Proof. constructor; [done|]. intros x. constructor. Qed.

Lemma propagates_insert_each ps users : propagates (insert_each ps users).
Proof.
  revert ps. induction users as [|u users IH]; intros ps; cbn [insert_each];
    [constructor|].
  apply propagates_bind; [apply propagates_call|auto].
Qed.

Lemma propagates_insertUsersBulk users : propagates (insertUsersBulk users).
Proof.
  apply propagates_bind; [|intros; apply propagates_insert_each].
  apply propagates_bind; [apply propagates_call|constructor].
Qed.

Lemma propagates_updateUserAgeByName n a :
  propagates (updateUserAgeByName n a).
Proof.
  apply propagates_bind; [|intros; apply propagates_call].
  apply propagates_bind; [apply propagates_call|constructor].
Qed.

(** A run of such a program: when it returns, every call it made
    returned; when it ends with an exception, the last event of the run
    is the one call that threw, and it threw that exception. *)
Lemma propagates_run {W A} (h : handler W) (p : prog A) w :
  propagates p →
  match (run h p w).1.1 with
  | inr _ => Forall (λ ev, thrown_by ev = None) (run h p w).2
  | inl e =>
      ∃ t0 X (c : Call X),
        (run h p w).2 = t0 ++ [EvCall c (inl e)]
        ∧ Forall (λ ev, thrown_by ev = None) t0
  end.
Proof.
  intros Hp. revert w.
  induction Hp as [a|X c k Hk Hs IH|s text k Hs IH]; intros w; simpl.
  - constructor.
  - destruct (h X c w) as [[e|x] w1].
    + rewrite Hk. simpl. by exists [], X, c.
    + specialize (IH x w1).
      destruct (run h (k (inr x)) w1) as [[[e|a] w2] t]; simpl in *.
      * destruct IH as (t0 & X' & c' & -> & Ht0).
        exists (EvCall c (inr x) :: t0), X', c'. split; [done|].
        by constructor.
      * by constructor.
  - specialize (IH w).
    destruct (run h k w) as [[[e|a] w2] t]; simpl in *.
    + destruct IH as (t0 & X' & c' & -> & Ht0).
      exists (EvPrint s text :: t0), X', c'. split; [done|]. by constructor.
    + by constructor.
Qed.

Lemma outcomes_returned (t : list event) :
  Forall (λ ev, thrown_by ev = None) t →
  Forall (λ o, o.2 = None) (outcomes t).
Proof.
  induction 1 as [|[X c [e|x]|s text] t Hev Ht IH]; simpl; try done.
  by constructor.
Qed.

(** The last call of a run that ends with an exception. *)
Lemma propagates_last {W A} (h : handler W) (p : prog A) w e w' t :
  propagates p → run h p w = (inl e, w', t) →
  ∃ c, last (outcomes t) = Some (c, Some e).
Proof.
  intros Hp E. pose proof (propagates_run h p w Hp) as H. rewrite E in H.
  simpl in H. destruct H as (t0 & X & c & -> & _).
  exists (Any c). rewrite outcomes_app. cbn [outcomes]. by rewrite last_snoc.
Qed.

End CallFacts.
(* ===================================================================== *)
(** * What the command layer sends                                       *)
(* ===================================================================== *)

Module Statements.
Import Cpp Sql Props RunFacts CallFacts.

Lemma only_calls_trace {W A} (h : handler W) (Q : ∀ X, Call X → Prop)
    (p : prog A) w :
  only_calls Q p → Forall (sent Q) (calls (run h p w).2).
Proof.
  intros Hp. revert w.
  induction Hp as [a|e|X c k Hc Hk IH|s text k Hk IH]; intros w; simpl.
  - constructor.
  - constructor.
  - destruct (h X c w) as [r w1]. specialize (IH r w1).
    destruct (run h (k r) w1) as [[r2 w2] t]. simpl in *. by constructor.
  - specialize (IH w). by destruct (run h k w) as [[r2 w2] t].
Qed.

Lemma only_calls_lift (Q : ∀ X, Call X → Prop) {A} (r : exn + A) :
  only_calls Q (lift r).
Proof. destruct r; constructor. Qed.

Lemma only_calls_prepared (Q : ∀ X, Call X → Prop) {B} sql
    (f : PreparedStatement → prog B) :
  Q _ (PrepareStatement sql) → only_calls Q (f (mkPS sql ∅)) →
  only_calls Q (prepareStatement sql ≫= f).
Proof.
  intros Hq Hf. unfold prepareStatement, mbind, prog_bind. cbn.
  constructor; [done|]. intros [e|[]]; cbn; [constructor|done].
Qed.

Lemma fixed_insert : insert_sql ∈ fixed_texts.
Proof. unfold fixed_texts. set_solver. Qed.
Lemma fixed_update : update_sql ∈ fixed_texts.
Proof. unfold fixed_texts. set_solver. Qed.
Lemma fixed_select : select_sql ∈ fixed_texts.
Proof. unfold fixed_texts. set_solver. Qed.

Lemma bound_insert u ps :
  ps_sql ps = insert_sql →
  ps_sql (if bool_decide (age u = 0) then setNull 2 0 (setString 1 (name u) ps)
          else setInt 2 (age u) (setString 1 (name u) ps)) = insert_sql.
Proof. intros Hps. by case_bool_decide. Qed.

Lemma parameterized_insert_each ps users :
  ps_sql ps = insert_sql → only_calls parameterized (insert_each ps users).
Proof.
  revert ps. induction users as [|u users IH]; intros ps Hps;
    cbn [insert_each]; [constructor|].
  apply only_calls_bind.
  - apply only_calls_call. cbn. rewrite bound_insert by done.
    apply fixed_insert.
  - intros _. apply IH. by apply bound_insert.
Qed.

Lemma parameterized_read_user rs out :
  only_calls parameterized (read_user rs out).
Proof.
  unfold read_user.
  repeat (apply only_calls_bind; [try apply only_calls_lift|intros]).
  - destruct a1; [constructor|apply only_calls_lift].
  - constructor.
Qed.

Lemma parameterized_while_next cols rows acc :
  only_calls parameterized (while_next read_user cols rows acc).
Proof.
  revert acc. induction rows as [|row rows IH]; intros acc; cbn [while_next];
    [constructor|].
  apply only_calls_bind; [apply parameterized_read_user|auto].
Qed.

Lemma parameterized_insertUser u : only_calls parameterized (insertUser u).
Proof.
  unfold insertUser. apply only_calls_prepared; [apply fixed_insert|].
  apply only_calls_bind.
  { apply only_calls_call. cbn. rewrite bound_insert by done.
    apply fixed_insert. }
  intros _. apply only_calls_bind; [by apply only_calls_call|intros _].
  apply only_calls_bind.
  { unfold executeQuery. apply only_calls_bind; [by apply only_calls_call|].
    intros q. constructor. }
  intros r. destruct (next r) as [[] r']; [apply only_calls_lift|constructor].
Qed.

Lemma parameterized_insertUsersBulk users :
  only_calls parameterized (insertUsersBulk users).
Proof.
  unfold insertUsersBulk. apply only_calls_prepared; [apply fixed_insert|].
  by apply parameterized_insert_each.
Qed.

Lemma parameterized_updateUserAgeByName n a :
  only_calls parameterized (updateUserAgeByName n a).
Proof.
  unfold updateUserAgeByName. apply only_calls_prepared; [apply fixed_update|].
  apply only_calls_call. cbn. apply fixed_update.
Qed.

Lemma parameterized_getUsersByMinAge m :
  only_calls parameterized (getUsersByMinAge m).
Proof.
  unfold getUsersByMinAge. apply only_calls_prepared; [apply fixed_select|].
  apply only_calls_bind.
  { unfold psExecuteQuery. apply only_calls_bind.
    - apply only_calls_call. cbn. apply fixed_select.
    - intros q. constructor. }
  intros rs. apply parameterized_while_next.
Qed.

(** X3.  On any connection and for any arguments, the four operations of the
    command layer send no statement text built from their arguments: every
    statement they prepare or execute is one of the three fixed texts with
    placeholders (the name and the ages travel as bound parameters), the
    only other query is [SELECT LAST_INSERT_ID()], and none of them executes
    a plain statement, selects a schema, connects, switches autocommit,
    commits or rolls back. *)
Theorem command_layer_sends_fixed_statements {W} (h : handler W) (w : W) :
  (∀ u, Forall (sent parameterized) (calls (run h (insertUser u) w).2))
  ∧ (∀ users,
       Forall (sent parameterized) (calls (run h (insertUsersBulk users) w).2))
  ∧ (∀ n a,
       Forall (sent parameterized)
         (calls (run h (updateUserAgeByName n a) w).2))
  ∧ (∀ m, Forall (sent parameterized) (calls (run h (getUsersByMinAge m) w).2)).
Proof.
  split; [|split; [|split]]; intros; apply only_calls_trace.
  - apply parameterized_insertUser.
  - apply parameterized_insertUsersBulk.
  - apply parameterized_updateUserAgeByName.
  - apply parameterized_getUsersByMinAge.
Qed.

End Statements.

(* ===================================================================== *)
(** * What the texts of the program say                                  *)
(* ===================================================================== *)

(** The statements that the parser of the server model reads in the
    texts the program sends.  Everything proved on the server model
    goes through these readings: it holds of the texts as they are
    written in the source. *)

Module Texts.
Import Cpp Sql MySQL Props RunFacts.

Lemma statement_insert :
  statement insert_sql = Some (InsertInto "users" ["name"; "age"] 2).
Proof. by vm_compute. Qed.

Lemma statement_update :
  statement update_sql = Some (UpdateSet "users" "age" "name").
Proof. by vm_compute. Qed.

Lemma statement_select :
  statement select_sql =
    Some (SelectFrom ["id"; "name"; "age"] "users" (Some "age")
            [("age", Desc); ("id", Asc)]).
Proof. by vm_compute. Qed.

Lemma statement_select_all :
  statement "SELECT id, name, age FROM users ORDER BY id" =
    Some (SelectFrom ["id"; "name"; "age"] "users" None [("id", Asc)]).
Proof. by vm_compute. Qed.

Lemma statement_last_insert_id :
  statement "SELECT LAST_INSERT_ID()" = Some SelectLastInsertId.
Proof. by vm_compute. Qed.

Lemma statement_delete : statement "DELETE FROM users" = Some (DeleteFrom "users").
Proof. by vm_compute. Qed.

(** The parser reads statements, not the texts of the program: the same
    insert written otherwise is the same statement up to the case of its
    column names, and a statement the program never sends is read and run
    as what it says. *)
Example statement_insert_written_otherwise :
  statement "insert into `users` (NAME, age)  values (?,?);" =
    Some (InsertInto "users" ["NAME"; "age"] 2).
Proof. by vm_compute. Qed.

Example drop_table_is_run :
  statement "DROP TABLE users" = Some (DropTable false "users")
  ∧ (let '(r, w) := server _ (Execute "DROP TABLE users") populated in
     r = inr false ∧ users_table w = inl no_table).
Proof. split; by vm_compute. Qed.

(** The table statement defines [users] as the model stores it: three
    columns, the unique key on [name], InnoDB, utf8mb4 with its default
    collation; and it says [IF NOT EXISTS]. *)
Lemma statement_create_users :
  ∃ d, statement create_users_sql = Some (CreateTable true d)
       ∧ fold_def d = users_def.
Proof. eexists. split; by vm_compute. Qed.

(** A text of at most [n] characters is its first [n] characters. *)
Lemma chars_within n s :
  (char_length s ≤ n)%nat → take_chars n s = s ∧ drop_chars n s = "".
Proof.
  revert n. induction s as [|c s IH]; intros n Hn; [done|].
  cbn [char_length take_chars drop_chars] in *.
  destruct (in_range 128 191 c).
  - destruct (IH n) as [-> ->]; [lia|done].
  - destruct n as [|n]; [lia|]. destruct (IH n) as [-> ->]; [lia|done].
Qed.

Lemma insert_name_within s :
  (char_length s ≤ 100)%nat → insert_name (Some (PString s)) = inr s.
Proof.
  intros Hs. unfold insert_name.
  by destruct (chars_within 100 s Hs) as [-> ->].
Qed.

Lemma append_nil_r (s : string) : s +:+ "" = s.
Proof.
  induction s as [|a s IH]; [done|].
  change (String a s +:+ "") with (String a (s +:+ "")). by rewrite IH.
Qed.

(** The database statement: the text up to the back quote, then the name
    as the lexer reads it between the quotes. *)
Lemma lex_create_database (rest : string) :
  lex ("CREATE DATABASE IF NOT EXISTS `" +:+ rest) (Plain "") =
    flush "CREATE" <$> (flush "DATABASE" <$> (flush "IF" <$> (flush "NOT" <$>
      (flush "EXISTS" <$> (flush "" <$> lex rest (Quoted "")))))).
Proof. reflexivity. Qed.

Lemma lex_quoted (n q : string) :
  has_backtick n = false →
  lex (n +:+ String backtick "") (Quoted q) = Some [TQuoted (q +:+ n)].
Proof.
  revert q. induction n as [|c n IH]; intros q Hn.
  { rewrite append_nil_r. change ("" +:+ String backtick "")
      with (String backtick "").
    cbn [lex]. by rewrite decide_True by done. }
  change (String c n +:+ String backtick "")
    with (String c (n +:+ String backtick "")).
  simpl in Hn. apply orb_false_iff in Hn as [Hc Hn].
  apply bool_decide_eq_false in Hc. cbn [lex].
  rewrite decide_False by done. rewrite IH by done.
  rewrite append_assoc. reflexivity.
Qed.

Lemma create_database_sql_split n :
  create_database_sql n =
    "CREATE DATABASE IF NOT EXISTS `" +:+ (n +:+ String backtick "").
Proof. reflexivity. Qed.

(** A name without back quote is read back as it is. *)
Lemma statement_create_database n :
  has_backtick n = false →
  statement (create_database_sql n) = Some (CreateDatabase true n).
Proof.
  intros Hn. unfold statement.
  rewrite create_database_sql_split, lex_create_database, lex_quoted by done.
  reflexivity.
Qed.

Lemma parse_create_database_tokens (ts : list Token) :
  (flush "CREATE" <$> (flush "DATABASE" <$> (flush "IF" <$> (flush "NOT" <$>
     (flush "EXISTS" <$> (flush "" <$> Some ts)))))) ≫= parse =
    match ts with
    | [] => None
    | t :: rest =>
        n ← name_of t;
        if at_end rest then Some (CreateDatabase true n) else None
    end.
Proof. destruct ts; reflexivity. Qed.

(** Whatever the name, the text is unreadable or creates a database: the
    name pasted into it cannot turn it into another statement. *)
Lemma statement_create_database_any n :
  statement (create_database_sql n) = None
  ∨ ∃ n', statement (create_database_sql n) = Some (CreateDatabase true n').
Proof.
  unfold statement. rewrite create_database_sql_split, lex_create_database.
  destruct (lex _ (Quoted "")) as [ts|]; [|by left].
  rewrite parse_create_database_tokens.
  destruct ts as [|t rest]; [by left|].
  destruct (name_of t) as [n'|]; [|by left]. simpl.
  destruct (at_end rest); [right; by exists n'|by left].
Qed.

End Texts.
(* ===================================================================== *)
(** * Facts about the server model                                       *)
(* ===================================================================== *)

Module ServerFacts.
Import Cpp Sql MySQL Props.

Lemma users_table_sql w e : users_table w = inl e → is_sql e = true.
Proof. unfold users_table. repeat case_match; by intros [= <-]. Qed.

Lemma table_named_sql t w e : table_named t w = inl e → is_sql e = true.
Proof.
  unfold table_named. case_decide; [apply users_table_sql|].
  repeat case_match; by intros [= <-].
Qed.

Lemma insert_name_sql p e : insert_name p = inl e → is_sql e = true.
Proof. unfold insert_name. repeat case_match; by intros [= <-]. Qed.

Lemma int_column_sql p e : int_column p = inl e → is_sql e = true.
Proof. unfold int_column. repeat case_match; by intros [= <-]. Qed.

Lemma check_database_name_sql n e :
  check_database_name n = Some e → is_sql e = true.
Proof. unfold check_database_name. repeat case_match; by intros [= <-]. Qed.

Lemma check_sql s w e : check s w = Some e → is_sql e = true.
Proof.
  destruct s; simpl; try by intros [= <-].
  - destruct (table_named t w) eqn:E; [intros [= <-]; by eapply table_named_sql|].
    unfold check_insert. repeat case_match; by intros [= <-].
  - destruct (table_named t w) eqn:E; [intros [= <-]; by eapply table_named_sql|].
    unfold check_update. repeat case_match; by intros [= <-].
  - destruct (table_named t w) eqn:E; [intros [= <-]; by eapply table_named_sql|].
    unfold check_select. repeat case_match; by intros [= <-].
Qed.

Ltac tame_leaf := split; [simpl; by intros ? [= <-] | done].

Lemma tame_error {A} e : tame (λ w, (@inl exn A e, w)) ↔ is_sql e = true.
Proof.
  split; [intros H; by apply (H fresh)|].
  intros He w. split; [by intros e' [= <-]|done].
Qed.

Lemma tame_create_database ine n : tame (create_database ine n).
Proof.
  intros w. unfold create_database.
  destruct (check_database_name n) as [e|] eqn:E.
  { split; [intros e' [= <-]; by eapply check_database_name_sql|done]. }
  destruct (databases w !! n), ine; tame_leaf.
Qed.

Lemma tame_create_table ine d : tame (create_table ine d).
Proof.
  intros w. unfold create_table. case_decide; [|tame_leaf].
  destruct (current w) as [db|]; [|tame_leaf].
  destruct (databases w !! db) as [[t|]|], ine; tame_leaf.
Qed.

Lemma tame_drop_table ie t : tame (drop_table ie t).
Proof.
  intros w. unfold drop_table.
  destruct (current w) as [db|]; [|tame_leaf].
  destruct (if decide (t = "users") then _ else _) as [[tb|]|], ie;
    tame_leaf.
Qed.

Lemma tame_delete_from t : tame (delete_from t).
Proof.
  intros w. unfold delete_from.
  destruct (table_named t w) as [e|[db tb]] eqn:E; [|tame_leaf].
  split; [intros e' [= <-]; by eapply table_named_sql|done].
Qed.

Lemma tame_insert_row cols ps : tame (λ w, insert_row cols ps w).
Proof.
  intros w. unfold insert_row.
  destruct (users_table w) as [e|[db t]] eqn:E.
  { split; [intros e' [= <-]; by eapply users_table_sql|done]. }
  destruct (bound "name" cols ps) as [pn|]; [|tame_leaf].
  destruct (insert_name pn) as [e|n] eqn:En.
  { split; [intros e' [= <-]; by eapply insert_name_sql|done]. }
  destruct (int_column _) as [e|a] eqn:Ea.
  { split; [intros e' [= <-]; by eapply int_column_sql|done]. }
  cbv zeta. repeat case_decide; tame_leaf.
Qed.

Lemma tame_update_age ps : tame (λ w, update_age ps w).
Proof.
  intros w. unfold update_age.
  destruct (users_table w) as [e|[db t]] eqn:E.
  { split; [intros e' [= <-]; by eapply users_table_sql|done]. }
  destruct (int_column _) as [e|a] eqn:Ea.
  { split; [intros e' [= <-]; by eapply int_column_sql|done]. }
  destruct (ps !! 2%nat) as [[| |n]|]; tame_leaf.
Qed.

Lemma tame_select_rows cols wh order ps :
  tame (λ w, select_rows cols wh order ps w).
Proof.
  intros w. unfold select_rows.
  destruct (users_table w) as [e|[db t]] eqn:E.
  { split; [intros e' [= <-]; by eapply users_table_sql|done]. }
  destruct wh as [c|]; [|tame_leaf].
  destruct (ps !! 1%nat) as [[| |n]|]; tame_leaf.
Qed.

Lemma tame_exec_text sql : tame (exec_text sql).
Proof.
  unfold exec_text.
  destruct (statement sql) as [[]|]; try by apply tame_error.
  - apply tame_create_database.
  - apply tame_create_table.
  - apply tame_drop_table.
  - apply tame_delete_from.
Qed.

Lemma tame_query_text sql : tame (query_text sql).
Proof.
  unfold query_text.
  destruct (statement sql) as [[| | | | | |cols t [c|] order|]|];
    try by apply tame_error.
  - intros w. destruct (check _ w) as [e|] eqn:E.
    + split; [intros e' [= <-]; by eapply check_sql|done].
    + apply tame_select_rows.
  - intros w. tame_leaf.
Qed.

Lemma tame_prepare sql : tame (prepare sql).
Proof.
  unfold prepare. destruct (statement sql) as [s|]; [|by apply tame_error].
  intros w. destruct (check s w) as [e|] eqn:E; [|tame_leaf].
  split; [intros e' [= <-]; by eapply check_sql|done].
Qed.

Lemma tame_execute_update ps : tame (execute_update ps).
Proof.
  unfold execute_update.
  destruct (statement (ps_sql ps)) as [s|]; [|by apply tame_error].
  intros w. destruct (check s w) as [e|] eqn:E.
  { split; [intros e' [= <-]; by eapply check_sql|done]. }
  destruct s; try tame_leaf.
  - apply tame_insert_row.
  - apply tame_update_age.
Qed.

Lemma tame_execute_query ps : tame (execute_query ps).
Proof.
  unfold execute_query.
  destruct (statement (ps_sql ps)) as [s|]; [|by apply tame_error].
  intros w. destruct (check s w) as [e|] eqn:E.
  { split; [intros e' [= <-]; by eapply check_sql|done]. }
  destruct s; try tame_leaf.
  apply tame_select_rows.
Qed.

Lemma tame_select_schema n : tame (select_schema n).
Proof.
  intros w. unfold select_schema.
  destruct (databases w !! n); tame_leaf.
Qed.

(** Whatever the server throws is a [sql::SQLException]. *)
Lemma server_sql_only X (c : Call X) w e w' :
  server X c w = (inl e, w') → is_sql e = true.
Proof.
  intros H. apply (f_equal fst) in H. simpl in H. revert H.
  destruct c; unfold server; try done.
  all: destruct (connected w); [|by intros [= <-]]; try done.
  - apply tame_exec_text.
  - apply tame_query_text.
  - apply tame_select_schema.
  - apply tame_prepare.
  - apply tame_execute_update.
  - apply tame_execute_query.
Qed.

Lemma server_live_step X (c : Call X) w :
  connected w = true → connected (server X c w).2 = true.
Proof.
  intros Hw. destruct c as [| |sql|sql|n|sql|ps|ps| | |];
    unfold server; rewrite ?Hw; try done.
  - by rewrite (proj1 (proj2 (tame_exec_text sql w))).
  - by rewrite (proj1 (proj2 (tame_query_text sql w))).
  - by rewrite (proj1 (proj2 (tame_select_schema n w))).
  - by rewrite (proj1 (proj2 (tame_prepare sql w))).
  - by rewrite (proj1 (proj2 (tame_execute_update ps w))).
  - by rewrite (proj1 (proj2 (tame_execute_query ps w))).
Qed.

Lemma server_set_autocommit b w :
  connected w = true →
  ∃ w', server _ (SetAutoCommit b) w = (inr tt, w') ∧ autocommit w' = b.
Proof. intros Hw. unfold server. rewrite Hw. by eexists. Qed.

(** The field [autocommit] is the mode of the session. *)
Lemma server_tracks_autocommit : tracks_autocommit server autocommit.
Proof.
  split; [|split].
  - intros b w w'. unfold server. destruct (connected w); [|done].
    by intros [= <-].
  - intros b w x w'. unfold server. destruct (connected w); [done|].
    by intros [= _ <-].
  - intros X c w Hc. destruct c; try done; unfold server.
    all: destruct (connected w); [|done]; try done.
    + apply tame_exec_text.
    + apply tame_query_text.
    + apply tame_select_schema.
    + apply tame_prepare.
    + apply tame_execute_update.
    + apply tame_execute_query.
Qed.

(** So it is on a connection with one injected failure. *)
Lemma failing_tracks_autocommit {W} (h : handler W) (mode : W → bool) e :
  tracks_autocommit h mode →
  tracks_autocommit (failing h e) (λ s, mode s.2).
Proof.
  intros (H1 & H2 & H3). split; [|split].
  - intros b [[[|n]|] w] [n' w']; simpl; [done|..].
    all: destruct (h unit (SetAutoCommit b) w) as [r w1] eqn:E.
    all: intros [= -> _ <-]; by eapply H1.
  - intros b [[[|n]|] w] x [n' w']; simpl; [by intros [= _ _ <-]|..].
    all: destruct (h unit (SetAutoCommit b) w) as [r w1] eqn:E.
    all: intros [= -> _ <-]; by eapply H2.
  - intros X c [[[|n]|] w] Hc; simpl; [done|..].
    all: specialize (H3 X c w Hc).
    all: by destruct (h X c w) as [r w1].
Qed.

End ServerFacts.
(* ===================================================================== *)
(** * The transaction coordinator                                        *)
(* ===================================================================== *)

Module Coordinator.
Import Cpp Sql MySQL Props RunFacts RaisesFacts CallFacts Statements
  ServerFacts.

Lemma parameterized_keeps_mode X (c : Call X) :
  parameterized X c → keeps_mode c = true.
Proof. by destruct c. Qed.

Lemma keeps_mode_on_session X (c : Call X) :
  keeps_mode c = true → on_session X c.
Proof. by destruct c. Qed.

Lemma on_session_demoTransaction_body : only_calls on_session demoTransaction_body.
Proof.
  unfold demoTransaction_body.
  apply only_calls_bind; [|intros _].
  { eapply only_calls_impl; [|apply parameterized_insertUsersBulk].
    intros X c Hc. by apply keeps_mode_on_session, parameterized_keeps_mode. }
  apply only_calls_bind; [|intros changed].
  { eapply only_calls_impl; [|apply parameterized_updateUserAgeByName].
    intros X c Hc. by apply keeps_mode_on_session, parameterized_keeps_mode. }
  repeat first [apply only_calls_bind; [|intros] | by apply only_calls_call
               | by repeat constructor].
Qed.

Lemma on_session_demoTransaction : only_calls on_session demoTransaction.
Proof.
  unfold demoTransaction. apply only_calls_bind; [by apply only_calls_call|].
  intros _. apply only_calls_try_catch_sql;
    [apply on_session_demoTransaction_body|].
  intros e. unfold demoTransaction_handler.
  apply only_calls_bind; [by repeat constructor|intros _].
  apply only_calls_bind; [|intros _].
  { apply only_calls_try_catch_sql; [|intros e2; by repeat constructor].
    apply only_calls_bind; [by apply only_calls_call|].
    intros _. by repeat constructor. }
  apply only_calls_bind; [by apply only_calls_call|intros _]. constructor.
Qed.

Lemma propagates_demoTransaction_body : propagates demoTransaction_body.
Proof.
  unfold demoTransaction_body.
  repeat first [apply propagates_bind; [|intros] | apply propagates_call
               | apply propagates_insertUsersBulk
               | apply propagates_updateUserAgeByName
               | by repeat constructor].
Qed.

Section AnyConnection.
Context {W : Type} (h : handler W).

(** The [catch] block, by the outcomes of its two calls. *)
Lemma handler_run e w :
  run h (demoTransaction_handler e) w =
    let '(rr, w2) := h _ Rollback w in
    let line := EvPrint Cerr (sql_error_line e "demoTransaction") in
    match rr with
    | inl (Std _) | inl Foreign =>
        (match rr with inl y => inl y | inr _ => inl (Sql e) end, w2,
         [line; EvCall Rollback rr])
    | _ =>
        let '(ra, w3) := h _ (SetAutoCommit true) w2 in
        (match ra with inl y => inl y | inr _ => inl (Sql e) end, w3,
         [line; EvCall Rollback rr; EvPrint Cerr (rollback_report rr);
          EvCall (SetAutoCommit true) ra])
    end.
Proof.
  unfold demoTransaction_handler, printSqlError, cerr, rollback, setAutoCommit.
  cbn.
  destruct (h unit Rollback w) as [[[e2|m|]|[]] w2]; cbn; try done.
  all: by destruct (h unit (SetAutoCommit true) w2) as [[y|[]] w3].
Qed.

(** The [try] block: when it returns, its last call was a
    [setAutoCommit(true)] that returned; when it ends with an exception,
    its last call threw it and no call before has switched the mode. *)
Lemma body_run b w :
  let '(r, w1, t1) := run h demoTransaction_body w in
  match r with
  | inr _ =>
      mode_after b t1 = true
      ∧ last (outcomes t1) = Some (Any (SetAutoCommit true), None)
  | inl x =>
      mode_after b t1 = b ∧ ∃ c, last (outcomes t1) = Some (c, Some x)
  end.
Proof.
  destruct (run h demoTransaction_body w) as [[r w1] t1] eqn:Eb.
  assert (match r with
          | inr _ => True
          | inl x => ∃ c, last (outcomes t1) = Some (c, Some x)
          end) as Hlast.
  { destruct r as [x|[]]; [|done].
    by eapply propagates_last; [apply propagates_demoTransaction_body|]. }
  assert (∀ users, only_calls (λ X c, keeps_mode c = true)
            (insertUsersBulk users)) as Ka.
  { intros users.
    eapply only_calls_impl; [|apply parameterized_insertUsersBulk].
    apply parameterized_keeps_mode. }
  assert (∀ n a, only_calls (λ X c, keeps_mode c = true)
            (updateUserAgeByName n a)) as Kb.
  { intros n a.
    eapply only_calls_impl; [|apply parameterized_updateUserAgeByName].
    apply parameterized_keeps_mode. }
  revert Eb. unfold demoTransaction_body. rewrite run_bind.
  pose proof (mode_after_keeps h _ w b (Ka
    [mkUser 0 "alice" 24; mkUser 0 "bob" 29])) as Ma.
  destruct (run h (insertUsersBulk _) w) as [[[x|[]] wa] ta].
  { by intros [= <- <- <-]. }
  rewrite run_bind.
  pose proof (mode_after_keeps h _ wa b (Kb "alice" 25)) as Mb.
  destruct (run h (updateUserAgeByName _ _) wa) as [[[x|n] wb] tb].
  all: cbn [fst snd] in Ma, Mb.
  { intros [= <- <- <-]. split; [|done].
    by rewrite mode_after_app, Ma, Mb. }
  rewrite run_bind. cbn.
  destruct (h unit Commit wb) as [[x|[]] wc]; cbn.
  { intros [= <- <- <-]. split; [|done].
    by rewrite !mode_after_app, Ma, Mb. }
  destruct (h unit (SetAutoCommit true) wc) as [[x|[]] wd]; cbn.
  { intros [= <- <- <-]. split; [|done].
    by rewrite !mode_after_app, Ma, Mb. }
  intros [= <- <- <-]. split.
  - by rewrite !mode_after_app, Ma, Mb.
  - rewrite !outcomes_app. cbn [outcomes]. by rewrite !last_app.
Qed.

End AnyConnection.

(** C1.  The runs of [demoTransaction], on any connection and whatever
    its calls return or throw, [b] being the autocommit mode before.
    Either the first call, [setAutoCommit(false)], throws: that is the
    whole run and the mode stays [b].  Or the last call is a
    [setAutoCommit(true)] that returned: autocommit is enabled, and the
    coordinator returns or re-raises a database error.  Or the last call
    threw, what it threw is what the coordinator ends with, and
    autocommit is left disabled: that call is the restoring
    [setAutoCommit(true)] itself, or it threw an exception that is not a
    database error.  So autocommit is restored on the paths where every
    exception is a database error and the restoring call returns, and on
    no other path past the first call.  The mode is that of the last
    [setAutoCommit] that returned; it is the mode of the connection state
    for every connection that carries one. *)
Theorem demoTransaction_restores_autocommit {W} (h : handler W) (w : W)
    (b : bool) :
  let '(r, w', t) := run h demoTransaction w in
  ((∃ x, t = [EvCall (SetAutoCommit false) (inl x)] ∧ r = inl x
         ∧ mode_after b t = b)
   ∨ (last (outcomes t) = Some (Any (SetAutoCommit true), None)
      ∧ mode_after b t = true
      ∧ (r = inr tt ∨ ∃ e, r = inl (Sql e)))
   ∨ (∃ c x, last (outcomes t) = Some (c, Some x) ∧ r = inl x
             ∧ mode_after b t = false
             ∧ (c = Any (SetAutoCommit true) ∨ is_sql x = false)))
  ∧ (∀ mode : W → bool,
       tracks_autocommit h mode → mode w' = mode_after (mode w) t).
Proof.
  pose proof (λ mode Hm, tracked_mode_run h mode demoTransaction w Hm
                           on_session_demoTransaction) as Htracked.
  destruct (run h demoTransaction w) as [[r w'] t] eqn:E.
  split; [|done]. clear Htracked.
  unfold demoTransaction in E. rewrite run_bind in E.
  unfold setAutoCommit at 1 in E. rewrite run_call in E.
  destruct (h unit (SetAutoCommit false) w) as [[x|[]] w0]; cbn [fst snd] in E.
  { injection E as <- <- <-. left. by exists x. }
  right. rewrite run_try_catch_sql in E.
  pose proof (body_run h false w0) as Hb.
  destruct (run h demoTransaction_body w0) as [[[x|[]] w1] t1].
  - destruct Hb as [Hm [c Hc]].
    assert (∀ t2, mode_after b
              (EvCall (SetAutoCommit false) (inr tt) :: t1 ++ t2)
            = mode_after false t2) as Hmode.
    { intros t2.
      change (mode_after b
                (EvCall (SetAutoCommit false) (inr tt) :: t1 ++ t2))
        with (mode_after false (t1 ++ t2)).
      by rewrite mode_after_app, Hm. }
    assert (∀ t2 o, last (outcomes t2) = Some o →
              last (outcomes
                (EvCall (SetAutoCommit false) (inr tt) :: t1 ++ t2))
              = Some o) as Hlast.
    { intros t2 o Ho. cbn [outcomes]. rewrite outcomes_app.
      rewrite last_cons, last_app, Ho. done. }
    destruct x as [e|m|].
    + rewrite handler_run in E.
      destruct (h unit Rollback w1) as [[[e2|m|]|[]] w2].
      2,3: cbv beta iota zeta in E; cbn [app] in E;
           injection E as <- <- <-; right; eexists _, _;
           split; [by apply Hlast|];
           split; [done|]; split; [by rewrite Hmode|by right].
      all: destruct (h unit (SetAutoCommit true) w2) as [[y|[]] w3].
      all: cbv beta iota zeta in E; cbn [app] in E.
      all: injection E as <- <- <-.
      1,3: right; eexists _, _; split; [by apply Hlast|];
           split; [done|]; split; [by rewrite Hmode|by left].
      all: left; split; [by apply Hlast|]; split; [by rewrite Hmode|eauto].
    + cbn [app] in E. injection E as <- <- <-. right. exists c, (Std m).
      split; [|split; [done|split; [|by right]]].
      * cbn [outcomes]. by rewrite last_cons, Hc.
      * specialize (Hmode []). by rewrite app_nil_r in Hmode.
    + cbn [app] in E. injection E as <- <- <-. right. exists c, Foreign.
      split; [|split; [done|split; [|by right]]].
      * cbn [outcomes]. by rewrite last_cons, Hc.
      * specialize (Hmode []). by rewrite app_nil_r in Hmode.
  - destruct Hb as [Hm Hl]. cbn [app] in E. injection E as <- <- <-. left.
    split; [|split; [|by left]].
    + cbn [outcomes]. by rewrite last_cons, Hl.
    + done.
Qed.

(** C3.  The paths of [demoTransaction] after a call of the [try] block
    has thrown [x], on any connection, [rr] being the outcome of the
    rollback and [ra] that of the [setAutoCommit(true)] after it.  When
    [x] is a database error [e], the coordinator prints [e] and calls
    rollback.  When the rollback returns or throws a database error, a
    line of its own reports that outcome and [setAutoCommit(true)] is
    called; [e] is re-raised when that call returns, and the exception of
    that call takes the place of [e] when it throws.  When the rollback
    throws another exception, nothing more is printed or called and that
    exception takes the place of [e].  When [x] is not a database error,
    the coordinator does nothing after it. *)
Theorem demoTransaction_rollback_path {W} (h : handler W) (w w0 w1 w2 w3 : W)
    (x : exn) (t1 : list event) (rr ra : exn + unit) :
  h _ (SetAutoCommit false) w = (inr tt, w0) →
  run h demoTransaction_body w0 = (inl x, w1, t1) →
  h _ Rollback w1 = (rr, w2) →
  h _ (SetAutoCommit true) w2 = (ra, w3) →
  let tried := EvCall (SetAutoCommit false) (inr tt) :: t1 in
  let caught e :=
    [EvPrint Cerr (sql_error_line e "demoTransaction"); EvCall Rollback rr] in
  (∀ e, x = Sql e → (rr = inr tt ∨ ∃ e2, rr = inl (Sql e2)) →
     run h demoTransaction w =
       (match ra with inr _ => inl (Sql e) | inl y => inl y end, w3,
        tried ++ caught e ++
        [EvPrint Cerr (rollback_report rr); EvCall (SetAutoCommit true) ra]))
  ∧ (∀ e y, x = Sql e → rr = inl y → is_sql y = false →
       run h demoTransaction w = (inl y, w2, tried ++ caught e))
  ∧ (is_sql x = false → run h demoTransaction w = (inl x, w1, tried)).
Proof.
  intros E0 Eb Er Ea tried caught.
  assert (run h demoTransaction w =
            match x with
            | Sql e =>
                let '(r2, w', t2) := run h (demoTransaction_handler e) w1 in
                (r2, w', tried ++ t2)
            | _ => (inl x, w1, tried)
            end) as E.
  { unfold demoTransaction. rewrite run_bind.
    unfold setAutoCommit at 1. rewrite run_call, E0. cbn [fst snd].
    rewrite run_try_catch_sql, Eb. destruct x as [e|m|]; [|done..].
    by destruct (run h (demoTransaction_handler e) w1) as [[r2 w'] t2]. }
  rewrite E. split; [|split].
  - intros e -> Hrr. rewrite handler_run, Er.
    destruct Hrr as [->|[e2 ->]]; by rewrite Ea.
  - intros e y -> -> Hy. rewrite handler_run, Er.
    by destruct y.
  - intros Hx. by destruct x.
Qed.

(** On the server, with the restoring call made to fail: the row of
    alice exists, the insert of the [try] block is refused, the rollback
    returns, and the [setAutoCommit(true)] of the [catch] block throws.
    The coordinator ends with that exception, not with the one of the
    insert, and the session is left with autocommit disabled. *)
Lemma demoTransaction_restore_can_fail :
  let '(r, w', t) := run (failing server access_denied) demoTransaction
                       (Some 4%nat, populated) in
  r = inl access_denied
  ∧ autocommit w'.2 = false
  ∧ mode_after true t = false
  ∧ outcomes t =
      [(Any (SetAutoCommit false), None);
       (Any (PrepareStatement insert_sql), None);
       (Any (PsExecuteUpdate (insert_statement (mkUser 0 "alice" 24))),
        Some (Sql duplicate_name));
       (Any Rollback, None);
       (Any (SetAutoCommit true), Some access_denied)].
Proof. by vm_compute. Qed.

(** A rollback that throws an exception other than a database error is
    not reported and ends the coordinator: the original error is lost,
    [setAutoCommit(true)] is not called and autocommit stays disabled.
    And when the rollback returns but the restoring call throws, the
    original error is replaced as well. *)
Lemma demoTransaction_original_error_replaced :
  (let '(r, w', t) := run (failing server (Std "std::bad_alloc"))
                        demoTransaction (Some 3%nat, populated) in
   r = inl (Std "std::bad_alloc")
   ∧ autocommit w'.2 = false
   ∧ written Cerr t = sql_error_line duplicate_name "demoTransaction"
   ∧ last (calls t) = Some (Any Rollback))
  ∧ (let '(r, w', t) := run (failing server access_denied)
                          demoTransaction (Some 4%nat, populated) in
     r = inl access_denied
     ∧ autocommit w'.2 = false
     ∧ written Cerr t = sql_error_line duplicate_name "demoTransaction"
                        +:+ "Transaction rolled back." +:+ nl).
Proof. split; by vm_compute. Qed.

(** The handler of the coordinator takes [sql::SQLException] only: when a
    call of the [try] block throws another [std::exception], nothing is
    rolled back or restored and autocommit stays disabled. *)
Remark demoTransaction_other_exception_skips_restore :
  let r := run (failing server (Std "std::bad_alloc")) demoTransaction
             (Some 2%nat, ready) in
  r.1.1 = inl (Std "std::bad_alloc")
  ∧ autocommit r.1.2.2 = false
  ∧ calls r.2 = [Any (SetAutoCommit false); Any (PrepareStatement insert_sql);
                 Any (PsExecuteUpdate (insert_statement (mkUser 0 "alice" 24)))].
Proof. repeat split; by vm_compute. Qed.

(** The commit of the [try] block fails on the server: the rows are
    rolled back, the session is left with autocommit enabled and the
    error of the commit is re-raised. *)
Lemma demoTransaction_restores_autocommit_witness :
  let '(r, w', t) := run (failing server access_denied) demoTransaction
                       (Some 6%nat, ready) in
  autocommit w'.2 = true ∧ r = inl access_denied
  ∧ last (outcomes t) = Some (Any (SetAutoCommit true), None).
Proof.
  pose proof (demoTransaction_restores_autocommit
                (failing server access_denied) (Some 6%nat, ready) true) as H.
  destruct (run (failing server access_denied) demoTransaction
              (Some 6%nat, ready)) as [[r w'] t] eqn:E.
  destruct H as [_ Hmode].
  rewrite (Hmode (λ s, autocommit s.2)
             (failing_tracks_autocommit server autocommit access_denied
                server_tracks_autocommit)).
  vm_compute in E. injection E as <- <- <-. by vm_compute.
Defined.

(** The failed rollback is reported on a line of its own and the
    original error, the duplicate name, is re-raised. *)
Lemma demoTransaction_rollback_path_witness :
  ∃ w3 t,
    run (failing server access_denied) demoTransaction (Some 3%nat, populated)
    = (inl (Sql duplicate_name), w3, t)
    ∧ written Cerr t =
        sql_error_line duplicate_name "demoTransaction"
        +:+ sql_error_line
              (mkSQLException "Access denied for user" 1045 "28000") "rollback".
Proof.
  eexists _, _. split.
  - refine (proj1 (demoTransaction_rollback_path
                     (failing server access_denied) (Some 3%nat, populated)
                     _ _ _ _ (Sql duplicate_name) _
                     (inl access_denied) (inr tt) _ _ _ _)
              duplicate_name eq_refl (or_intror (ex_intro _ _ eq_refl))).
    + vm_compute. reflexivity.
    + vm_compute. reflexivity.
    + vm_compute. reflexivity.
    + vm_compute. reflexivity.
  - by vm_compute.
Defined.

End Coordinator.
(* ===================================================================== *)
(** * The command layer, on any connection                               *)
(* ===================================================================== *)

Module CommandLayer.
Import Cpp Sql Props RunFacts CallFacts.

Lemma to_int_id z : is_int z → to_int z = z.
Proof.
  unfold is_int, int_min, int_max, to_int. intros.
  rewrite Z.mod_small; lia.
Qed.

Lemma age_param_null a : age_param a = PNull ↔ a = 0.
Proof. unfold age_param. case_bool_decide; naive_solver. Qed.

Lemma age_param_int a : a ≠ 0 → age_param a = PInt a.
Proof. intros. unfold age_param. by rewrite bool_decide_eq_false_2. Qed.

(** ** Binding *)

(** Whatever the statement had bound before, after the two bindings of an
    iteration it is [insert_statement u]. *)
Lemma bind_user (u : User) (ps : PreparedStatement) :
  ps_sql ps = insert_sql → two_placeholders ps →
  (if bool_decide (age u = 0) then setNull 2 0 (setString 1 (name u) ps)
   else setInt 2 (age u) (setString 1 (name u) ps)) = insert_statement u.
Proof.
  intros Hsql Hps. unfold insert_statement, age_param.
  destruct ps as [sql ps]. simpl in *. subst sql.
  assert (∀ p : Param, <[2%nat:=p]> (<[1%nat:=PString (name u)]> ps) =
            ({[1%nat := PString (name u); 2%nat := p]} : gmap nat Param)) as E.
  { intros p. apply map_eq. intros i.
    destruct (decide (i = 2%nat)) as [->|H2]; [by simplify_map_eq|].
    destruct (decide (i = 1%nat)) as [->|H1]; [by simplify_map_eq|].
    transitivity (@None Param); [|by simplify_map_eq].
    rewrite !lookup_insert_ne by done. by apply Hps. }
  case_bool_decide; unfold setNull, setInt, setString; simpl; by rewrite E.
Qed.

Lemma two_placeholders_empty sql : two_placeholders (mkPS sql ∅).
Proof. intros i _ _. apply lookup_empty. Qed.

Lemma two_placeholders_insert_statement u :
  two_placeholders (insert_statement u).
Proof. intros i H1 H2. unfold insert_statement. simpl. by simplify_map_eq. Qed.

Lemma bind_update (n : string) (a : Z) :
  setString 2 n (setInt 1 a (mkPS update_sql ∅)) = update_statement n a.
Proof.
  unfold setString, setInt, update_statement. simpl. f_equal.
  all: apply map_eq; intros i.
  all: destruct (decide (i = 2%nat)) as [->|H2]; [by simplify_map_eq|].
  all: destruct (decide (i = 1%nat)) as [->|H1]; by simplify_map_eq.
Qed.

(** ** insertUsersBulk *)

Lemma insert_each_calls {W} (h : handler W) users ps w :
  ps_sql ps = insert_sql → two_placeholders ps →
  let '(r, _, t) := run h (insert_each ps users) w in
  calls t `prefix_of`
    ((λ u, Any (PsExecuteUpdate (insert_statement u))) <$> users)
  ∧ (r = inr tt →
     calls t = (λ u, Any (PsExecuteUpdate (insert_statement u))) <$> users).
Proof.
  revert ps w. induction users as [|u users IH]; intros ps w Hsql Hps.
  { simpl. by split. }
  cbn [insert_each]. rewrite (bind_user u ps Hsql Hps).
  rewrite run_bind. unfold executeUpdate. rewrite run_call.
  destruct (h Z (PsExecuteUpdate (insert_statement u)) w) as [[e|n] w1];
    cbn [fst snd].
  - simpl. split; [|done]. by apply prefix_cons, prefix_nil.
  - specialize (IH (insert_statement u) w1 eq_refl
                  (two_placeholders_insert_statement u)).
    destruct (run h (insert_each (insert_statement u) users) w1) as [[r w2] t].
    destruct IH as [IH1 IH2]. simpl. split.
    + by apply prefix_cons.
    + intros Hr. by rewrite IH2.
Qed.

Lemma insertUsersBulk_calls_spec {W} (h : handler W)
    (users : list User) (w : W) :
  let '(r, _, t) := run h (insertUsersBulk users) w in
  calls t `prefix_of` insertUsersBulk_calls users
  ∧ (r = inr tt → calls t = insertUsersBulk_calls users).
Proof.
  unfold insertUsersBulk, prepareStatement. rewrite run_bind, run_bind, run_call.
  destruct (h unit (PrepareStatement insert_sql) w) as [[e|[]] w1];
    cbn [fst snd].
  { simpl. split; [by apply prefix_cons, prefix_nil|done]. }
  cbn [run mret prog_ret].
  pose proof (insert_each_calls h users (mkPS insert_sql ∅) w1 eq_refl
                (two_placeholders_empty _)) as IH.
  destruct (run h (insert_each _ users) w1) as [[r w2] t].
  destruct IH as [IH1 IH2].
  simpl. split; [by apply prefix_cons|].
  intros Hr. unfold insertUsersBulk_calls. by rewrite IH2.
Qed.

Lemma insertUsersBulk_calls_no_transaction (users : list User) :
  Forall (λ c, transaction_control c = false) (insertUsersBulk_calls users).
Proof.
  unfold insertUsersBulk_calls. constructor; [done|].
  by apply Forall_fmap, Forall_true.
Qed.

(** C7.  On any connection, [insertUsersBulk] prepares the insert once and
    then executes that one statement once per record, in the order of the
    records, bound as [insertUser] binds it (age 0 as NULL).  It goes on
    as long as its calls return: it returns exactly when every call has
    returned, and then it has made all of these calls; it ends with an
    exception exactly when a call throws, that call is then its last and
    what it threw is what the function ends with.  It never switches
    autocommit, commits or rolls back. *)
Theorem insertUsersBulk_one_execution_per_record {W} (h : handler W)
    (users : list User) (w : W) :
  let '(r, _, t) := run h (insertUsersBulk users) w in
  calls t `prefix_of` insertUsersBulk_calls users
  ∧ (r = inr tt → calls t = insertUsersBulk_calls users)
  ∧ Forall (λ c, transaction_control c = false) (calls t)
  ∧ (r = inr tt ↔ Forall (λ ev, thrown_by ev = None) t)
  ∧ (∀ e, r = inl e →
       ∃ t0 X (c : Call X),
         t = t0 ++ [EvCall c (inl e)]
         ∧ Forall (λ ev, thrown_by ev = None) t0).
Proof.
  pose proof (insertUsersBulk_calls_spec h users w) as H.
  pose proof (propagates_run h (insertUsersBulk users) w
                (propagates_insertUsersBulk users)) as Hp.
  destruct (run h (insertUsersBulk users) w) as [[r w1] t].
  cbn [fst snd] in Hp.
  destruct H as [[k Hk] H2]. split; [by exists k|]. split; [done|].
  split.
  { pose proof (insertUsersBulk_calls_no_transaction users) as Hf.
    rewrite Hk in Hf. by apply Forall_app in Hf as [? _]. }
  destruct r as [e|[]].
  - destruct Hp as (t0 & X & c & -> & Ht0). split.
    + split; [done|]. intros Hall.
      apply Forall_app in Hall as [_ Hlast].
      inversion Hlast as [|? ? Hev _]. discriminate Hev.
    + intros e' [= <-]. by exists t0, X, c.
  - split; [done|]. by intros e.
Qed.

(** ** insertUser *)

Lemma run_insertUser {W} (h : handler W) (u : User)
    (n : Z) (q : QueryResult) (w w1 w2 w3 w4 : W) :
  h _ (PrepareStatement insert_sql) w = (inr tt, w1) →
  h _ (PsExecuteUpdate (insert_statement u)) w1 = (inr n, w2) →
  h _ CreateStatement w2 = (inr tt, w3) →
  h _ (ExecuteQuery "SELECT LAST_INSERT_ID()") w3 = (inr q, w4) →
  run h (insertUser u) w = (read_generated_id q, w4, insertUser_trace u n q).
Proof.
  intros E1 E2 E3 E4. unfold insertUser, prepareStatement.
  rewrite !run_bind, run_call, E1. cbn [fst snd run mret prog_ret app].
  rewrite (bind_user u (mkPS insert_sql ∅) eq_refl (two_placeholders_empty _)).
  rewrite !run_bind. unfold executeUpdate, createStatement, executeQuery.
  rewrite run_call, E2. cbn [fst snd].
  rewrite !run_bind, run_call, E3. cbn [fst snd].
  rewrite !run_bind, run_call, E4. cbn [fst snd run mret prog_ret app].
  unfold next, open_result, read_generated_id. cbn [rs_pending rs_columns].
  destruct (qr_rows q) as [|[|x cells] rest]; reflexivity.
Qed.

(** C4.  On any connection whose four calls return: [insertUser] binds
    placeholder 2 to NULL exactly when the age is 0 and to the integer age
    otherwise, executes the insert, then reads the last generated
    identifier on the same connection and returns it, or 0 when that read
    has no row. *)
Theorem insertUser_binds_and_reads_back {W} (h : handler W) (u : User)
    (n : Z) (q : QueryResult) (w w1 w2 w3 w4 : W) :
  h _ (PrepareStatement insert_sql) w = (inr tt, w1) →
  h _ (PsExecuteUpdate (insert_statement u)) w1 = (inr n, w2) →
  h _ CreateStatement w2 = (inr tt, w3) →
  h _ (ExecuteQuery "SELECT LAST_INSERT_ID()") w3 = (inr q, w4) →
  (ps_params (insert_statement u) !! 2%nat = Some PNull ↔ age u = 0)
  ∧ (age u ≠ 0 → ps_params (insert_statement u) !! 2%nat = Some (PInt (age u)))
  ∧ ∃ res,
      run h (insertUser u) w =
        (res, w4,
         [EvCall (PrepareStatement insert_sql) (inr tt);
          EvCall (PsExecuteUpdate (insert_statement u)) (inr n);
          EvCall CreateStatement (inr tt);
          EvCall (ExecuteQuery "SELECT LAST_INSERT_ID()") (inr q)])
      ∧ (qr_rows q = [] → res = inr 0)
      ∧ (∀ i cells rest,
           qr_rows q = (CInt i :: cells) :: rest → is_int i → res = inr i).
Proof.
  intros E1 E2 E3 E4. split; [|split].
  - unfold insert_statement. simpl. rewrite lookup_insert_ne by done.
    rewrite lookup_singleton_eq.
    split; [intros [= H%age_param_null]|intros H]; [done|].
    f_equal. by apply age_param_null.
  - intros Hne. unfold insert_statement. simpl. rewrite lookup_insert_ne by done.
    rewrite lookup_singleton_eq. by rewrite age_param_int.
  - exists (read_generated_id q). split; [by eapply run_insertUser|].
    unfold read_generated_id. split; [by intros ->|].
    intros i cells rest -> Hi. cbn [cell_int]. by rewrite to_int_id.
Qed.

Lemma insertUser_binds_and_reads_back_witness :
  (run MySQL.server (insertUser (mkUser 0 "carol" 32)) ready).1.1 = inr 1.
Proof.
  destruct (insertUser_binds_and_reads_back MySQL.server
              (mkUser 0 "carol" 32) 1
              (mkQR ["LAST_INSERT_ID()"] [[CInt 1]])
              ready ready
              (inserted (mkUser 0 "carol" 32) "testdb" (MySQL.mkTable [] 1) ready)
              (inserted (mkUser 0 "carol" 32) "testdb" (MySQL.mkTable [] 1) ready)
              (inserted (mkUser 0 "carol" 32) "testdb" (MySQL.mkTable [] 1) ready))
    as (_ & _ & res & Hrun & _ & Hid).
  - vm_compute. reflexivity.
  - vm_compute. reflexivity.
  - vm_compute. reflexivity.
  - vm_compute. reflexivity.
  - rewrite Hrun. simpl. eapply Hid; [reflexivity|]. by compute.
Defined.

(** ** updateUserAgeByName *)

Lemma run_updateUserAgeByName {W} (h : handler W) (n : string) (a k : Z)
    (w w1 w2 : W) :
  h _ (PrepareStatement update_sql) w = (inr tt, w1) →
  h _ (PsExecuteUpdate (update_statement n a)) w1 = (inr k, w2) →
  run h (updateUserAgeByName n a) w =
    (inr k, w2,
     [EvCall (PrepareStatement update_sql) (inr tt);
      EvCall (PsExecuteUpdate (update_statement n a)) (inr k)]).
Proof.
  intros E1 E2. unfold updateUserAgeByName, prepareStatement.
  rewrite !run_bind, run_call, E1. cbn [fst snd run mret prog_ret app].
  rewrite bind_update. unfold executeUpdate. by rewrite run_call, E2.
Qed.

Lemma updateUserAgeByName_calls_prefix {W} (h : handler W) n a w :
  calls (run h (updateUserAgeByName n a) w).2
    `prefix_of` updateUserAgeByName_calls n a.
Proof.
  unfold updateUserAgeByName, prepareStatement, updateUserAgeByName_calls.
  rewrite !run_bind, run_call.
  destruct (h unit (PrepareStatement update_sql) w) as [[e|[]] w1];
    cbn [fst snd].
  { simpl. by apply prefix_cons, prefix_nil. }
  cbn [run mret prog_ret app]. rewrite bind_update.
  unfold executeUpdate. rewrite run_call. simpl. by apply prefix_cons.
Qed.

(** ** getUsersByMinAge *)

(** [while_next] is the loop [while (rs->next()) body] on the cursor. *)
Lemma while_next_step {A} (body : ResultSet → A → prog A) (rs : ResultSet)
    (acc : A) :
  while_next body (rs_columns rs) (rs_pending rs) acc =
    let '(more, rs') := next rs in
    if more
    then acc' ← body rs' acc;
         while_next body (rs_columns rs') (rs_pending rs') acc'
    else mret acc.
Proof. unfold next. by destruct (rs_pending rs). Qed.

Lemma read_user_row {W} (h : handler W) r rest out w :
  run h (read_user (mkRS users_columns (Some (row_cells r)) rest) out) w
  = (inr (out ++ [surfaced r]), w, []).
Proof.
  unfold read_user, surfaced, row_cells.
  destruct r as [i n [a|]]; reflexivity.
Qed.

Lemma read_rows {W} (h : handler W) rs out w :
  run h (while_next read_user users_columns (row_cells <$> rs) out) w
  = (inr (out ++ (surfaced <$> rs)), w, []).
Proof.
  revert out. induction rs as [|r rs IH]; intros out.
  { simpl. by rewrite app_nil_r. }
  cbn [fmap list_fmap while_next]. rewrite run_bind, read_user_row, IH.
  by rewrite <- app_assoc.
Qed.

Lemma run_getUsersByMinAge {W} (h : handler W) m rs w w1 w2 :
  h _ (PrepareStatement select_sql) w = (inr tt, w1) →
  h _ (PsExecuteQuery (select_statement m)) w1 =
    (inr (mkQR users_columns (row_cells <$> rs)), w2) →
  run h (getUsersByMinAge m) w =
    (inr (surfaced <$> rs), w2,
     [EvCall (PrepareStatement select_sql) (inr tt);
      EvCall (PsExecuteQuery (select_statement m))
        (inr (mkQR users_columns (row_cells <$> rs)))]).
Proof.
  intros E1 E2. unfold getUsersByMinAge, prepareStatement, psExecuteQuery.
  rewrite !run_bind, run_call, E1. cbn [fst snd run mret prog_ret app].
  change (setInt 1 m (mkPS select_sql ∅)) with (select_statement m).
  rewrite !run_bind, run_call, E2. cbn [fst snd run mret prog_ret app].
  unfold open_result. cbn [rs_columns rs_pending qr_columns qr_rows].
  by rewrite read_rows.
Qed.

End CommandLayer.

(* ===================================================================== *)
(** * The statements of the program on the server model                  *)
(* ===================================================================== *)

Module ServerSteps.
Import Cpp Sql MySQL Props RunFacts CommandLayer Texts.

Lemma users_table_inr w db t :
  users_table w = inr (db, t) ↔
  current w = Some db ∧ databases w !! db = Some (Some t).
Proof.
  unfold users_table. split.
  - destruct (current w) as [db'|]; [|done].
    destruct (databases w !! db') as [[t'|]|] eqn:E; [|done..].
    by intros [= <- <-].
  - by intros [-> ->].
Qed.

Lemma users_table_write w db t t' b :
  users_table w = inr (db, t) →
  users_table (set_databases b (<[db := Some t']> (databases w)) w)
  = inr (db, t').
Proof.
  intros [Hc Hd]%users_table_inr. apply users_table_inr. simpl.
  split; [done|]. by rewrite lookup_insert_eq.
Qed.

(** ** What the statements say, once read *)

Lemma check_insert_users : check_insert ["name"; "age"] 2 = None.
Proof. by vm_compute. Qed.

Lemma check_update_users : check_update "age" "name" = None.
Proof. by vm_compute. Qed.

Lemma check_select_users :
  check_select ["id"; "name"; "age"] (Some "age")
    [("age", Desc); ("id", Asc)] = None.
Proof. by vm_compute. Qed.

Lemma check_select_all : check_select ["id"; "name"; "age"] None [("id", Asc)] = None.
Proof. by vm_compute. Qed.

Lemma bound_name ps : bound "name" ["name"; "age"] ps = Some (ps !! 1%nat).
Proof. reflexivity. Qed.

Lemma bound_age ps : bound "age" ["name"; "age"] ps = Some (ps !! 2%nat).
Proof. reflexivity. Qed.

Lemma cells_of_row r : (λ c, field c r) <$> ["id"; "name"; "age"] = row_cells r.
Proof. reflexivity. Qed.

Lemma selected_users order rows :
  selected ["id"; "name"; "age"] order rows =
    mkQR users_columns (row_cells <$> merge_sort (row_le order) rows).
Proof. reflexivity. Qed.

Lemma at_least_age m r : at_least "age" m r ↔ age_at_least m r.
Proof.
  unfold at_least, age_at_least.
  change (int_key "age" r) with (Some (r_age r)). by destruct (r_age r).
Qed.

(** [ORDER BY age DESC, id ASC] *)
Lemma row_le_age_id r1 r2 :
  row_le [("age", Desc); ("id", Asc)] r1 r2 ↔ by_age_desc_id_asc r1 r2.
Proof.
  unfold row_le, by_age_desc_id_asc. cbn [row_cmp].
  change (int_key "age" r1) with (Some (r_age r1)).
  change (int_key "age" r2) with (Some (r_age r2)).
  change (int_key "id" r1) with (Some (Some (r_id r1))).
  change (int_key "id" r2) with (Some (Some (r_id r2))).
  destruct r1 as [i1 n1 [a1|]], r2 as [i2 n2 [a2|]]; simpl.
  all: repeat match goal with
              | |- context [(?a ?= ?b)] => destruct (Z.compare_spec a b); simpl
              end.
  all: split; [intros Hc|intros [Hx|[Hx Hy]]; simplify_eq; simpl in *;
                        try done; lia].
  all: first [by destruct Hc | done | left; simpl; lia | left; done
             | right; split; [congruence|lia]].
Qed.

(** [ORDER BY id] *)
Lemma row_le_id r1 r2 : row_le [("id", Asc)] r1 r2 ↔ by_id r1 r2.
Proof.
  unfold row_le, by_id. cbn [row_cmp].
  change (int_key "id" r1) with (Some (Some (r_id r1))).
  change (int_key "id" r2) with (Some (Some (r_id r2))). simpl.
  destruct (Z.compare_spec (r_id r1) (r_id r2)); split; try done; lia.
Qed.

#[global] Instance by_age_desc_id_asc_total : Total by_age_desc_id_asc.
Proof.
  intros [i1 n1 [a1|]] [i2 n2 [a2|]]; unfold by_age_desc_id_asc; simpl.
  - destruct (Z.lt_trichotomy a1 a2) as [?|[->|?]]; [auto..| |auto].
    destruct (Z.le_ge_cases i1 i2); auto.
  - auto.
  - auto.
  - destruct (Z.le_ge_cases i1 i2); auto.
Qed.

#[global] Instance by_age_desc_id_asc_trans : Transitive by_age_desc_id_asc.
Proof.
  intros [i1 n1 [a1|]] [i2 n2 [a2|]] [i3 n3 [a3|]];
    unfold by_age_desc_id_asc; simpl; intros [?|[? ?]] [?|[? ?]];
    simplify_eq; try done; try (left; lia); try (right; split; [done|lia]);
    try (left; done).
Qed.

#[global] Instance row_le_age_id_total :
  Total (row_le [("age", Desc); ("id", Asc)]).
Proof.
  intros r1 r2. rewrite !row_le_age_id. apply by_age_desc_id_asc_total.
Qed.

#[global] Instance row_le_age_id_trans :
  Transitive (row_le [("age", Desc); ("id", Asc)]).
Proof.
  intros r1 r2 r3. rewrite !row_le_age_id. apply by_age_desc_id_asc_trans.
Qed.

#[global] Instance row_le_id_total : Total (row_le [("id", Asc)]).
Proof. intros r1 r2. rewrite !row_le_id. unfold by_id. lia. Qed.

#[global] Instance row_le_id_trans : Transitive (row_le [("id", Asc)]).
Proof. intros r1 r2 r3. rewrite !row_le_id. unfold by_id. lia. Qed.

(** ** The calls of the command layer *)

Section OnTable.
Context (w : Server) (db : string) (t : Table).
Hypothesis Hlive : connected w = true.
Hypothesis Htable : users_table w = inr (db, t).

Lemma table_named_users : table_named "users" w = inr (db, t).
Proof. unfold table_named. by rewrite decide_True by done. Qed.

Lemma server_prepare_insert :
  server _ (PrepareStatement insert_sql) w = (inr tt, w).
Proof.
  unfold server. cbv beta iota. rewrite Hlive.
  unfold prepare. rewrite statement_insert. cbn [check].
  by rewrite table_named_users, check_insert_users.
Qed.

Lemma server_prepare_update :
  server _ (PrepareStatement update_sql) w = (inr tt, w).
Proof.
  unfold server. cbv beta iota. rewrite Hlive.
  unfold prepare. rewrite statement_update. cbn [check].
  by rewrite table_named_users, check_update_users.
Qed.

Lemma server_prepare_select :
  server _ (PrepareStatement select_sql) w = (inr tt, w).
Proof.
  unfold server. cbv beta iota. rewrite Hlive.
  unfold prepare. rewrite statement_select. cbn [check].
  by rewrite table_named_users, check_select_users.
Qed.

(** The insert as the server runs it, for any two parameters. *)
Lemma server_execute_insert ps :
  ps_sql ps = insert_sql →
  server _ (PsExecuteUpdate ps) w = insert_row ["name"; "age"] (ps_params ps) w.
Proof.
  intros Hsql. unfold server. cbv beta iota. rewrite Hlive.
  unfold execute_update. rewrite Hsql, statement_insert. cbn [check].
  by rewrite table_named_users, check_insert_users.
Qed.

Lemma insert_row_users ps n a :
  ps !! 1%nat = Some (PString n) → (char_length n ≤ 100)%nat →
  int_column (ps !! 2%nat) = inr a → t_auto t ≤ int_max →
  insert_row ["name"; "age"] ps w =
    if decide (fold n ∈ keys (t_rows t)) then
      (inl (Sql duplicate_name), rejected db t w)
    else
      (inr 1,
       set_last_insert_id (t_auto t)
         (set_databases false
            (<[db := Some (mkTable (t_rows t ++ [mkRow (t_auto t) n a])
                             (t_auto t + 1))]> (databases w)) w)).
Proof.
  intros Hn Hlen Ha Hroom. unfold insert_row.
  rewrite Htable, bound_name, bound_age, Hn.
  change (default (Some PNull) (Some (ps !! 2%nat))) with (ps !! 2%nat).
  rewrite insert_name_within by done. rewrite Ha. cbv zeta.
  rewrite decide_False by lia. reflexivity.
Qed.

Lemma int_column_age_param a :
  is_int a → int_column (Some (age_param a)) = inr (stored_age a).
Proof.
  intros Ha. unfold age_param, stored_age, int_column.
  case_bool_decide; [done|]. by rewrite decide_True by done.
Qed.

Lemma insert_statement_name u :
  ps_params (insert_statement u) !! 1%nat = Some (PString (name u)).
Proof. unfold insert_statement. cbn [ps_params]. by rewrite lookup_insert_eq. Qed.

Lemma insert_statement_age u :
  ps_params (insert_statement u) !! 2%nat = Some (age_param (age u)).
Proof.
  unfold insert_statement. cbn [ps_params].
  rewrite lookup_insert_ne by done. by rewrite lookup_singleton_eq.
Qed.

Lemma server_insert u :
  (char_length (name u) ≤ 100)%nat → is_int (age u) →
  t_auto t ≤ int_max → unused (name u) (t_rows t) →
  server _ (PsExecuteUpdate (insert_statement u)) w
  = (inr 1, inserted u db t w).
Proof.
  intros Hlen Hage Hauto Hfresh.
  rewrite server_execute_insert by done.
  rewrite (insert_row_users _ (name u) (stored_age (age u)));
    [|apply insert_statement_name|done
     |rewrite insert_statement_age; by apply int_column_age_param|done].
  by rewrite decide_False by done.
Qed.

(** The name is taken, the case of letters ignored: error 1062, no row,
    and the identifier is used up. *)
Lemma server_insert_duplicate u :
  (char_length (name u) ≤ 100)%nat → is_int (age u) →
  t_auto t ≤ int_max → ¬ unused (name u) (t_rows t) →
  server _ (PsExecuteUpdate (insert_statement u)) w
  = (inl (Sql duplicate_name), rejected db t w).
Proof.
  intros Hlen Hage Hauto Hused.
  rewrite server_execute_insert by done.
  rewrite (insert_row_users _ (name u) (stored_age (age u)));
    [|apply insert_statement_name|done
     |rewrite insert_statement_age; by apply int_column_age_param|done].
  rewrite decide_True; [done|].
  unfold unused in Hused. by destruct (decide (fold (name u) ∈ keys (t_rows t))).
Qed.

Lemma server_update n a :
  is_int a →
  server _ (PsExecuteUpdate (update_statement n a)) w =
    (inr (Z.of_nat (length (filter (changed_by n (Some a)) (t_rows t)))),
     updated n a db t w).
Proof.
  intros Ha. unfold server. cbv beta iota. rewrite Hlive.
  unfold execute_update. cbn [update_statement ps_sql].
  rewrite statement_update. cbn [check].
  rewrite table_named_users, check_update_users.
  unfold update_age, update_statement. cbn [ps_params]. rewrite Htable.
  rewrite lookup_insert_eq, lookup_insert_ne, lookup_singleton_eq by done.
  unfold int_column. by rewrite decide_True by done.
Qed.

Lemma server_select m :
  server _ (PsExecuteQuery (select_statement m)) w =
    (inr (mkQR users_columns
            (row_cells <$> merge_sort (row_le [("age", Desc); ("id", Asc)])
                             (filter (age_at_least m) (t_rows t)))), w).
Proof.
  unfold server. cbv beta iota. rewrite Hlive.
  unfold execute_query. cbn [select_statement ps_sql].
  rewrite statement_select. cbn [check].
  rewrite table_named_users, check_select_users.
  unfold select_rows, select_statement. cbn [ps_params]. rewrite Htable.
  rewrite lookup_singleton_eq, selected_users.
  by rewrite (list_filter_iff _ _ _ (at_least_age m)).
Qed.

Lemma server_select_all :
  server _ (ExecuteQuery "SELECT id, name, age FROM users ORDER BY id") w =
    (inr (mkQR users_columns
            (row_cells <$> merge_sort (row_le [("id", Asc)]) (t_rows t))), w).
Proof.
  unfold server. cbv beta iota. rewrite Hlive.
  unfold query_text. rewrite statement_select_all. cbn [check].
  rewrite table_named_users, check_select_all.
  unfold select_rows. rewrite Htable. by rewrite selected_users.
Qed.

Lemma server_delete :
  server _ (Execute "DELETE FROM users") w =
    (inr false,
     set_databases false
       (<[db := Some (mkTable [] (t_auto t))]> (databases w)) w).
Proof.
  unfold server. cbv beta iota. rewrite Hlive.
  unfold exec_text. rewrite statement_delete.
  unfold delete_from. by rewrite table_named_users.
Qed.

End OnTable.

Lemma server_last_insert_id w :
  connected w = true →
  server _ (ExecuteQuery "SELECT LAST_INSERT_ID()") w =
    (inr (mkQR ["LAST_INSERT_ID()"] [[CInt (last_insert_id w)]]), w).
Proof.
  intros Hlive. unfold server. cbv beta iota. rewrite Hlive.
  unfold query_text. by rewrite statement_last_insert_id.
Qed.

Lemma server_create_statement w :
  connected w = true → server _ CreateStatement w = (inr tt, w).
Proof. intros Hlive. unfold server. cbv beta iota. by rewrite Hlive. Qed.

(** ** Names *)

(** A name that no row has under the collation is the name of no row. *)
Lemma unused_name n (rows : list Row) :
  unused n rows → n ∉ r_name <$> rows.
Proof.
  unfold unused, keys. intros Hn (r & -> & Hr)%list_elem_of_fmap.
  apply Hn. apply list_elem_of_fmap. by exists r.
Qed.

(** ** After an insert *)

Lemma inserted_table w db t u :
  users_table w = inr (db, t) →
  users_table (inserted u db t w) = inr (db, new_table t u).
Proof.
  intros Htable. unfold inserted.
  pose proof (users_table_write w db t (new_table t u) false Htable) as H.
  apply users_table_inr in H as [Hc Hd]. by apply users_table_inr.
Qed.

Lemma new_table_wf t u :
  wf_table t → t_auto t ≤ int_max → is_int (age u) → wf_table (new_table t u).
Proof.
  intros [[H1 H2] Hrows] Hroom Hage. split; simpl; [lia|].
  apply Forall_app. split.
  - eapply Forall_impl; [exact Hrows|]. intros r [? ?]. split; [lia|done].
  - constructor; [|done]. split; simpl; [lia|].
    unfold stored_age. by case_bool_decide.
Qed.

Lemma run_insertUser_server w db t u :
  connected w = true → users_table w = inr (db, t) → wf_table t →
  t_auto t ≤ int_max → (char_length (name u) ≤ 100)%nat → is_int (age u) →
  unused (name u) (t_rows t) →
  run server (insertUser u) w =
    (inr (t_auto t), inserted u db t w,
     insertUser_trace u 1 (mkQR ["LAST_INSERT_ID()"] [[CInt (t_auto t)]])).
Proof.
  intros Hlive Htable [[H1 H2] Hrows] Hroom Hlen Hage Hfresh.
  rewrite (run_insertUser server u 1
             (mkQR ["LAST_INSERT_ID()"] [[CInt (t_auto t)]])
             w w (inserted u db t w) (inserted u db t w) (inserted u db t w)).
  - unfold read_generated_id. cbn [qr_rows cell_int].
    by rewrite to_int_id by (unfold is_int, int_min, int_max in *; lia).
  - by eapply server_prepare_insert.
  - by eapply server_insert.
  - by apply server_create_statement.
  - by rewrite server_last_insert_id.
Qed.

(** ** The order of the filtered read *)

Lemma older_first_surfaced auto r1 r2 :
  wf_row auto r1 → wf_row auto r2 → auto ≤ int_max + 1 →
  is_Some (r_age r1) → is_Some (r_age r2) →
  by_age_desc_id_asc r1 r2 → older_first (surfaced r1) (surfaced r2).
Proof.
  intros [Hi1 Ha1] [Hi2 Ha2] Hauto [a1 E1] [a2 E2].
  unfold by_age_desc_id_asc, older_first, surfaced. rewrite E1, E2 in *.
  simpl in *. rewrite !to_int_id by (unfold is_int, int_min, int_max in *; lia).
  intros [?|[[= ->] ?]]; [by left|by right].
Qed.

Lemma surfaced_wf auto r :
  wf_row auto r → auto ≤ int_max + 1 →
  surfaced r = mkUser (r_id r) (r_name r) (default 0 (r_age r)).
Proof.
  intros [Hi Ha] Hauto. unfold surfaced.
  rewrite to_int_id by (unfold is_int, int_min, int_max in *; lia).
  destruct (r_age r); simpl in *; [|done]. by rewrite to_int_id.
Qed.

Lemma run_getUsersByMinAge_server (w : Server) db t (m : Z) :
  connected w = true → users_table w = inr (db, t) → wf_table t →
  ∃ rs,
    run server (getUsersByMinAge m) w =
      (inr (surfaced <$> rs), w,
       [EvCall (PrepareStatement select_sql) (inr tt);
        EvCall (PsExecuteQuery (select_statement m))
          (inr (mkQR users_columns (row_cells <$> rs)))])
    ∧ rs ≡ₚ filter (age_at_least m) (t_rows t)
    ∧ StronglySorted older_first (surfaced <$> rs)
    ∧ Forall (λ r, surfaced r = mkUser (r_id r) (r_name r) (default 0 (r_age r)))
        rs.
Proof.
  intros Hlive Htable [[_ Hauto] Hrows].
  set (rs := merge_sort (row_le [("age", Desc); ("id", Asc)])
               (filter (age_at_least m) (t_rows t))).
  assert (rs ≡ₚ filter (age_at_least m) (t_rows t)) as Hperm
    by apply merge_sort_Permutation.
  assert (Forall (λ r, wf_row (t_auto t) r ∧ is_Some (r_age r)) rs) as Hgood.
  { rewrite Hperm. apply Forall_forall. intros r [Hm Hr]%list_elem_of_filter.
    split; [by eapply Forall_forall in Hrows|].
    unfold age_at_least in Hm. by destruct (r_age r). }
  exists rs. split; [|split; [done|split]].
  - eapply run_getUsersByMinAge.
    + by eapply server_prepare_select.
    + by eapply server_select.
  - assert (StronglySorted (row_le [("age", Desc); ("id", Asc)]) rs) as Hs.
    { apply StronglySorted_merge_sort; apply _. }
    clear Hperm. induction Hs as [|r rs Hs IH Hall]; csimpl; constructor.
    + apply IH. by eapply Forall_cons_1.
    + apply Forall_fmap. apply Forall_cons_1 in Hgood as [[Hr Hsome] Hgood].
      rewrite Forall_forall in Hall, Hgood. apply Forall_forall. intros r' Hin.
      destruct (Hgood r' Hin) as [Hr' Hsome'].
      eapply older_first_surfaced; eauto. by apply row_le_age_id, Hall.
  - eapply Forall_impl; [exact Hgood|]. intros r [Hr _]. by eapply surfaced_wf.
Qed.

End ServerSteps.
(* ===================================================================== *)
(** * Reading and writing users on the server                            *)
(* ===================================================================== *)

Module Queries.
Import Cpp Sql MySQL Props RunFacts CommandLayer Texts ServerSteps.

(** ** selectByMinAge *)

(** C5.  The text that [getUsersByMinAge] prepares says: the columns id,
    name, age of [users], the rows with [age >= ?], [ORDER BY age DESC,
    id ASC].  On the server, which runs what the text says,
    [getUsersByMinAge m] returns one list holding the rows with a
    non-NULL age of at least [m], ordered by age descending and then
    identifier ascending.  On any connection, a fetched row whose age is
    NULL comes out with age 0.  With (bob,31), (carol,32), (alice,25)
    stored and [m] = 25 the order is carol, bob, alice. *)
Theorem getUsersByMinAge_ordered (w : Server) db t (m : Z) :
  connected w = true → users_table w = inr (db, t) → wf_table t →
  statement select_sql =
    Some (SelectFrom ["id"; "name"; "age"] "users" (Some "age")
            [("age", Desc); ("id", Asc)])
  ∧ (∃ rs,
     run server (getUsersByMinAge m) w =
       (inr (surfaced <$> rs), w,
        [EvCall (PrepareStatement select_sql) (inr tt);
         EvCall (PsExecuteQuery (select_statement m))
           (inr (mkQR users_columns (row_cells <$> rs)))])
     ∧ rs ≡ₚ filter (age_at_least m) (t_rows t)
     ∧ StronglySorted older_first (surfaced <$> rs)
     ∧ Forall (λ r, surfaced r = mkUser (r_id r) (r_name r) (default 0 (r_age r)))
         rs)
  ∧ (∀ W (h : handler W) rs w0 w1 w2,
       h _ (PrepareStatement select_sql) w0 = (inr tt, w1) →
       h _ (PsExecuteQuery (select_statement m)) w1 =
         (inr (mkQR users_columns (row_cells <$> rs)), w2) →
       (run h (getUsersByMinAge m) w0).1.1 = inr (surfaced <$> rs)
       ∧ Forall (λ r, r_age r = None → age (surfaced r) = 0) rs)
  ∧ (∀ i1 i2 i3 auto (s : Server),
       connected s = true →
       users_table s =
         inr (db, mkTable [mkRow i1 "bob" (Some 31); mkRow i2 "carol" (Some 32);
                           mkRow i3 "alice" (Some 25)] auto) →
       ∃ us, (run server (getUsersByMinAge 25) s).1.1 = inr us
             ∧ name <$> us = ["carol"; "bob"; "alice"]
             ∧ age <$> us = [32; 31; 25]).
Proof.
  intros Hlive Htable Hwf. split; [exact statement_select|].
  split; [by eapply run_getUsersByMinAge_server|].
  split.
  - intros W h rs w0 w1 w2 E1 E2.
    rewrite (run_getUsersByMinAge h m rs w0 w1 w2 E1 E2). split; [done|].
    apply Forall_forall. intros r _ Hr. unfold surfaced. by rewrite Hr.
  - intros i1 i2 i3 auto s Hs Hts.
    erewrite run_getUsersByMinAge.
    2:{ by eapply server_prepare_select. }
    2:{ by eapply server_select. }
    eexists. split; [reflexivity|]. by split.
Qed.

Lemma wf_demo_table : wf_table (mkTable demo_rows 4).
Proof.
  split; [by compute|]. unfold demo_rows, wf_row, is_int, int_min, int_max.
  repeat constructor; simpl; lia.
Qed.

Lemma plain_demo_rows : plain_rows demo_rows.
Proof. by repeat constructor. Qed.

Lemma getUsersByMinAge_ordered_witness :
  ∃ rs, (run server (getUsersByMinAge 25) populated).1.1 = inr (surfaced <$> rs)
        ∧ StronglySorted older_first (surfaced <$> rs).
Proof.
  destruct (getUsersByMinAge_ordered populated "testdb" (mkTable demo_rows 4) 25)
    as (_ & (rs & Hrun & _ & Hsorted & _) & _).
  - reflexivity.
  - reflexivity.
  - exact wf_demo_table.
  - exists rs. by rewrite Hrun.
Defined.

(** Equal ages come out by ascending identifier, whatever the order in
    which the rows are stored. *)
Example getUsersByMinAge_breaks_ties_by_id :
  (run server (getUsersByMinAge 30)
     (mkServer true
        {["testdb" := Some (mkTable [mkRow 7 "gil" (Some 40); mkRow 3 "eve" (Some 40);
                                     mkRow 5 "dan" (Some 29); mkRow 4 "fay" (Some 52);
                                     mkRow 6 "hal" None] 8)]}
        ∅ (Some "testdb") true 7)).1.1
  = inr [mkUser 4 "fay" 52; mkUser 3 "eve" 40; mkUser 7 "gil" 40].
Proof. by vm_compute. Qed.

(** ** insertOne, then selectByMinAge(0) *)

(** C2, as the code has it.  On the server, which runs what the texts of
    the two functions say: for a record whose name is made of ASCII
    letters, digits and underscores, has at most 100 characters and is
    the name of no row under the collation of the column (the case of
    letters ignored), and whose age is between 0 and the largest [int],
    on a well-formed table with room in its counter: [insertUser] returns
    a positive identifier that no row had; then [getUsersByMinAge 0]
    returns the record with that identifier, its name and its age when
    the age is not 0, and returns no record of that name when the age is
    0 (the row is stored with a NULL age, which no minimum age
    selects). *)
Theorem insertUser_then_getUsersByMinAge (w : Server) db t (u : User) :
  connected w = true → users_table w = inr (db, t) → wf_table t →
  t_auto t ≤ int_max →
  plain (name u) = true → (char_length (name u) ≤ 100)%nat →
  plain_rows (t_rows t) → unused (name u) (t_rows t) →
  0 ≤ age u ≤ int_max →
  ∃ i w1 t1 us t2,
    run server (insertUser u) w = (inr i, w1, t1)
    ∧ run server (getUsersByMinAge 0) w1 = (inr us, w1, t2)
    ∧ 0 < i ∧ (i ∉ r_id <$> t_rows t)
    ∧ (age u ≠ 0 → mkUser i (name u) (age u) ∈ us)
    ∧ (age u = 0 →
       users_table w1 = inr (db, new_table t u)
       ∧ r_age (new_row t u) = None
       ∧ name u ∉ name <$> us).
Proof.
  intros Hlive Htable Hwf Hroom _ Hlen _ Hunused Hage0.
  pose proof (unused_name _ _ Hunused) as Hfresh.
  assert (is_int (age u)) as Hint.
  { unfold is_int, int_min, int_max in *. lia. }
  pose proof (new_table_wf t u Hwf Hroom Hint) as Hwf'.
  pose proof (inserted_table w db t u Htable) as Htable'.
  destruct (run_getUsersByMinAge_server (inserted u db t w) db (new_table t u) 0)
    as (rs & Hrun & Hperm & _ & Hsurf); [exact Hlive|exact Htable'|exact Hwf'|].
  eexists (t_auto t), _, _, _, _.
  split; [eapply run_insertUser_server; eassumption|].
  split; [exact Hrun|].
  destruct Hwf as [[Hauto1 Hauto2] Hrows].
  split; [lia|]. split; [|split].
  - intros (r & Hr & Hin)%list_elem_of_fmap.
    eapply Forall_forall in Hrows as [? _]; [|done]. lia.
  - intros Hne. apply list_elem_of_fmap. exists (new_row t u).
    assert (new_row t u ∈ rs) as Hin.
    { rewrite Hperm. apply list_elem_of_filter. split.
      - unfold age_at_least, new_row, stored_age. simpl.
        rewrite bool_decide_eq_false_2 by done. lia.
      - unfold new_table. simpl. apply elem_of_app. right.
        by apply list_elem_of_singleton. }
    split; [|done]. eapply Forall_forall in Hsurf; [|done].
    rewrite Hsurf. unfold new_row, stored_age. simpl.
    by rewrite bool_decide_eq_false_2.
  - intros H0. split; [done|]. split.
    { unfold new_row, stored_age. simpl. by rewrite bool_decide_eq_true_2. }
    rewrite <- list_fmap_compose.
    intros (r & Hn & Hin)%list_elem_of_fmap. simpl in Hn.
    rewrite Hperm in Hin. apply list_elem_of_filter in Hin as [Hm Hin].
    unfold new_table in Hin. simpl in Hin.
    apply elem_of_app in Hin as [Hin|Hin%list_elem_of_singleton].
    + apply Hfresh. apply list_elem_of_fmap. eauto.
    + subst r. unfold age_at_least, new_row, stored_age in Hm. simpl in Hm.
      by rewrite bool_decide_eq_true_2 in Hm.
Qed.

Lemma insertUser_then_getUsersByMinAge_witness :
  ∃ i w1 us,
    (run server (insertUser (mkUser 0 "dave" 41)) populated).1 = (inr i, w1)
    ∧ (run server (getUsersByMinAge 0) w1).1.1 = inr us
    ∧ mkUser i "dave" 41 ∈ us.
Proof.
  destruct (insertUser_then_getUsersByMinAge populated "testdb"
              (mkTable demo_rows 4) (mkUser 0 "dave" 41))
    as (i & w1 & t1 & us & t2 & H1 & H2 & _ & _ & Hin & _).
  - reflexivity.
  - reflexivity.
  - exact wf_demo_table.
  - by compute.
  - reflexivity.
  - simpl. lia.
  - exact plain_demo_rows.
  - apply (bool_decide_unpack _). by vm_compute.
  - by compute.
  - exists i, w1, us. rewrite H1, H2. split; [done|]. split; [done|].
    by apply Hin.
Defined.

(** C2, as stated, fails: the record (dave, age 0) is inserted, with
    identifier 1, and [getUsersByMinAge 0] then returns no record at
    all. *)
Lemma zero_age_record_not_returned :
  ∃ w1 t1 t2,
    run server (insertUser (mkUser 0 "dave" 0)) ready = (inr 1, w1, t1)
    ∧ run server (getUsersByMinAge 0) w1 = (inr [], w1, t2).
Proof.
  eexists _, _, _. split.
  - vm_compute. reflexivity.
  - vm_compute. reflexivity.
Qed.

(** ** updateAgeByName *)

Lemma update_row_absent n a (rows : list Row) :
  unused n rows → update_row n a <$> rows = rows.
Proof.
  unfold unused, keys. induction rows as [|r rows IH]; [done|]. csimpl.
  intros [Hr Hrows]%not_elem_of_cons. rewrite IH by done.
  unfold update_row. by rewrite decide_False by done.
Qed.

Lemma changed_absent n a (rows : list Row) :
  unused n rows → filter (changed_by n a) rows = [].
Proof.
  unfold unused, keys. intros Hn.
  induction rows as [|r rows IH]; [done|]. csimpl in Hn.
  apply not_elem_of_cons in Hn as [Hr Hrows].
  rewrite filter_cons_False; [by apply IH|]. intros [? _]. by apply Hr.
Qed.

Lemma run_updateUserAgeByName_server w db t n a :
  connected w = true → users_table w = inr (db, t) → is_int a →
  run server (updateUserAgeByName n a) w =
    (inr (Z.of_nat (length (filter (changed_by n (Some a)) (t_rows t)))),
     updated n a db t w,
     [EvCall (PrepareStatement update_sql) (inr tt);
      EvCall (PsExecuteUpdate (update_statement n a))
        (inr (Z.of_nat (length (filter (changed_by n (Some a)) (t_rows t)))))]).
Proof.
  intros Hlive Htable Ha. eapply run_updateUserAgeByName.
  - by eapply server_prepare_update.
  - by eapply server_update.
Qed.




(** The name is compared as the collation of the column compares it:
    ALICE is alice. *)
Example updateUserAgeByName_ignores_case :
  (run server (updateUserAgeByName "ALICE" 26) populated).1.1 = inr 1.
Proof. by vm_compute. Qed.

(** ** The age 0 *)

(** [updateUserAgeByName] on any connection: it prepares its text, binds
    the age as an integer and the name as a string whatever they are, and
    executes that statement once. *)
Lemma run_updateUserAgeByName_any {W} (h : handler W) n a w :
  run h (updateUserAgeByName n a) w =
    let '(r1, w1) := h _ (PrepareStatement update_sql) w in
    match r1 with
    | inl e => (inl e, w1, [EvCall (PrepareStatement update_sql) (inl e)])
    | inr _ =>
        let '(r2, w2) :=
          h _ (PsExecuteUpdate
                 (mkPS update_sql {[1%nat := PInt a; 2%nat := PString n]})) w1 in
        (r2, w2,
         [EvCall (PrepareStatement update_sql) (inr tt);
          EvCall (PsExecuteUpdate
                    (mkPS update_sql {[1%nat := PInt a; 2%nat := PString n]}))
            r2])
    end.
Proof.
  unfold updateUserAgeByName, prepareStatement.
  rewrite !run_bind, run_call.
  destruct (h unit (PrepareStatement update_sql) w) as [[e|[]] w1];
    cbn [fst snd]; [done|].
  cbn [run mret prog_ret app]. rewrite bind_update.
  unfold executeUpdate. rewrite run_call.
  change (update_statement n a)
    with (mkPS update_sql {[1%nat := PInt a; 2%nat := PString n]}).
  by destruct (h Z _ w1) as [r2 w2].
Qed.

(** [insertUsersBulk] of one record without age, on any connection. *)
Lemma run_insertUsersBulk_zero {W} (h : handler W) i n w :
  run h (insertUsersBulk [mkUser i n 0]) w =
    let '(r1, w1) := h _ (PrepareStatement insert_sql) w in
    match r1 with
    | inl e => (inl e, w1, [EvCall (PrepareStatement insert_sql) (inl e)])
    | inr _ =>
        let '(r2, w2) :=
          h _ (PsExecuteUpdate
                 (mkPS insert_sql {[1%nat := PString n; 2%nat := PNull]})) w1 in
        (match r2 with inl e => inl e | inr _ => inr tt end, w2,
         [EvCall (PrepareStatement insert_sql) (inr tt);
          EvCall (PsExecuteUpdate
                    (mkPS insert_sql {[1%nat := PString n; 2%nat := PNull]}))
            r2])
    end.
Proof.
  unfold insertUsersBulk, prepareStatement.
  rewrite !run_bind, run_call.
  destruct (h unit (PrepareStatement insert_sql) w) as [[e|[]] w1];
    cbn [fst snd]; [done|].
  cbn [run mret prog_ret app insert_each].
  rewrite (bind_user (mkUser i n 0) (mkPS insert_sql ∅) eq_refl
             (two_placeholders_empty _)).
  change (insert_statement (mkUser i n 0))
    with (mkPS insert_sql {[1%nat := PString n; 2%nat := PNull]}).
  rewrite run_bind. unfold executeUpdate. rewrite run_call.
  by destruct (h Z _ w1) as [[e|k] w2].
Qed.

(** The first two calls of [insertUser] for a record without age. *)
Lemma insertUser_zero_calls {W} (h : handler W) i n w w1 :
  h _ (PrepareStatement insert_sql) w = (inr tt, w1) →
  ∃ rest,
    (run h (insertUser (mkUser i n 0)) w).2 =
      EvCall (PrepareStatement insert_sql) (inr tt)
      :: EvCall (PsExecuteUpdate
                   (mkPS insert_sql {[1%nat := PString n; 2%nat := PNull]}))
           (h _ (PsExecuteUpdate
                   (mkPS insert_sql {[1%nat := PString n; 2%nat := PNull]}))
              w1).1
      :: rest.
Proof.
  intros E1. unfold insertUser, prepareStatement.
  rewrite !run_bind, run_call, E1. cbn [fst snd run mret prog_ret app].
  rewrite (bind_user (mkUser i n 0) (mkPS insert_sql ∅) eq_refl
             (two_placeholders_empty _)).
  change (insert_statement (mkUser i n 0))
    with (mkPS insert_sql {[1%nat := PString n; 2%nat := PNull]}).
  rewrite run_bind. unfold executeUpdate. rewrite run_call.
  destruct (h Z _ w1) as [[e|k] w2]; cbn [fst snd]; [by eexists|].
  destruct (run h _ w2) as [[r3 w3] t3]. cbn [snd app]. by eexists.
Qed.

(** C10.  On any connection and for every name and age,
    [updateUserAgeByName] prepares its text and executes it once with
    placeholder 1 bound to the age as an integer and placeholder 2 to the
    name; it ends with the outcome of that execution.  For the age 0 the
    statement carries the integer 0, not NULL.  [insertUsersBulk] and
    [insertUser], given a record of age 0, execute their insert with
    placeholder 2 bound to NULL.  On the server, which runs what the
    texts say: after [updateUserAgeByName n 0] every row of the name
    holds the age 0, and the row that [insertUser] stores for a record of
    age 0 has no age. *)
Theorem updateUserAgeByName_zero_is_an_integer (n : string) :
  (∀ W (h : handler W) (a : Z) (w : W),
     run h (updateUserAgeByName n a) w =
       let '(r1, w1) := h _ (PrepareStatement update_sql) w in
       match r1 with
       | inl e => (inl e, w1, [EvCall (PrepareStatement update_sql) (inl e)])
       | inr _ =>
           let '(r2, w2) :=
             h _ (PsExecuteUpdate
                    (mkPS update_sql {[1%nat := PInt a; 2%nat := PString n]}))
               w1 in
           (r2, w2,
            [EvCall (PrepareStatement update_sql) (inr tt);
             EvCall (PsExecuteUpdate
                       (mkPS update_sql
                          {[1%nat := PInt a; 2%nat := PString n]})) r2])
       end)
  ∧ (∀ W (h : handler W) (i : Z) (w : W),
       run h (insertUsersBulk [mkUser i n 0]) w =
         let '(r1, w1) := h _ (PrepareStatement insert_sql) w in
         match r1 with
         | inl e => (inl e, w1, [EvCall (PrepareStatement insert_sql) (inl e)])
         | inr _ =>
             let '(r2, w2) :=
               h _ (PsExecuteUpdate
                      (mkPS insert_sql {[1%nat := PString n; 2%nat := PNull]}))
                 w1 in
             (match r2 with inl e => inl e | inr _ => inr tt end, w2,
              [EvCall (PrepareStatement insert_sql) (inr tt);
               EvCall (PsExecuteUpdate
                         (mkPS insert_sql
                            {[1%nat := PString n; 2%nat := PNull]})) r2])
         end)
  ∧ (∀ W (h : handler W) (i : Z) (w w1 : W),
       h _ (PrepareStatement insert_sql) w = (inr tt, w1) →
       ∃ rest,
         (run h (insertUser (mkUser i n 0)) w).2 =
           EvCall (PrepareStatement insert_sql) (inr tt)
           :: EvCall (PsExecuteUpdate
                        (mkPS insert_sql
                           {[1%nat := PString n; 2%nat := PNull]}))
                (h _ (PsExecuteUpdate
                        (mkPS insert_sql
                           {[1%nat := PString n; 2%nat := PNull]})) w1).1
           :: rest)
  ∧ (∀ (w : Server) db t,
       connected w = true → users_table w = inr (db, t) →
       plain n = true → plain_rows (t_rows t) →
       ∃ k w' tr rows',
         run server (updateUserAgeByName n 0) w = (inr k, w', tr)
         ∧ users_table w' = inr (db, mkTable rows' (t_auto t))
         ∧ Forall2 (λ r r', r_id r' = r_id r ∧ r_name r' = r_name r
                            ∧ r_age r' = if decide (fold (r_name r) = fold n)
                                         then Some 0 else r_age r)
             (t_rows t) rows')
  ∧ (∀ (w : Server) db t i,
       connected w = true → users_table w = inr (db, t) → wf_table t →
       t_auto t ≤ int_max →
       plain n = true → (char_length n ≤ 100)%nat →
       plain_rows (t_rows t) → unused n (t_rows t) →
       ∃ w' tr,
         run server (insertUser (mkUser i n 0)) w = (inr (t_auto t), w', tr)
         ∧ users_table w' =
             inr (db, mkTable (t_rows t ++ [mkRow (t_auto t) n None])
                        (t_auto t + 1))).
Proof.
  split; [|split; [|split; [|split]]].
  - intros W h a w. apply run_updateUserAgeByName_any.
  - intros W h i w. apply run_insertUsersBulk_zero.
  - intros W h i w w1. apply insertUser_zero_calls.
  - intros w db t Hlive Htable _ _.
    eexists _, _, _, _. split; [|split].
    + by apply run_updateUserAgeByName_server.
    + by apply (users_table_write w db t).
    + apply Forall2_fmap_r, Forall_Forall2_diag, Forall_forall.
      intros r _. unfold compose, update_row. by case_decide.
  - intros w db t i Hlive Htable Hwf Hroom _ Hlen _ Hunused.
    eexists _, _. split.
    + by apply (run_insertUser_server w db t (mkUser i n 0)).
    + by apply (inserted_table w db t (mkUser i n 0)).
Qed.

(** On the server after a run of [main]: the update to 0 leaves bob with
    the age 0, the insert of (dave, 0) stores dave without age. *)
Lemma updateUserAgeByName_zero_is_an_integer_witness :
  (∃ w' tr, run server (updateUserAgeByName "bob" 0) populated = (inr 1, w', tr)
            ∧ users_table w' =
                inr ("testdb",
                     mkTable [mkRow 1 "carol" (Some 32);
                              mkRow 2 "alice" (Some 25);
                              mkRow 3 "bob" (Some 0)] 4))
  ∧ (∃ w' tr, run server (insertUser (mkUser 0 "dave" 0)) populated
              = (inr 4, w', tr)
              ∧ users_table w' =
                  inr ("testdb", mkTable (demo_rows ++ [mkRow 4 "dave" None]) 5)).
Proof.
  destruct (updateUserAgeByName_zero_is_an_integer "bob") as (_ & _ & _ & Hu & _).
  destruct (updateUserAgeByName_zero_is_an_integer "dave") as (_ & _ & _ & _ & Hi).
  split.
  - destruct (Hu populated "testdb" (mkTable demo_rows 4))
      as (k & w' & tr & rows' & Hrun & Ht & Hrows).
    + reflexivity.
    + reflexivity.
    + reflexivity.
    + exact plain_demo_rows.
    + exists w', tr. vm_compute in Hrun. injection Hrun as <- <- <-.
      split; [reflexivity|]. by vm_compute.
  - destruct (Hi populated "testdb" (mkTable demo_rows 4) 0)
      as (w' & tr & Hrun & Ht).
    + reflexivity.
    + reflexivity.
    + exact wf_demo_table.
    + by compute.
    + reflexivity.
    + simpl. lia.
    + exact plain_demo_rows.
    + apply (bool_decide_unpack _). by vm_compute.
    + by exists w', tr.
Defined.

End Queries.
(* ===================================================================== *)
(** * The schema bootstrapper                                            *)
(* ===================================================================== *)

Module Bootstrap.
Import Cpp Sql MySQL Props RunFacts CallFacts CommandLayer Texts ServerSteps.

(** [CREATE DATABASE IF NOT EXISTS], for a name that reads back as it
    is. *)
Lemma exec_create_database n w :
  has_backtick n = false →
  exec_text (create_database_sql n) w = create_database true n w.
Proof.
  intros Hn. unfold exec_text. by rewrite statement_create_database.
Qed.

Lemma exec_create_users w : exec_text create_users_sql w = create_users w.
Proof.
  destruct statement_create_users as (d & Hd & Hdef).
  unfold exec_text. rewrite Hd. unfold create_table, create_users.
  by rewrite decide_True by done.
Qed.

Lemma bootstrapped_table n w :
  ∃ t, databases (bootstrapped n w) !! n = Some (Some t).
Proof.
  unfold bootstrapped. simpl.
  destruct (databases w !! n) as [[t|]|] eqn:E; eauto;
    eexists; apply lookup_insert_eq.
Qed.

Lemma bootstrapped_idem n w : bootstrapped n (bootstrapped n w) = bootstrapped n w.
Proof.
  destruct (bootstrapped_table n w) as [t Ht].
  unfold bootstrapped at 1. by rewrite Ht.
Qed.

Lemma server_create_database n w :
  connected w = true → valid_schema_name n →
  server _ (Execute (create_database_sql n)) w = create_database true n w.
Proof.
  intros Hlive [Hquote Hname]. unfold server. cbv beta iota.
  by rewrite Hlive, exec_create_database.
Qed.

Lemma server_create_users w :
  connected w = true →
  server _ (Execute create_users_sql) w = create_users w.
Proof.
  intros Hlive. unfold server. cbv beta iota.
  by rewrite Hlive, exec_create_users.
Qed.

Lemma server_set_schema n w :
  connected w = true → server _ (SetSchema n) w = select_schema n w.
Proof. intros Hlive. unfold server. cbv beta iota. by rewrite Hlive. Qed.

Lemma bootstrap_steps n w :
  connected w = true → check_database_name n = None →
  ∃ w1 w2,
    create_database true n w = (inr false, w1)
    ∧ connected w1 = true
    ∧ select_schema n w1 = (inr tt, w2)
    ∧ connected w2 = true
    ∧ create_users w2 = (inr false, bootstrapped n w).
Proof.
  intros Hlive Hname. unfold create_database. rewrite Hname.
  unfold select_schema, create_users, bootstrapped, set_databases.
  destruct (databases w !! n) as [[t|]|] eqn:E.
  - eexists _, _. split; [reflexivity|]. split; [done|]. simpl.
    rewrite Hlive, E. split; [reflexivity|]. split; [done|]. simpl.
    by rewrite E.
  - eexists _, _. split; [reflexivity|]. split; [done|]. simpl.
    rewrite Hlive, E. split; [reflexivity|]. split; [done|]. simpl.
    by rewrite E.
  - eexists _, _. split; [reflexivity|]. split; [done|]. simpl.
    rewrite Hlive, lookup_insert_eq. split; [reflexivity|]. split; [done|].
    simpl. by rewrite lookup_insert_eq, insert_insert_eq.
Qed.

Lemma run_ensureSchemaAndTables n w :
  connected w = true → valid_schema_name n →
  run server (ensureSchemaAndTables n) w =
    (inr tt, bootstrapped n w, ensureSchemaAndTables_trace n).
Proof.
  intros Hlive Hn.
  destruct (bootstrap_steps n w Hlive (proj2 Hn))
    as (w1 & w2 & E1 & L1 & E2 & L2 & E3).
  unfold ensureSchemaAndTables, createStatement, execute, setSchema.
  rewrite run_bind,
    (run_call_eq server _ w _ _ (server_create_statement w Hlive)).
  rewrite run_bind, (run_call_eq server _ w (inr false) w1)
    by (by rewrite server_create_database).
  rewrite run_bind, (run_call_eq server _ w1 (inr tt) w2)
    by (by rewrite server_set_schema).
  rewrite run_bind, (run_call_eq server _ w2 (inr false) (bootstrapped n w))
    by (by rewrite server_create_users).
  reflexivity.
Qed.

Lemma bootstrapped_keeps n w db t :
  databases w !! db = Some (Some t) →
  databases (bootstrapped n w) !! db = Some (Some t).
Proof.
  intros Hdb. unfold bootstrapped. simpl.
  destruct (databases w !! n) as [[t'|]|] eqn:E; [done|..].
  all: rewrite lookup_insert_ne; [done|]; intros ->; congruence.
Qed.

Lemma bootstrapped_others n w db :
  db ≠ n → databases (bootstrapped n w) !! db = databases w !! db.
Proof.
  intros Hne. unfold bootstrapped. simpl.
  destruct (databases w !! n) as [[t'|]|] eqn:E; [done|..];
    by rewrite lookup_insert_ne.
Qed.

(** ** Whatever the name, no table is lost *)

Lemma only_bootstrap_calls n : only_calls bootstrap_call (ensureSchemaAndTables n).
Proof.
  unfold ensureSchemaAndTables, createStatement, execute, setSchema.
  apply only_calls_bind; [by apply only_calls_call|intros _].
  apply only_calls_bind; [apply only_calls_call; simpl; eauto|intros _].
  apply only_calls_bind; [by apply only_calls_call|intros _].
  apply only_calls_bind; [apply only_calls_call; simpl; eauto|intros _].
  apply only_Ret.
Qed.

Lemma create_database_keeps ine n w db t :
  databases w !! db = Some (Some t) →
  databases (create_database ine n w).2 !! db = Some (Some t).
Proof.
  intros Hdb. unfold create_database.
  destruct (check_database_name n); [done|].
  destruct (databases w !! n) eqn:E; [by destruct ine|]. simpl.
  rewrite lookup_insert_ne; [done|]. intros ->. congruence.
Qed.

Lemma create_users_keeps w db t :
  databases w !! db = Some (Some t) →
  databases (create_users w).2 !! db = Some (Some t).
Proof.
  intros Hdb. unfold create_users.
  destruct (current w) as [n|]; [|done].
  destruct (databases w !! n) as [[t'|]|] eqn:E; [done|..]; simpl.
  all: rewrite lookup_insert_ne; [done|]; intros ->; congruence.
Qed.

Lemma exec_create_database_keeps n w db t :
  databases w !! db = Some (Some t) →
  databases (exec_text (create_database_sql n) w).2 !! db = Some (Some t).
Proof.
  intros Hdb. unfold exec_text.
  destruct (statement_create_database_any n) as [->|[n' ->]]; [done|].
  by apply create_database_keeps.
Qed.

Lemma server_bootstrap_call_keeps db t X (c : Call X) w :
  bootstrap_call X c →
  databases w !! db = Some (Some t) →
  databases (server X c w).2 !! db = Some (Some t).
Proof.
  intros Hc Hdb.
  destruct c as [| |sql| |n| | | | | |]; try done; unfold server; cbv beta iota.
  - by destruct (connected w).
  - destruct (connected w); [|done]. destruct Hc as [->|[n ->]].
    + rewrite exec_create_users. by apply create_users_keeps.
    + by apply exec_create_database_keeps.
  - destruct (connected w); [|done]. unfold select_schema.
    by destruct (databases w !! n).
Qed.

Lemma ensureSchemaAndTables_keeps n w db t :
  databases w !! db = Some (Some t) →
  databases (run server (ensureSchemaAndTables n) w).1.2 !! db = Some (Some t).
Proof.
  intros Hdb.
  apply (only_calls_run server bootstrap_call
           (λ w, databases w !! db = Some (Some t))); [|apply only_bootstrap_calls|done].
  intros X c w0. apply server_bootstrap_call_keeps.
Qed.

(** C8, as the code has it.  On the server, which runs what the two
    texts of the bootstrapper say ([CREATE DATABASE IF NOT EXISTS] with
    the name between back quotes, and [CREATE TABLE IF NOT EXISTS users]
    with the three columns and the unique key).  For a schema name
    without back quote that the server takes as a database name, on a
    live connection: [ensureSchemaAndTables] returns without error; a
    second call in succession returns without error too and leaves the
    server exactly as the first left it, with the one [users] table in
    the schema; the rows of a table that existed before are untouched,
    and so is every database whose name differs from the schema name by
    more than the case of letters.  Whatever the name and whether the
    call fails or not, a table that exists keeps its rows. *)
Theorem ensureSchemaAndTables_idempotent (w : Server) (n : string) :
  connected w = true → valid_schema_name n →
  run server (ensureSchemaAndTables n) w =
    (inr tt, bootstrapped n w, ensureSchemaAndTables_trace n)
  ∧ run server (ensureSchemaAndTables n) (bootstrapped n w) =
      (inr tt, bootstrapped n w, ensureSchemaAndTables_trace n)
  ∧ (∃ t, databases (bootstrapped n w) !! n = Some (Some t))
  ∧ (∀ db t, databases w !! db = Some (Some t) →
             databases (bootstrapped n w) !! db = Some (Some t))
  ∧ (∀ db, fold db ≠ fold n →
           databases (bootstrapped n w) !! db = databases w !! db)
  ∧ (∀ n' w' db t,
       databases w' !! db = Some (Some t) →
       databases (run server (ensureSchemaAndTables n') w').1.2 !! db
       = Some (Some t)).
Proof.
  intros Hlive Hn. split; [by apply run_ensureSchemaAndTables|].
  split; [|split; [apply bootstrapped_table|split; [|split]]].
  - rewrite run_ensureSchemaAndTables by done. by rewrite bootstrapped_idem.
  - apply bootstrapped_keeps.
  - intros db Hne. apply bootstrapped_others. by intros ->.
  - intros n' w' db t. apply ensureSchemaAndTables_keeps.
Qed.

Lemma ensureSchemaAndTables_idempotent_witness :
  run server (ensureSchemaAndTables "testdb") populated =
    (inr tt, bootstrapped "testdb" populated, ensureSchemaAndTables_trace "testdb")
  ∧ databases (bootstrapped "testdb" populated) !! "testdb"
    = Some (Some (mkTable demo_rows 4)).
Proof.
  destruct (ensureSchemaAndTables_idempotent populated "testdb")
    as (H1 & _ & _ & H2 & _ & _).
  - reflexivity.
  - split; reflexivity.
  - split; [exact H1|]. apply H2. reflexivity.
Defined.

(** [ready] is where the first two steps of [main] take a server that has
    nothing. *)
Example ready_after_bootstrap :
  (run server
     (call (Connect (host cfg) (user cfg) (pass cfg));;
      ensureSchemaAndTables (schema cfg)) fresh).1
  = (inr tt, ready).
Proof. by vm_compute. Qed.

(** C8, as stated, fails: the name a`b is not empty, and the first call
    already ends with the server's syntax error, the database name having
    been pasted between back quotes as it is. *)
Lemma ensureSchemaAndTables_backtick_name_fails :
  run server (ensureSchemaAndTables "a`b") ready =
    (inl syntax_error, ready,
     [EvCall CreateStatement (inr tt);
      EvCall (Execute "CREATE DATABASE IF NOT EXISTS `a`b`") (inl syntax_error)]).
Proof. vm_compute. reflexivity. Qed.

End Bootstrap.

(* ===================================================================== *)
(** * The top-level driver                                               *)
(* ===================================================================== *)

Module Driver.
Import Cpp Sql MySQL Props RunFacts.

(** C9, as the code has it.  On any connection: when the [try] block of
    [main] completes the exit code is 0; when it ends with a database
    error the exit code is 1 and the last thing written to the error
    stream is the line "[SQL ERROR @ main] message | MySQL error code:
    code | SQLState: state"; when it ends with another [std::exception]
    the exit code is 1 and the last line is "[STD ERROR] message".  The
    tag is that of the driver; it does not name the call that failed. *)
Theorem main_exit_code {W} (h : handler W) (w : W) :
  run h main w = main_outcome (run h main_body w).
Proof.
  unfold main. rewrite run_try_catch_sql_std, run_bind.
  destruct (run h main_body w) as [[[[e|m|]|[]] w1] t]; simpl;
    by rewrite ?app_nil_r.
Qed.

(** On the model server the whole run succeeds. *)
Lemma main_on_fresh_server :
  (run server main fresh).1 = (inr 0, populated)
  ∧ written Cerr (run server main fresh).2 = "".
Proof. split; by vm_compute. Qed.

(** An error inside the transaction demo is recovered: the commit fails,
    the coordinator rolls back and re-raises, [main] goes on and exits
    with 0. *)
Lemma main_recovers_failed_transaction :
  let r := run (failing server access_denied) main (Some 17%nat, fresh) in
  r.1.1 = inr 0
  ∧ written Cerr r.2 =
      sql_error_line (mkSQLException "Access denied for user" 1045 "28000")
        "demoTransaction"
      +:+ "Transaction rolled back." +:+ nl
      +:+ "Transaction demo failed (rolled back)." +:+ nl.
Proof. split; by vm_compute. Qed.

(** C9, as stated, fails: when the connect call is refused, and when the
    DELETE of step 4 is refused with the same error, the calls that
    failed differ and the exit code and every character written to the
    error stream are the same, so that the diagnostic does not identify
    the operation that failed; and for an exception that is not a
    database error the line carries no context tag at all. *)
Lemma main_diagnostic_names_no_operation :
  let r1 := run (failing server access_denied) main (Some 0%nat, fresh) in
  let r2 := run (failing server access_denied) main (Some 6%nat, fresh) in
  let r3 := run (failing server (Std "std::bad_alloc")) main (Some 6%nat, fresh) in
  last (calls r1.2) = Some (Any (Connect "tcp://127.0.0.1:3306" "root" "sinatra1"))
  ∧ last (calls r2.2) = Some (Any (Execute "DELETE FROM users"))
  ∧ r1.1.1 = inr 1 ∧ r2.1.1 = inr 1 ∧ r3.1.1 = inr 1
  ∧ written Cerr r1.2 = written Cerr r2.2
  ∧ written Cerr r1.2 =
      "[SQL ERROR @ main] Access denied for user | MySQL error code: 1045 | SQLState: 28000"
      +:+ nl
  ∧ written Cerr r3.2 = "[STD ERROR] std::bad_alloc" +:+ nl.
Proof. repeat split; by vm_compute. Qed.

End Driver.

(* ===================================================================== *)
(** * Programs without handlers                                          *)
(* ===================================================================== *)

Module FailFast.
Import Cpp Sql Props RunFacts RaisesFacts CommandLayer.

Lemma fails_fast_bind {A B} (p : prog A) (f : A → prog B) :
  fails_fast p → (∀ a, fails_fast (f a)) → fails_fast (p ≫= f).
Proof.
  intros Hp Hf. unfold mbind, prog_bind.
  induction Hp as [a|e|X c k Hk Hs IH|s text k Hs IH]; simpl.
  - apply Hf.
  - constructor.
  - constructor; [|done]. intros e. by rewrite Hk.
  - by constructor.
Qed.

Lemma fails_fast_call {X} (c : Call X) : fails_fast (call c).
Proof. constructor; [done|]. intros x. constructor. Qed.

Lemma fails_fast_lift {A} (r : exn + A) : fails_fast (lift r).
Proof. destruct r; constructor. Qed.

Lemma fails_fast_run {W A} (h : handler W) (p : prog A) :
  fails_fast p → ends_at_first_throw h p.
Proof.
  intros Hp. unfold ends_at_first_throw.
  induction Hp as [a|e0|X c k Hk Hs IH|s text k Hs IH];
    intros w t1 ev t2 e; simpl.
  - by destruct t1.
  - by destruct t1.
  - destruct (h X c w) as [r w1].
    destruct r as [e1|x].
    + rewrite Hk. simpl. destruct t1 as [|ev1 t1]; simpl.
      * intros [= <- <-]. simpl. by intros [= ->].
      * intros [= _ Ht]. by destruct t1.
    + specialize (IH x w1). destruct (run h (k (inr x)) w1) as [[r2 w2] t].
      simpl in *. destruct t1 as [|ev1 t1]; simpl.
      * intros [= <- _]. done.
      * intros [= _ Ht]. by apply (IH t1 ev t2 e).
  - specialize (IH w). destruct (run h k w) as [[r2 w2] t]. simpl in *.
    destruct t1 as [|ev1 t1]; simpl.
    + intros [= <- _]. done.
    + intros [= _ Ht]. by apply (IH t1 ev t2 e).
Qed.

Lemma fails_fast_insert_each ps users : fails_fast (insert_each ps users).
Proof.
  revert ps. induction users as [|u users IH]; intros ps; cbn [insert_each];
    [constructor|].
  apply fails_fast_bind; [apply fails_fast_call|auto].
Qed.

Lemma fails_fast_while_next {A} (body : ResultSet → A → prog A) cols rows acc :
  (∀ rs a, fails_fast (body rs a)) →
  fails_fast (while_next body cols rows acc).
Proof.
  intros Hbody. revert acc.
  induction rows as [|row rows IH]; intros acc; cbn [while_next];
    [constructor|].
  apply fails_fast_bind; [apply Hbody|auto].
Qed.

Lemma fails_fast_read_user rs out : fails_fast (read_user rs out).
Proof.
  unfold read_user.
  repeat (apply fails_fast_bind; [try apply fails_fast_lift|intros]).
  - destruct a1; [constructor|apply fails_fast_lift].
  - constructor.
Qed.

Ltac fails_fast_steps :=
  repeat first
    [ apply fails_fast_call
    | apply fails_fast_lift
    | apply fails_fast_insert_each
    | apply fails_fast_Ret
    | apply fails_fast_bind; [|intros] ].

(** X1.  The four operations of the command layer catch nothing. On any
    connection, in a run of any of them, a call that throws is the last
    event of the run and the exception it threw is the one the function ends
    with: no call, no follow-up read and no output comes after it. *)
Theorem command_layer_ends_at_first_throw {W} (h : handler W) :
  (∀ u, ends_at_first_throw h (insertUser u))
  ∧ (∀ users, ends_at_first_throw h (insertUsersBulk users))
  ∧ (∀ n a, ends_at_first_throw h (updateUserAgeByName n a))
  ∧ (∀ m, ends_at_first_throw h (getUsersByMinAge m)).
Proof.
  split; [|split; [|split]]; intros; apply fails_fast_run.
  - unfold insertUser, prepareStatement, executeUpdate, createStatement,
      executeQuery.
    fails_fast_steps. destruct (next _) as [[] ?]; fails_fast_steps.
  - unfold insertUsersBulk, prepareStatement. fails_fast_steps.
  - unfold updateUserAgeByName, prepareStatement, executeUpdate.
    fails_fast_steps.
  - unfold getUsersByMinAge, prepareStatement, psExecuteQuery.
    fails_fast_steps. apply fails_fast_while_next. apply fails_fast_read_user.
Qed.

Lemma command_layer_ends_at_first_throw_witness :
  (run (failing MySQL.server access_denied) (insertUser (mkUser 0 "carol" 32))
     (Some 1%nat, ready)).1.1 = inl access_denied.
Proof.
  destruct (command_layer_ends_at_first_throw
              (failing MySQL.server access_denied)) as [H _].
  apply (H (mkUser 0 "carol" 32) (Some 1%nat, ready)
           [EvCall (PrepareStatement insert_sql) (inr tt)]
           (EvCall (PsExecuteUpdate (insert_statement (mkUser 0 "carol" 32)))
              (inl access_denied))
           [] access_denied).
  - vm_compute. reflexivity.
  - reflexivity.
Defined.

(** X2.  The schema bootstrapper catches nothing either. On any connection,
    when one of its statements throws, the run ends there with that
    exception: after a failed [CREATE DATABASE] no schema is selected and no
    table is created. *)
Theorem ensureSchemaAndTables_ends_at_first_throw {W} (h : handler W)
    (n : string) (w : W) (t1 : list event) (ev : event) (t2 : list event)
    (e : exn) :
  (run h (ensureSchemaAndTables n) w).2 = t1 ++ ev :: t2 →
  thrown_by ev = Some e →
  t2 = [] ∧ (run h (ensureSchemaAndTables n) w).1.1 = inl e.
Proof.
  apply (fails_fast_run h (ensureSchemaAndTables n)).
  unfold ensureSchemaAndTables, createStatement, execute, setSchema.
  fails_fast_steps.
Qed.

Lemma ensureSchemaAndTables_ends_at_first_throw_witness :
  (run (failing MySQL.server access_denied) (ensureSchemaAndTables "testdb")
     (Some 1%nat, ready)).1.1 = inl access_denied.
Proof.
  apply (ensureSchemaAndTables_ends_at_first_throw
           (failing MySQL.server access_denied) "testdb" (Some 1%nat, ready)
           [EvCall CreateStatement (inr tt)]
           (EvCall (Execute (create_database_sql "testdb")) (inl access_denied))
           [] access_denied).
  - vm_compute. reflexivity.
  - reflexivity.
Defined.

End FailFast.

(* ===================================================================== *)
(** * The driver and the coordinator, path by path                       *)
(* ===================================================================== *)

Module Paths.
Import Cpp Sql MySQL Props RunFacts RaisesFacts Texts ServerFacts CommandLayer.

(** ** No exception leaves [main] *)

Lemma cell_error rs c e : cell rs c = inl e → standard e.
Proof.
  unfold cell, invalid, standard. intros H.
  repeat case_match; simplify_eq; done.
Qed.

Lemma getInt_error c rs e : getInt c rs = inl e → standard e.
Proof.
  unfold getInt. destruct (cell rs c) eqn:E; [|done].
  intros [= <-]. by eapply cell_error.
Qed.

Lemma getString_error c rs e : getString c rs = inl e → standard e.
Proof.
  unfold getString. destruct (cell rs c) eqn:E; [|done].
  intros [= <-]. by eapply cell_error.
Qed.

Lemma isNull_error c rs e : isNull c rs = inl e → standard e.
Proof.
  unfold isNull. destruct (cell rs c) eqn:E; [|done].
  intros [= <-]. by eapply cell_error.
Qed.

Lemma raises_try_catch_all P {A} (p hd : prog A) :
  raises P hd → raises P (try_catch_all p hd).
Proof.
  intros Hhd. induction p as [a|e|X c k IH|s text k IH]; simpl.
  - constructor.
  - done.
  - constructor. intros r _. apply IH.
  - by constructor.
Qed.

Lemma raises_while_next P {A} (body : ResultSet → A → prog A) cols rows acc :
  (∀ rs a, raises P (body rs a)) → raises P (while_next body cols rows acc).
Proof.
  intros Hbody. revert acc.
  induction rows as [|row rows IH]; intros acc; cbn [while_next];
    [constructor|].
  apply raises_bind; [apply Hbody|auto].
Qed.

Lemma raises_print_users P us : raises P (print_users us).
Proof.
  induction us as [|u us IH]; cbn [print_users]; [constructor|].
  apply raises_bind; [repeat constructor|auto].
Qed.

Lemma raises_cout P text : raises P (cout text).
Proof. repeat constructor. Qed.

Lemma raises_cerr P text : raises P (cerr text).
Proof. repeat constructor. Qed.

Ltac raises_steps :=
  repeat first
    [ apply raises_call
    | apply raises_cout
    | apply raises_cerr
    | apply raises_Ret
    | apply raises_lift; first [apply getInt_error | apply getString_error
                               | apply isNull_error]
    | apply raises_insertUsersBulk
    | apply raises_updateUserAgeByName
    | apply raises_print_users
    | apply raises_bind; [|intros] ].

Lemma raises_read_user rs out : raises standard (read_user rs out).
Proof.
  unfold read_user. raises_steps.
  match goal with |- context [if ?b then _ else _] => destruct b end;
    raises_steps.
Qed.

Lemma raises_print_row rs u : raises standard (print_row rs u).
Proof.
  unfold print_row. raises_steps.
  match goal with |- context [if ?b then _ else _] => destruct b end;
    raises_steps.
Qed.

Lemma raises_ensureSchemaAndTables n :
  raises standard (ensureSchemaAndTables n).
Proof.
  unfold ensureSchemaAndTables, createStatement, execute, setSchema.
  raises_steps.
Qed.

Lemma raises_insertUser u : raises standard (insertUser u).
Proof.
  unfold insertUser, prepareStatement, executeUpdate, createStatement,
    executeQuery.
  raises_steps. destruct (next _) as [[] ?]; raises_steps.
Qed.

Lemma raises_getUsersByMinAge m : raises standard (getUsersByMinAge m).
Proof.
  unfold getUsersByMinAge, prepareStatement, psExecuteQuery. raises_steps.
  apply raises_while_next. apply raises_read_user.
Qed.

Lemma raises_main_body : raises standard main_body.
Proof.
  unfold main_body, createStatement, execute, executeQuery.
  repeat first
    [ apply raises_ensureSchemaAndTables
    | apply raises_insertUser
    | apply raises_getUsersByMinAge
    | apply raises_try_catch_all
    | apply raises_while_next; apply raises_print_row
    | apply raises_call
    | apply raises_cout
    | apply raises_cerr
    | apply raises_Ret
    | apply raises_updateUserAgeByName
    | apply raises_print_users
    | apply raises_bind; [|intros] ].
Qed.

(** X4.  [main] always returns: on a connection whose calls throw nothing
    but [std::exception]s (database errors included), whatever fails and
    wherever, no exception leaves [main] and the exit code is 0 or 1. *)
Theorem main_returns_0_or_1 {W} (h : handler W) (w : W) :
  (∀ X (c : Call X) w0 e w1, h X c w0 = (inl e, w1) → standard e) →
  ∃ code, (run h main w).1.1 = inr code ∧ (code = 0 ∨ code = 1).
Proof.
  intros Hh. unfold main. rewrite run_try_catch_sql_std, run_bind.
  destruct (run h main_body w) as [[[e|[]] w1] t] eqn:Eb.
  - assert (standard e) as He.
    { eapply (raises_run h (λ _, True) standard); [done| |apply raises_main_body
                                             |done|exact Eb].
      intros X c w0 e0 w2 _. apply Hh. }
    destruct e as [e|m|]; [| |done]; simpl; eauto.
  - simpl. eauto.
Qed.

Lemma main_returns_0_or_1_witness :
  ∃ code, (run server main fresh).1.1 = inr code ∧ (code = 0 ∨ code = 1).
Proof.
  apply (main_returns_0_or_1 server fresh).
  intros X c w0 e w1 H. apply server_sql_only in H. by destruct e.
Defined.

(** ** The coordinator when everything succeeds *)

Lemma silent_bind {A B} (p : prog A) (f : A → prog B) :
  silent p → (∀ a, silent (f a)) → silent (p ≫= f).
Proof.
  intros Hp Hf. unfold mbind, prog_bind.
  induction Hp; simpl; [auto|constructor|constructor; auto].
Qed.

Lemma silent_call {X} (c : Call X) : silent (call c).
Proof. constructor. intros [e|x]; constructor. Qed.

Lemma silent_run {W A} (h : handler W) (p : prog A) s w :
  silent p → written s (run h p w).2 = "".
Proof.
  intros Hp. revert w. induction Hp as [a|e|X c k Hk IH]; intros w; simpl;
    try done.
  destruct (h X c w) as [r w1]. specialize (IH r w1).
  by destruct (run h (k r) w1) as [[? ?] ?].
Qed.

Lemma silent_insert_each ps users : silent (insert_each ps users).
Proof.
  revert ps. induction users as [|u users IH]; intros ps; cbn [insert_each];
    [constructor|].
  apply silent_bind; [apply silent_call|auto].
Qed.

Lemma silent_insertUsersBulk users : silent (insertUsersBulk users).
Proof.
  apply silent_bind; [|intros; apply silent_insert_each].
  apply silent_bind; [apply silent_call|constructor].
Qed.

Lemma silent_updateUserAgeByName n a : silent (updateUserAgeByName n a).
Proof.
  apply silent_bind; [|intros; apply silent_call].
  apply silent_bind; [apply silent_call|constructor].
Qed.

Lemma updateUserAgeByName_calls_ok {W} (h : handler W) n a w k w' t :
  run h (updateUserAgeByName n a) w = (inr k, w', t) →
  calls t = updateUserAgeByName_calls n a.
Proof.
  unfold updateUserAgeByName, prepareStatement, executeUpdate.
  rewrite !run_bind, run_call.
  destruct (h unit (PrepareStatement update_sql) w) as [[e|[]] w1];
    cbn [fst snd]; [done|].
  cbn [run mret prog_ret app]. rewrite bind_update, run_call.
  destruct (h Z (PsExecuteUpdate (update_statement n a)) w1) as [[e|k'] w2];
    cbn [fst snd]; [done|].
  by intros [= _ _ <-].
Qed.

Lemma demoTransaction_handler_raises {W} (h : handler W) e w a :
  (run h (demoTransaction_handler e) w).1.1 ≠ inr a.
Proof.
  unfold demoTransaction_handler, printSqlError, cerr, rollback, setAutoCommit.
  cbn.
  destruct (h unit Rollback w) as [[[e2| |]|[]] w1]; cbn; try done.
  all: by destruct (h unit (SetAutoCommit true) w1) as [[e3|[]] w2].
Qed.

Lemma demoTransaction_body_ok {W} (h : handler W) w w' t :
  run h demoTransaction_body w = (inr tt, w', t) →
  calls t = insertUsersBulk_calls demo_users
            ++ updateUserAgeByName_calls "alice" 25
            ++ [Any Commit; Any (SetAutoCommit true)]
  ∧ written Cerr t = ""
  ∧ ∃ k : Z, written Cout t =
           "Rows updated: " +:+ pretty k +:+ nl
           +:+ "Transaction committed." +:+ nl.
Proof.
  unfold demoTransaction_body. fold demo_users.
  rewrite run_bind.
  pose proof (insertUsersBulk_calls_spec h demo_users w) as Hbulk.
  pose proof (silent_run h (insertUsersBulk demo_users) Cerr w
                (silent_insertUsersBulk _)) as Herr1.
  pose proof (silent_run h (insertUsersBulk demo_users) Cout w
                (silent_insertUsersBulk _)) as Hout1.
  destruct (run h (insertUsersBulk demo_users) w) as [[[e|[]] w1] t1];
    [done|].
  destruct Hbulk as [_ Hbulk]. specialize (Hbulk eq_refl).
  simpl in Herr1, Hout1.
  rewrite run_bind.
  pose proof (silent_run h (updateUserAgeByName "alice" 25) Cerr w1
                (silent_updateUserAgeByName _ _)) as Herr2.
  pose proof (silent_run h (updateUserAgeByName "alice" 25) Cout w1
                (silent_updateUserAgeByName _ _)) as Hout2.
  destruct (run h (updateUserAgeByName "alice" 25) w1) as [[[e|k] w2] t2]
    eqn:E2; [done|].
  apply updateUserAgeByName_calls_ok in E2. simpl in Herr2, Hout2.
  rewrite run_bind. cbn.
  destruct (h unit Commit w2) as [[e|[]] w3]; cbn; [done|].
  destruct (h unit (SetAutoCommit true) w3) as [[e|[]] w4]; cbn; [done|].
  intros [= <- <-]. split; [|split].
  - rewrite !calls_app, Hbulk, E2. done.
  - rewrite !written_app, Herr1, Herr2. done.
  - exists k. rewrite !written_app, Hout1, Hout2. cbn [written].
    change ("" +:+ ?x) with x. by rewrite append_nil_r, !append_assoc.
Qed.

(** X5.  [demoTransaction] returns normally on one path only, the one where
    every call returned: the calls are then, in order, autocommit off, one
    prepare and the two inserts, one prepare and the update, commit,
    autocommit on; rollback is not called, nothing is written to the error
    stream, and the output is the two lines of the success path. *)
Theorem demoTransaction_returns_only_after_commit {W} (h : handler W) w w' t :
  run h demoTransaction w = (inr tt, w', t) →
  calls t = demoTransaction_calls
  ∧ written Cerr t = ""
  ∧ ∃ k : Z, written Cout t =
           "Rows updated: " +:+ pretty k +:+ nl
           +:+ "Transaction committed." +:+ nl.
Proof.
  unfold demoTransaction. rewrite run_bind.
  unfold setAutoCommit at 1. rewrite run_call.
  destruct (h unit (SetAutoCommit false) w) as [[e|[]] w0]; cbn [fst snd];
    [done|].
  rewrite run_try_catch_sql.
  destruct (run h demoTransaction_body w0) as [[[[e| |]|[]] w1] t1] eqn:Eb;
    try done.
  - pose proof (demoTransaction_handler_raises h e w1 tt) as Hh.
    destruct (run h (demoTransaction_handler e) w1) as [[r2 w2] t2].
    intros [= -> _ _]. done.
  - apply demoTransaction_body_ok in Eb as (Hc & Herr & k & Hout).
    intros [= <- <-]. cbn [app calls written]. rewrite Hc.
    split; [done|]. split; [done|]. by exists k.
Qed.

Lemma demoTransaction_returns_only_after_commit_witness :
  calls (run server demoTransaction ready).2 = demoTransaction_calls.
Proof.
  destruct (run server demoTransaction ready) as [[r w'] t] eqn:E.
  assert (r = inr tt) as -> by (by vm_compute in E; simplify_eq).
  by destruct (demoTransaction_returns_only_after_commit server ready w' t E).
Defined.

(** ** The coordinator when restoring autocommit fails after the commit *)

(** X6.  When the inserts, the update and the commit have returned and the
    [setAutoCommit(true)] of the [try] block then throws a database error,
    the coordinator takes its failure path all the same: it reports the
    error, calls rollback after the commit, writes "Transaction rolled
    back." when that rollback returns, retries [setAutoCommit(true)] and
    re-raises; "Transaction committed." is not written. *)
Theorem demoTransaction_rolls_back_after_commit {W} (h : handler W)
    (w w0 w1 w2 w3 w4 w5 w6 : W) (t1 t2 : list event) (k : Z)
    (e : SQLException) :
  h _ (SetAutoCommit false) w = (inr tt, w0) →
  run h (insertUsersBulk demo_users) w0 = (inr tt, w1, t1) →
  run h (updateUserAgeByName "alice" 25) w1 = (inr k, w2, t2) →
  h _ Commit w2 = (inr tt, w3) →
  h _ (SetAutoCommit true) w3 = (inl (Sql e), w4) →
  h _ Rollback w4 = (inr tt, w5) →
  h _ (SetAutoCommit true) w5 = (inr tt, w6) →
  run h demoTransaction w =
    (inl (Sql e), w6,
     EvCall (SetAutoCommit false) (inr tt) :: t1 ++ t2 ++
     [EvPrint Cout ("Rows updated: " +:+ pretty k +:+ nl);
      EvCall Commit (inr tt);
      EvCall (SetAutoCommit true) (inl (Sql e));
      EvPrint Cerr (sql_error_line e "demoTransaction");
      EvCall Rollback (inr tt);
      EvPrint Cerr ("Transaction rolled back." +:+ nl);
      EvCall (SetAutoCommit true) (inr tt)]).
Proof.
  intros E0 E1 E2 E3 E4 E5 E6. unfold demoTransaction.
  rewrite run_bind. unfold setAutoCommit at 1. rewrite run_call, E0.
  cbn [fst snd].
  rewrite run_try_catch_sql. unfold demoTransaction_body. fold demo_users.
  rewrite run_bind, E1, run_bind, E2, run_bind. cbn.
  rewrite E3. cbn. rewrite E4. cbn.
  unfold demoTransaction_handler, printSqlError, cerr, rollback, setAutoCommit.
  cbn. rewrite E5. cbn. rewrite E6. cbn.
  by rewrite <- !app_assoc.
Qed.

(** On the server the rows of such a run are committed and stay: the
    diagnostic says "rolled back" and both records are stored. *)
Lemma demoTransaction_rolls_back_after_commit_witness :
  ∃ w6 t,
    run (failing server access_denied) demoTransaction (Some 7%nat, ready)
    = (inl access_denied, w6, t)
    ∧ written Cerr t =
        sql_error_line (mkSQLException "Access denied for user" 1045 "28000")
          "demoTransaction"
        +:+ "Transaction rolled back." +:+ nl
    ∧ users_table w6.2 =
        inr ("testdb",
             mkTable [mkRow 1 "alice" (Some 25); mkRow 2 "bob" (Some 29)] 3).
Proof.
  eexists _, _. split.
  { eapply (demoTransaction_rolls_back_after_commit
              (failing server access_denied) (Some 7%nat, ready)).
    - vm_compute. reflexivity.
    - vm_compute. reflexivity.
    - vm_compute. reflexivity.
    - vm_compute. reflexivity.
    - vm_compute. reflexivity.
    - vm_compute. reflexivity.
    - vm_compute. reflexivity. }
  split.
  - vm_compute. reflexivity.
  - vm_compute. reflexivity.
Defined.

End Paths.

(* ===================================================================== *)
(** * Inserts the unique key rejects, and inserts in bulk                *)
(* ===================================================================== *)

Module Inserts.
Import Cpp Sql MySQL Props RunFacts CommandLayer Texts ServerSteps Queries.

(** ** On any connection *)


Lemma run_insert_each_cons {W} (h : handler W) u users ps w :
  ps_sql ps = insert_sql → two_placeholders ps →
  run h (insert_each ps (u :: users)) w =
    let '(r, w1) := h _ (PsExecuteUpdate (insert_statement u)) w in
    match r with
    | inl e =>
        (inl e, w1, [EvCall (PsExecuteUpdate (insert_statement u)) (inl e)])
    | inr n =>
        let '(r2, w2, t2) :=
          run h (insert_each (insert_statement u) users) w1 in
        (r2, w2, EvCall (PsExecuteUpdate (insert_statement u)) (inr n) :: t2)
    end.
Proof.
  intros Hsql Hps. cbn [insert_each]. rewrite (bind_user u ps Hsql Hps).
  rewrite run_bind. unfold executeUpdate. rewrite run_call.
  destruct (h Z (PsExecuteUpdate (insert_statement u)) w) as [[e|n] w1];
    cbn [fst snd]; [done|].
  by destruct (run h (insert_each (insert_statement u) users) w1)
    as [[r2 w2] t2].
Qed.

Lemma run_insertUsersBulk_prepared {W} (h : handler W) users w w1 :
  h _ (PrepareStatement insert_sql) w = (inr tt, w1) →
  run h (insertUsersBulk users) w =
    let '(r, w2, t) := run h (insert_each (mkPS insert_sql ∅) users) w1 in
    (r, w2, EvCall (PrepareStatement insert_sql) (inr tt) :: t).
Proof.
  intros E1. unfold insertUsersBulk, prepareStatement.
  rewrite !run_bind, run_call, E1. cbn [fst snd run mret prog_ret].
  by destruct (run h (insert_each (mkPS insert_sql ∅) users) w1)
    as [[r2 w2] t2].
Qed.

(** ** On the server *)

Lemma rejected_table w db t :
  users_table w = inr (db, t) →
  users_table (rejected db t w) = inr (db, mkTable (t_rows t) (t_auto t + 1)).
Proof. intros Htable. by apply (users_table_write w db t). Qed.

Lemma bulk_table_cons t u users :
  bulk_table (new_table t u) users = bulk_table t (u :: users).
Proof.
  unfold bulk_table, new_table, new_row. cbn [t_rows t_auto bulk_rows length].
  rewrite <- app_assoc, Nat2Z.inj_succ. f_equal. lia.
Qed.

Lemma bulk_rows_names auto users :
  r_name <$> bulk_rows auto users = name <$> users.
Proof.
  revert auto. induction users as [|u users IH]; intros auto; [done|].
  cbn [bulk_rows]. csimpl. by rewrite IH.
Qed.

Lemma bulk_rows_ids auto users :
  r_id <$> bulk_rows auto users = seqZ auto (Z.of_nat (length users)).
Proof.
  revert auto. induction users as [|u users IH]; intros auto; [done|].
  cbn [bulk_rows length]. csimpl. rewrite IH.
  rewrite Nat2Z.inj_succ, (seqZ_cons auto) by lia.
  rewrite Z.pred_succ. by replace (Z.succ auto) with (auto + 1) by lia.
Qed.

Lemma bulk_rows_keys auto users :
  keys (bulk_rows auto users) = names_of users.
Proof.
  revert auto. induction users as [|u users IH]; intros auto; [done|].
  cbn [bulk_rows]. unfold keys, names_of in *. csimpl. by rewrite IH.
Qed.

Lemma new_table_keys t u :
  keys (t_rows (new_table t u)) = keys (t_rows t) ++ [fold (name u)].
Proof. unfold new_table, keys. cbn [t_rows]. by rewrite fmap_app. Qed.

Lemma fresh_after_insert t u (users : list User) :
  fold (name u) ∉ names_of users →
  Forall (λ v, unused (name v) (t_rows t)) users →
  Forall (λ v, unused (name v) (t_rows (new_table t u))) users.
Proof.
  intros Hnew Hfresh. apply Forall_forall. intros v Hv.
  unfold unused. rewrite new_table_keys.
  intros [Hin|Hin%list_elem_of_singleton]%elem_of_app.
  - rewrite Forall_forall in Hfresh. by apply (Hfresh v).
  - apply Hnew. rewrite <- Hin. unfold names_of.
    apply list_elem_of_fmap. by exists v.
Qed.

Lemma session_kept_refl w : session_kept w w.
Proof. by unfold session_kept. Qed.

Lemma session_kept_trans w w1 w2 :
  session_kept w w1 → session_kept w1 w2 → session_kept w w2.
Proof.
  intros (A1 & A2 & A3 & A4) (B1 & B2 & B3 & B4).
  unfold session_kept. split; [congruence|]. split; [congruence|].
  split; [congruence|].
  intros Hoff. rewrite B4 by congruence. by apply A4.
Qed.

Lemma session_kept_inserted u db t w : session_kept w (inserted u db t w).
Proof.
  unfold session_kept, inserted, set_last_insert_id, set_databases. cbn.
  repeat split; try done. by intros ->.
Qed.

Lemma session_kept_rejected db t w : session_kept w (rejected db t w).
Proof.
  unfold session_kept, rejected, set_databases. cbn.
  repeat split; try done. by intros ->.
Qed.

Lemma run_insert_each_server db users : ∀ ps w t,
  ps_sql ps = insert_sql → two_placeholders ps →
  connected w = true → users_table w = inr (db, t) →
  Forall storable users → NoDup (names_of users) →
  Forall (λ u, unused (name u) (t_rows t)) users →
  t_auto t + Z.of_nat (length users) ≤ int_max + 1 →
  ∃ w',
    run server (insert_each ps users) w =
      (inr tt, w',
       (λ u, EvCall (PsExecuteUpdate (insert_statement u)) (inr 1)) <$> users)
    ∧ users_table w' = inr (db, bulk_table t users)
    ∧ session_kept w w'.
Proof.
  induction users as [|u users IH];
    intros ps w t Hsql Hps Hlive Htable Hok Hnodup Hfresh Hroom.
  { exists w. split; [done|]. split; [|apply session_kept_refl].
    rewrite Htable. unfold bulk_table. cbn [bulk_rows length].
    rewrite app_nil_r, Z.add_0_r. by destruct t. }
  apply Forall_cons_1 in Hok as [[Hlen Hage] Hok].
  apply Forall_cons_1 in Hfresh as [Hu Hfresh].
  unfold names_of in Hnodup. csimpl in Hnodup.
  apply NoDup_cons in Hnodup as [Hnew Hnodup].
  cbn [length] in Hroom. rewrite Nat2Z.inj_succ in Hroom.
  destruct (IH (insert_statement u) (inserted u db t w) (new_table t u))
    as (w' & Hrun & Htable' & Hkept).
  - done.
  - apply two_placeholders_insert_statement.
  - done.
  - by apply inserted_table.
  - done.
  - done.
  - by apply fresh_after_insert.
  - unfold new_table. cbn [t_auto]. lia.
  - exists w'. rewrite run_insert_each_cons by done.
    rewrite (server_insert w db t Hlive Htable u) by (done || lia).
    rewrite Hrun. split; [done|]. split.
    + by rewrite Htable', bulk_table_cons.
    + eapply session_kept_trans; [apply session_kept_inserted|done].
Qed.

(** The inserts up to the first record whose name is taken. *)
Lemma run_insert_each_server_duplicate db us1 u us2 : ∀ ps w t,
  ps_sql ps = insert_sql → two_placeholders ps →
  connected w = true → users_table w = inr (db, t) →
  Forall storable us1 → NoDup (names_of us1) →
  Forall (λ v, unused (name v) (t_rows t)) us1 →
  storable u → fold (name u) ∈ keys (t_rows t) ++ names_of us1 →
  t_auto t + Z.of_nat (length us1) ≤ int_max →
  ∃ w',
    run server (insert_each ps (us1 ++ u :: us2)) w =
      (inl (Sql duplicate_name), w',
       ((λ v, EvCall (PsExecuteUpdate (insert_statement v)) (inr 1)) <$> us1)
       ++ [EvCall (PsExecuteUpdate (insert_statement u))
             (inl (Sql duplicate_name))])
    ∧ users_table w' =
        inr (db, mkTable (t_rows (bulk_table t us1))
                   (t_auto (bulk_table t us1) + 1))
    ∧ session_kept w w'
    ∧ (autocommit w = true → committed w' = databases w').
Proof.
  induction us1 as [|v us1 IH];
    intros ps w t Hsql Hps Hlive Htable Hok Hnodup Hfresh Hu Hdup Hroom.
  { exists (rejected db t w). cbn [app fmap list_fmap length] in *.
    rewrite app_nil_r in Hdup.
    rewrite run_insert_each_cons by done.
    rewrite (server_insert_duplicate w db t Hlive Htable u)
      by (done || lia || apply Hu || by intros Hx; apply Hx).
    split; [done|]. split; [|split].
    - rewrite (rejected_table w db t Htable). unfold bulk_table.
      cbn [bulk_rows length t_rows t_auto]. rewrite app_nil_r.
      do 3 f_equal. lia.
    - apply session_kept_rejected.
    - unfold rejected, set_databases. cbn. by intros ->. }
  apply Forall_cons_1 in Hok as [[Hlen Hage] Hok].
  apply Forall_cons_1 in Hfresh as [Hv Hfresh].
  unfold names_of in Hnodup. csimpl in Hnodup.
  apply NoDup_cons in Hnodup as [Hnew Hnodup].
  cbn [length] in Hroom. rewrite Nat2Z.inj_succ in Hroom.
  destruct (IH (insert_statement v) (inserted v db t w) (new_table t v))
    as (w' & Hrun & Htable' & Hkept & Hcommitted).
  - done.
  - apply two_placeholders_insert_statement.
  - done.
  - by apply inserted_table.
  - done.
  - done.
  - by apply fresh_after_insert.
  - done.
  - rewrite new_table_keys, <- app_assoc. exact Hdup.
  - unfold new_table. cbn [t_auto]. lia.
  - exists w'. change ((v :: us1) ++ u :: us2) with (v :: (us1 ++ u :: us2)).
    rewrite run_insert_each_cons by done.
    rewrite (server_insert w db t Hlive Htable v) by (done || lia).
    rewrite Hrun. split; [done|]. split; [|split].
    + by rewrite Htable', bulk_table_cons.
    + eapply session_kept_trans; [apply session_kept_inserted|done].
    + intros Hon. apply Hcommitted. by destruct (session_kept_inserted v db t w)
        as (_ & _ & -> & _).
Qed.

Lemma run_insertUsersBulk_server w db t (users : list User) :
  connected w = true → users_table w = inr (db, t) →
  Forall storable users → NoDup (names_of users) →
  Forall (λ u, unused (name u) (t_rows t)) users →
  t_auto t + Z.of_nat (length users) ≤ int_max + 1 →
  ∃ w' tr,
    run server (insertUsersBulk users) w = (inr tt, w', tr)
    ∧ users_table w' = inr (db, bulk_table t users)
    ∧ session_kept w w'.
Proof.
  intros Hlive Htable Hok Hnodup Hfresh Hroom.
  destruct (run_insert_each_server db users (mkPS insert_sql ∅) w t)
    as (w' & Hrun & Htable' & Hkept); try done.
  exists w'. eexists.
  rewrite (run_insertUsersBulk_prepared server users w w)
    by (by eapply server_prepare_insert).
  rewrite Hrun. by split.
Qed.

Lemma run_insertUsersBulk_server_duplicate w db t us1 u us2 :
  connected w = true → users_table w = inr (db, t) →
  Forall storable us1 → NoDup (names_of us1) →
  Forall (λ v, unused (name v) (t_rows t)) us1 →
  storable u → fold (name u) ∈ keys (t_rows t) ++ names_of us1 →
  t_auto t + Z.of_nat (length us1) ≤ int_max →
  ∃ w' tr,
    run server (insertUsersBulk (us1 ++ u :: us2)) w
    = (inl (Sql duplicate_name), w', tr)
    ∧ calls tr = insertUsersBulk_calls (us1 ++ [u])
    ∧ users_table w' =
        inr (db, mkTable (t_rows t ++ bulk_rows (t_auto t) us1)
                   (t_auto t + Z.of_nat (length us1) + 1))
    ∧ session_kept w w'
    ∧ (autocommit w = true → committed w' = databases w').
Proof.
  intros Hlive Htable Hok Hnodup Hfresh Hu Hdup Hroom.
  destruct (run_insert_each_server_duplicate db us1 u us2
              (mkPS insert_sql ∅) w t)
    as (w' & Hrun & Htable' & Hkept & Hcommitted); try done.
  exists w'. eexists.
  rewrite (run_insertUsersBulk_prepared server _ w w)
    by (by eapply server_prepare_insert).
  rewrite Hrun. split; [reflexivity|]. split; [|done].
  unfold insertUsersBulk_calls. cbn [calls]. f_equal.
  rewrite calls_app, fmap_app. f_equal.
  clear. induction us1 as [|v us1 IH]; [done|]. csimpl. by rewrite IH.
Qed.

(** What is committed is what a rollback leaves. *)
Lemma rollback_of_committed w :
  connected w = true → committed w = databases w →
  users_table (server _ Rollback w).2 = users_table w.
Proof.
  intros Hlive Hc. unfold server. cbv beta iota. rewrite Hlive.
  unfold do_rollback, users_table. cbn [snd current databases].
  unfold rolled_back. rewrite Hc.
  destruct (current w) as [d|]; [|done].
  rewrite lookup_merge.
  by destruct (databases w !! d) as [[[rows auto]|]|].
Qed.

(** ** insertUser on a name that is taken *)




(** ** insertUsersBulk *)

(** X8.  On the server, which runs what the text of the insert says, and
    for names made of ASCII letters, digits and underscores:
    [insertUsersBulk] for records whose names differ from one another and
    from those of the rows, the case of letters ignored, each fitting the
    columns, with room in the identifier counter: it returns, and the
    table gains one row per record, in the order of the records, with
    consecutive identifiers from the counter on (an age 0 stored as
    NULL); connection, schema and mode are as before. *)
Theorem insertUsersBulk_appends_in_order (w : Server) db t (users : list User) :
  connected w = true → users_table w = inr (db, t) →
  plain_rows (t_rows t) → plain_users users →
  Forall storable users → NoDup (names_of users) →
  Forall (λ u, unused (name u) (t_rows t)) users →
  t_auto t + Z.of_nat (length users) ≤ int_max + 1 →
  ∃ w' tr,
    run server (insertUsersBulk users) w = (inr tt, w', tr)
    ∧ users_table w' = inr (db, bulk_table t users)
    ∧ r_name <$> bulk_rows (t_auto t) users = name <$> users
    ∧ r_id <$> bulk_rows (t_auto t) users
      = seqZ (t_auto t) (Z.of_nat (length users))
    ∧ session_kept w w'.
Proof.
  intros Hlive Htable _ _ Hok Hnodup Hfresh Hroom.
  destruct (run_insertUsersBulk_server w db t users)
    as (w' & tr & Hrun & Htable' & Hkept); try done.
  exists w', tr. split; [done|]. split; [done|].
  split; [apply bulk_rows_names|]. split; [apply bulk_rows_ids|done].
Qed.

Lemma insertUsersBulk_appends_in_order_witness :
  ∃ w',
    (run server (insertUsersBulk [mkUser 0 "dan" 0; mkUser 0 "eve" 52])
       populated).1 = (inr tt, w')
    ∧ users_table w' =
        inr ("testdb",
             mkTable
               (demo_rows ++ [mkRow 4 "dan" None; mkRow 5 "eve" (Some 52)]) 6).
Proof.
  destruct (insertUsersBulk_appends_in_order populated "testdb"
              (mkTable demo_rows 4) [mkUser 0 "dan" 0; mkUser 0 "eve" 52])
    as (w' & tr & Hrun & Htable & _).
  - reflexivity.
  - reflexivity.
  - exact plain_demo_rows.
  - by repeat constructor.
  - repeat constructor; simpl; lia || by compute.
  - apply (bool_decide_unpack _). by vm_compute.
  - apply (bool_decide_unpack _). by vm_compute.
  - by compute.
  - exists w'. rewrite Hrun. split; [done|]. exact Htable.
Defined.

(** X9.  On the server in autocommit mode, under the same reading of
    names, [insertUsersBulk] that meets a record whose name is taken (by
    a row, or by an earlier record of the list) ends with the error 1062
    at that record: the records before it are stored and committed, so
    that a rollback does not remove them, and the records after it are
    not sent. *)
Theorem insertUsersBulk_keeps_rows_before_duplicate (w : Server) db t
    (us1 : list User) (u : User) (us2 : list User) :
  connected w = true → users_table w = inr (db, t) → autocommit w = true →
  plain_rows (t_rows t) → plain_users (us1 ++ [u]) →
  Forall storable us1 → NoDup (names_of us1) →
  Forall (λ v, unused (name v) (t_rows t)) us1 →
  storable u → fold (name u) ∈ keys (t_rows t) ++ names_of us1 →
  t_auto t + Z.of_nat (length us1) ≤ int_max →
  ∃ w' tr,
    run server (insertUsersBulk (us1 ++ u :: us2)) w
    = (inl (Sql duplicate_name), w', tr)
    ∧ calls tr = insertUsersBulk_calls (us1 ++ [u])
    ∧ users_table w' =
        inr (db, mkTable (t_rows t ++ bulk_rows (t_auto t) us1)
                   (t_auto t + Z.of_nat (length us1) + 1))
    ∧ users_table (server _ Rollback w').2 = users_table w'.
Proof.
  intros Hlive Htable Hon _ _ Hok Hnodup Hfresh Hu Hdup Hroom.
  destruct (run_insertUsersBulk_server_duplicate w db t us1 u us2)
    as (w' & tr & Hrun & Hcalls & Htable' & Hkept & Hcommitted); try done.
  exists w', tr. split; [done|]. split; [done|]. split; [done|].
  apply rollback_of_committed; [|by apply Hcommitted].
  destruct Hkept as (-> & _). done.
Qed.

(** BOB is bob: dan is stored, the second record is refused, eve is not
    sent. *)
Lemma insertUsersBulk_keeps_rows_before_duplicate_witness :
  ∃ w',
    (run server
       (insertUsersBulk
          [mkUser 0 "dan" 41; mkUser 0 "BOB" 52; mkUser 0 "eve" 19])
       populated).1 = (inl (Sql duplicate_name), w')
    ∧ users_table w' =
        inr ("testdb", mkTable (demo_rows ++ [mkRow 4 "dan" (Some 41)]) 6).
Proof.
  destruct (insertUsersBulk_keeps_rows_before_duplicate populated "testdb"
              (mkTable demo_rows 4) [mkUser 0 "dan" 41] (mkUser 0 "BOB" 52)
              [mkUser 0 "eve" 19])
    as (w' & tr & Hrun & _ & Htable & _).
  - reflexivity.
  - reflexivity.
  - reflexivity.
  - exact plain_demo_rows.
  - by repeat constructor.
  - repeat constructor; simpl; lia || by compute.
  - apply (bool_decide_unpack _). by vm_compute.
  - apply (bool_decide_unpack _). by vm_compute.
  - split; [simpl; lia|by compute].
  - apply (bool_decide_unpack _). by vm_compute.
  - by compute.
  - exists w'. cbn [app] in Hrun. rewrite Hrun. split; [done|]. exact Htable.
Defined.

End Inserts.

(* ===================================================================== *)
(** * The transaction and the driver on the server                       *)
(* ===================================================================== *)

Module Sessions.
Import Cpp Sql MySQL Props RunFacts CommandLayer Texts ServerSteps Queries.
Import Bootstrap Paths Inserts.

(** ** On any connection *)

Lemma run_cout {W} (h : handler W) text w :
  run h (cout text) w = (inr tt, w, [EvPrint Cout text]).
Proof. reflexivity. Qed.

Lemma run_cerr {W} (h : handler W) text w :
  run h (cerr text) w = (inr tt, w, [EvPrint Cerr text]).
Proof. reflexivity. Qed.

Lemma run_demoTransaction_handler {W} (h : handler W) e w w5 w6 :
  h _ Rollback w = (inr tt, w5) →
  h _ (SetAutoCommit true) w5 = (inr tt, w6) →
  run h (demoTransaction_handler e) w =
    (inl (Sql e), w6,
     [EvPrint Cerr (sql_error_line e "demoTransaction");
      EvCall Rollback (inr tt);
      EvPrint Cerr ("Transaction rolled back." +:+ nl);
      EvCall (SetAutoCommit true) (inr tt)]).
Proof.
  intros E5 E6.
  unfold demoTransaction_handler, printSqlError, cerr, rollback, setAutoCommit.
  cbn. rewrite E5. cbn. by rewrite E6.
Qed.

Lemma run_demoTransaction_failed {W} (h : handler W) e w w0 w1 w5 w6 t1 :
  h _ (SetAutoCommit false) w = (inr tt, w0) →
  run h demoTransaction_body w0 = (inl (Sql e), w1, t1) →
  h _ Rollback w1 = (inr tt, w5) →
  h _ (SetAutoCommit true) w5 = (inr tt, w6) →
  run h demoTransaction w =
    (inl (Sql e), w6,
     EvCall (SetAutoCommit false) (inr tt) :: t1 ++
     [EvPrint Cerr (sql_error_line e "demoTransaction");
      EvCall Rollback (inr tt);
      EvPrint Cerr ("Transaction rolled back." +:+ nl);
      EvCall (SetAutoCommit true) (inr tt)]).
Proof.
  intros E0 Eb E5 E6. unfold demoTransaction.
  rewrite run_bind. unfold setAutoCommit at 1.
  rewrite (run_call_eq h _ w _ _ E0).
  rewrite run_try_catch_sql, Eb.
  by rewrite (run_demoTransaction_handler h e w1 w5 w6 E5 E6).
Qed.

Lemma run_demoTransaction_committed {W} (h : handler W) w w0 w1 w2 w3 w4
    t1 t2 k :
  h _ (SetAutoCommit false) w = (inr tt, w0) →
  run h (insertUsersBulk demo_users) w0 = (inr tt, w1, t1) →
  run h (updateUserAgeByName "alice" 25) w1 = (inr k, w2, t2) →
  h _ Commit w2 = (inr tt, w3) →
  h _ (SetAutoCommit true) w3 = (inr tt, w4) →
  run h demoTransaction w =
    (inr tt, w4,
     EvCall (SetAutoCommit false) (inr tt) :: t1 ++ t2 ++
     [EvPrint Cout ("Rows updated: " +:+ pretty k +:+ nl);
      EvCall Commit (inr tt);
      EvCall (SetAutoCommit true) (inr tt);
      EvPrint Cout ("Transaction committed." +:+ nl)]).
Proof.
  intros E0 E1 E2 E3 E4. unfold demoTransaction.
  rewrite run_bind. unfold setAutoCommit at 1.
  rewrite (run_call_eq h _ w _ _ E0).
  rewrite run_try_catch_sql. unfold demoTransaction_body. fold demo_users.
  rewrite run_bind, E1, run_bind, E2, run_bind. cbn.
  rewrite E3. cbn. rewrite E4. cbn.
  by rewrite <- ?app_assoc.
Qed.

Lemma run_print_users {W} (h : handler W) us w :
  run h (print_users us) w = (inr tt, w, EvPrint Cout ∘ user_line <$> us).
Proof.
  induction us as [|u us IH]; [done|].
  cbn [print_users]. rewrite run_bind, run_cout, IH. done.
Qed.

Lemma print_row_run {W} (h : handler W) r rest w :
  run h (print_row (mkRS users_columns (Some (row_cells r)) rest) tt) w
  = (inr tt, w, row_events r).
Proof.
  unfold print_row, row_events, row_cells.
  destruct r as [i n [a|]]; reflexivity.
Qed.

Lemma run_print_rows {W} (h : handler W) rs w :
  run h (while_next print_row users_columns (row_cells <$> rs) tt) w
  = (inr tt, w, rs ≫= row_events).
Proof.
  induction rs as [|r rs IH]; [done|].
  cbn [fmap list_fmap while_next]. by rewrite run_bind, print_row_run, IH.
Qed.

Lemma written_cerr_couts (texts : list string) :
  written Cerr (EvPrint Cout <$> texts) = "".
Proof. induction texts as [|x texts IH]; [done|]. csimpl. exact IH. Qed.

Lemma written_cerr_rows rs : written Cerr (rs ≫= row_events) = "".
Proof.
  induction rs as [|r rs IH]; [done|].
  change ((r :: rs) ≫= row_events) with (row_events r ++ (rs ≫= row_events)).
  by rewrite written_app, IH.
Qed.

(** ** Steps of the server *)

Lemma server_autocommit b w :
  connected w = true → server _ (SetAutoCommit b) w = set_autocommit b w.
Proof. intros Hlive. unfold server. cbv beta iota. by rewrite Hlive. Qed.

Lemma server_commit w :
  connected w = true → server _ Commit w = do_commit w.
Proof. intros Hlive. unfold server. cbv beta iota. by rewrite Hlive. Qed.

Lemma server_rollback w :
  connected w = true → server _ Rollback w = do_rollback w.
Proof. intros Hlive. unfold server. cbv beta iota. by rewrite Hlive. Qed.

(** ** The transaction that commits *)

Lemma demo_users_table t :
  unused "alice" (t_rows t) →
  updated_table "alice" 25 (bulk_table t demo_users) = committed_demo t
  ∧ filter (changed_by "alice" (Some 25)) (t_rows (bulk_table t demo_users))
    = [mkRow (t_auto t) "alice" (Some 24)].
Proof.
  intros Halice. unfold updated_table, bulk_table, committed_demo, demo_users.
  cbn [t_rows t_auto bulk_rows length name age].
  split.
  - rewrite fmap_app, update_row_absent by done. reflexivity.
  - rewrite filter_app, changed_absent by done. reflexivity.
Qed.

Lemma run_demoTransaction_server w db t :
  connected w = true → users_table w = inr (db, t) →
  unused "alice" (t_rows t) → unused "bob" (t_rows t) →
  t_auto t + 1 ≤ int_max →
  ∃ w' tr,
    run server demoTransaction w = (inr tt, w', tr)
    ∧ users_table w' = inr (db, committed_demo t)
    ∧ connected w' = true ∧ autocommit w' = true
    ∧ committed w' = databases w'
    ∧ written Cout tr =
        "Rows updated: 1" +:+ nl +:+ "Transaction committed." +:+ nl
    ∧ written Cerr tr = "".
Proof.
  intros Hlive Htable Halice Hbob Hroom.
  set (w0 := (set_autocommit false w).2).
  destruct (run_insertUsersBulk_server w0 db t demo_users)
    as (w1 & tr1 & Hrun1 & Htable1 & Hc1 & Hcur1 & Hmode1 & _).
  { done. }
  { done. }
  { repeat constructor; simpl; lia || by compute. }
  { apply (bool_decide_unpack _). by vm_compute. }
  { repeat constructor; done. }
  { simpl. lia. }
  assert (connected w1 = true) as Hlive1 by (by rewrite Hc1).
  destruct (demo_users_table t Halice) as [Etable Ecount].
  pose proof (run_updateUserAgeByName_server w1 db _ "alice" 25
                Hlive1 Htable1 ltac:(by compute)) as Hrun2.
  rewrite Ecount in Hrun2. cbn [length] in Hrun2.
  change (Z.of_nat 1) with 1 in Hrun2.
  set (w2 := updated "alice" 25 db (bulk_table t demo_users) w1) in *.
  assert (users_table w2 = inr (db, committed_demo t)) as Htable2.
  { unfold w2. rewrite <- Etable.
    by apply (users_table_write w1 db (bulk_table t demo_users)). }
  assert (connected w2 = true) as Hlive2 by done.
  exists (set_autocommit true (do_commit w2).2).2. eexists. split.
  { eapply run_demoTransaction_committed.
    - by apply server_autocommit.
    - exact Hrun1.
    - exact Hrun2.
    - by apply server_commit.
    - by apply server_autocommit. }
  split; [exact Htable2|]. split; [done|]. split; [done|]. split; [done|].
  pose proof (silent_run server (insertUsersBulk demo_users) Cout w0
                (silent_insertUsersBulk _)) as Hout1.
  pose proof (silent_run server (insertUsersBulk demo_users) Cerr w0
                (silent_insertUsersBulk _)) as Herr1.
  rewrite Hrun1 in Hout1, Herr1. cbn [snd] in Hout1, Herr1.
  change (EvCall (SetAutoCommit false) (inr ()) :: tr1 ++ ?x)
    with ([EvCall (SetAutoCommit false) (inr ())] ++ tr1 ++ x).
  rewrite !written_app, Hout1, Herr1. by split.
Qed.

(** X10.  On the server, which runs what the texts of the insert and of
    the update say, [demoTransaction] on a table whose rows have names
    made of ASCII letters, digits and underscores, none of them alice or
    bob in any case of letters, and with room for two identifiers: it
    returns; the table has gained alice with age 25 (inserted with 24,
    then updated) and bob with age 29, with the next two identifiers;
    both are committed, autocommit is on again, the output is "Rows
    updated: 1" and "Transaction committed.", and nothing is written to
    the error stream. *)
Theorem demoTransaction_commits_alice_and_bob (w : Server) db t :
  connected w = true → users_table w = inr (db, t) →
  plain_rows (t_rows t) →
  unused "alice" (t_rows t) → unused "bob" (t_rows t) →
  t_auto t + 1 ≤ int_max →
  ∃ w' tr,
    run server demoTransaction w = (inr tt, w', tr)
    ∧ users_table w' =
        inr (db, mkTable (t_rows t ++ [mkRow (t_auto t) "alice" (Some 25);
                                       mkRow (t_auto t + 1) "bob" (Some 29)])
                   (t_auto t + 2))
    ∧ autocommit w' = true
    ∧ users_table (server _ Rollback w').2 = users_table w'
    ∧ written Cout tr =
        "Rows updated: 1" +:+ nl +:+ "Transaction committed." +:+ nl
    ∧ written Cerr tr = "".
Proof.
  intros Hlive Htable _ Halice Hbob Hroom.
  destruct (run_demoTransaction_server w db t)
    as (w' & tr & Hrun & Htable' & Hlive' & Hmode & Hcommitted & Hout & Herr);
    try done.
  exists w', tr. split; [done|]. split; [done|]. split; [done|].
  split; [by apply rollback_of_committed|]. by split.
Qed.

Lemma demoTransaction_commits_alice_and_bob_witness :
  ∃ w',
    (run server demoTransaction ready).1 = (inr tt, w')
    ∧ users_table w' =
        inr ("testdb",
             mkTable [mkRow 1 "alice" (Some 25); mkRow 2 "bob" (Some 29)] 3).
Proof.
  destruct (demoTransaction_commits_alice_and_bob ready "testdb" (mkTable [] 1))
    as (w' & tr & Hrun & Htable & _).
  - reflexivity.
  - reflexivity.
  - constructor.
  - apply (bool_decide_unpack _). by vm_compute.
  - apply (bool_decide_unpack _). by vm_compute.
  - by compute.
  - exists w'. rewrite Hrun. split; [done|]. exact Htable.
Defined.

(** ** The transaction that meets a name that is taken *)

Lemma run_bind_raised {W A B} (h : handler W) (p : prog A) (f : A → prog B)
    w e w1 t1 :
  run h p w = (inl e, w1, t1) → run h (p ≫= f) w = (inl e, w1, t1).
Proof. intros E. by rewrite run_bind, E. Qed.

Lemma rolled_back_table w db t1 t0 :
  users_table w = inr (db, t1) → committed w !! db = Some (Some t0) →
  users_table (set_autocommit true (do_rollback w).2).2
  = inr (db, mkTable (t_rows t0) (t_auto t1)).
Proof.
  intros [Hcur Hdb]%users_table_inr Hold. apply users_table_inr.
  cbn [set_autocommit do_rollback snd current databases]. split; [done|].
  unfold rolled_back. by rewrite lookup_merge, Hdb, Hold.
Qed.

(** X11.  On the server, which runs what the text of the insert says,
    [demoTransaction] on a table whose rows have names made of ASCII
    letters, digits and underscores, one of them alice or bob in some
    case of letters, ends with the error 1062 of the unique key, and what
    it did is undone: the table holds the rows of the last commit (an
    alice inserted before bob was rejected is gone), autocommit is on
    again, the error and "Transaction rolled back." are on the error
    stream and nothing on the output.  The identifiers it used are not
    given back: the counter is one or two further. *)
Theorem demoTransaction_undone_on_duplicate (w : Server) db t t0 :
  connected w = true → users_table w = inr (db, t) →
  committed w !! db = Some (Some t0) →
  plain_rows (t_rows t) →
  t_auto t + 1 ≤ int_max →
  taken "alice" (t_rows t) ∨ taken "bob" (t_rows t) →
  ∃ w' tr auto',
    run server demoTransaction w = (inl (Sql duplicate_name), w', tr)
    ∧ users_table w' = inr (db, mkTable (t_rows t0) auto')
    ∧ t_auto t < auto' ≤ t_auto t + 2
    ∧ autocommit w' = true
    ∧ written Cerr tr =
        sql_error_line duplicate_name "demoTransaction"
        +:+ "Transaction rolled back." +:+ nl
    ∧ written Cout tr = "".
Proof.
  intros Hlive Htable Hold _ Hroom Htaken.
  set (w0 := (set_autocommit false w).2).
  assert (∃ w1 tr1 auto',
            run server (insertUsersBulk demo_users) w0
            = (inl (Sql duplicate_name), w1, tr1)
            ∧ (∃ rows, users_table w1 = inr (db, mkTable rows auto'))
            ∧ t_auto t < auto' ≤ t_auto t + 2
            ∧ session_kept w0 w1)
    as (w1 & tr1 & auto' & Hrun1 & [rows Htable1] & Hauto & Hkept).
  { destruct (decide (taken "alice" (t_rows t))) as [Halice|Halice].
    - destruct (run_insertUsersBulk_server_duplicate w0 db t []
                  (mkUser 0 "alice" 24) [mkUser 0 "bob" 29])
        as (w1 & tr1 & Hrun1 & _ & Htable1 & Hkept & _).
      + done.
      + done.
      + constructor.
      + constructor.
      + constructor.
      + split; [simpl; lia|by compute].
      + by rewrite app_nil_r.
      + simpl. lia.
      + exists w1, tr1, (t_auto t + Z.of_nat 0 + 1).
        split; [exact Hrun1|]. split; [by eexists|]. split; [simpl; lia|done].
    - destruct Htaken as [?|Hbob]; [done|].
      destruct (run_insertUsersBulk_server_duplicate w0 db t
                  [mkUser 0 "alice" 24] (mkUser 0 "bob" 29) [])
        as (w1 & tr1 & Hrun1 & _ & Htable1 & Hkept & _).
      + done.
      + done.
      + repeat constructor; simpl; lia || by compute.
      + apply (bool_decide_unpack _). by vm_compute.
      + by repeat constructor.
      + split; [simpl; lia|by compute].
      + apply elem_of_app. by left.
      + simpl. lia.
      + exists w1, tr1, (t_auto t + Z.of_nat 1 + 1).
        split; [exact Hrun1|]. split; [by eexists|]. split; [simpl; lia|done]. }
  destruct Hkept as (Hc1 & Hcur1 & Hmode1 & Hcommitted1).
  assert (connected w1 = true) as Hlive1 by (by rewrite Hc1).
  assert (committed w1 !! db = Some (Some t0)) as Hold1.
  { by rewrite Hcommitted1. }
  exists (set_autocommit true (do_rollback w1).2).2. eexists. exists auto'.
  split.
  { eapply run_demoTransaction_failed.
    - by apply server_autocommit.
    - unfold demoTransaction_body. fold demo_users.
      apply run_bind_raised. exact Hrun1.
    - by apply server_rollback.
    - by apply server_autocommit. }
  split; [by apply (rolled_back_table w1 db (mkTable rows auto'))|].
  split; [done|]. split; [done|].
  pose proof (silent_run server (insertUsersBulk demo_users) Cout w0
                (silent_insertUsersBulk _)) as Hout1.
  pose proof (silent_run server (insertUsersBulk demo_users) Cerr w0
                (silent_insertUsersBulk _)) as Herr1.
  rewrite Hrun1 in Hout1, Herr1. cbn [snd] in Hout1, Herr1.
  change (EvCall (SetAutoCommit false) (inr ()) :: tr1 ++ ?x)
    with ([EvCall (SetAutoCommit false) (inr ())] ++ tr1 ++ x).
  rewrite !written_app, Hout1, Herr1. by split.
Qed.

Lemma demoTransaction_undone_on_duplicate_witness :
  ∃ w' auto',
    (run server demoTransaction
       (mkServer true {["testdb" := Some (mkTable [mkRow 1 "Bob" (Some 31)] 2)]}
          {["testdb" := Some (mkTable [mkRow 1 "Bob" (Some 31)] 2)]}
          (Some "testdb") true 1)).1
    = (inl (Sql duplicate_name), w')
    ∧ users_table w' = inr ("testdb", mkTable [mkRow 1 "Bob" (Some 31)] auto').
Proof.
  destruct (demoTransaction_undone_on_duplicate
              (mkServer true
                 {["testdb" := Some (mkTable [mkRow 1 "Bob" (Some 31)] 2)]}
                 {["testdb" := Some (mkTable [mkRow 1 "Bob" (Some 31)] 2)]}
                 (Some "testdb") true 1)
              "testdb" (mkTable [mkRow 1 "Bob" (Some 31)] 2)
              (mkTable [mkRow 1 "Bob" (Some 31)] 2))
    as (w' & tr & auto' & Hrun & Htable & _).
  - reflexivity.
  - reflexivity.
  - reflexivity.
  - by repeat constructor.
  - by compute.
  - right. apply (bool_decide_unpack _). by vm_compute.
  - exists w', auto'. rewrite Hrun. split; [done|]. exact Htable.
Defined.

(** ** An update, then a read *)

Lemma updated_table_wf n a t :
  wf_table t → is_int a → wf_table (updated_table n a t).
Proof.
  intros [Hauto Hrows] Ha. split; [done|]. unfold updated_table.
  cbn [t_rows t_auto]. apply Forall_fmap. eapply Forall_impl; [exact Hrows|].
  intros r [Hid Hage]. unfold compose, update_row, wf_row.
  by case_decide.
Qed.

(** X12.  On the server, which runs what the texts of the update and of
    the query say, and for names made of ASCII letters, digits and
    underscores: after [updateUserAgeByName n a], a [getUsersByMinAge m]
    with [m] at most [a] returns every row of the name [n], the case of
    letters ignored, with its identifier, its name as stored and the age
    [a], and returns no record of that name with another age.  This holds
    for [a] = 0 as well: the update stores the integer 0, which a minimum
    age of 0 or less selects. *)
Theorem updateUserAgeByName_then_getUsersByMinAge (w : Server) db t n
    (a m : Z) :
  connected w = true → users_table w = inr (db, t) → wf_table t →
  plain n = true → plain_rows (t_rows t) →
  is_int a → m ≤ a →
  ∃ k w1 tr1 us tr2,
    run server (updateUserAgeByName n a) w = (inr k, w1, tr1)
    ∧ run server (getUsersByMinAge m) w1 = (inr us, w1, tr2)
    ∧ (∀ r, r ∈ t_rows t → fold (r_name r) = fold n →
            mkUser (r_id r) (r_name r) a ∈ us)
    ∧ (∀ u, u ∈ us → fold (name u) = fold n → age u = a).
Proof.
  intros Hlive Htable Hwf _ _ Ha Hm.
  pose proof (run_updateUserAgeByName_server w db t n a Hlive Htable Ha)
    as Hrun1.
  pose proof (users_table_write w db t (updated_table n a t) false Htable)
    as Htable1.
  fold (updated n a db t w) in Htable1.
  destruct (run_getUsersByMinAge_server (updated n a db t w) db
              (updated_table n a t) m)
    as (rs & Hrun2 & Hperm & _ & Hsurf); [done|done|by apply updated_table_wf|].
  eexists _, _, _, _, _. split; [exact Hrun1|]. split; [exact Hrun2|].
  rewrite Forall_forall in Hsurf. split.
  - intros r Hr Hn.
    assert (mkRow (r_id r) (r_name r) (Some a) ∈ rs) as Hin.
    { rewrite Hperm. apply list_elem_of_filter. split.
      - unfold age_at_least. by cbn [r_age].
      - unfold updated_table. cbn [t_rows]. apply list_elem_of_fmap.
        exists r. split; [|done]. unfold update_row.
        by rewrite decide_True by done. }
    apply list_elem_of_fmap. eexists. split; [|exact Hin].
    by rewrite (Hsurf _ Hin).
  - intros u (r' & -> & Hin)%list_elem_of_fmap. rewrite (Hsurf _ Hin).
    cbn [name age]. intros Hn.
    rewrite Hperm in Hin. apply list_elem_of_filter in Hin as [_ Hin].
    unfold updated_table in Hin. cbn [t_rows] in Hin.
    apply list_elem_of_fmap in Hin as (r0 & -> & _).
    unfold update_row in *. case_decide; [done|]. done.
Qed.

Lemma updateUserAgeByName_then_getUsersByMinAge_witness :
  ∃ us,
    (run server (getUsersByMinAge 0)
       (run server (updateUserAgeByName "bob" 0) populated).1.2).1.1 = inr us
    ∧ mkUser 3 "bob" 0 ∈ us.
Proof.
  destruct (updateUserAgeByName_then_getUsersByMinAge populated "testdb"
              (mkTable demo_rows 4) "bob" 0 0)
    as (k & w1 & tr1 & us & tr2 & Hrun1 & Hrun2 & Hin & _).
  - reflexivity.
  - reflexivity.
  - exact wf_demo_table.
  - reflexivity.
  - exact plain_demo_rows.
  - by compute.
  - lia.
  - exists us. rewrite Hrun1. cbn [fst snd]. rewrite Hrun2. split; [done|].
    apply (Hin (mkRow 3 "bob" (Some 31))); [|done].
    unfold demo_rows. cbn [t_rows]. repeat constructor.
Defined.

(** ** The driver from any state of the server *)

Lemma next_id_connect w tb :
  databases (bootstrapped "testdb" (connect w).2) !! "testdb" = Some (Some tb) →
  t_auto tb = next_id w.
Proof.
  unfold next_id. change (schema cfg) with "testdb".
  pose proof (lookup_merge restore_table (databases w) (committed w) "testdb")
    as Hd.
  fold (rolled_back w) in Hd.
  unfold bootstrapped, connect. cbn [snd databases].
  destruct (databases w !! "testdb") as [[t|]|],
           (committed w !! "testdb") as [[t0|]|];
    cbn in Hd; rewrite Hd; rewrite ?Hd, ?lookup_insert_eq;
    by intros [= <-].
Qed.

Lemma demo_table_wf a :
  1 ≤ a → a + 2 ≤ int_max →
  wf_table (committed_demo (new_table (mkTable [] a) (mkUser 0 "carol" 32))).
Proof.
  intros Hlow Hroom.
  unfold wf_table, committed_demo, new_table, new_row, wf_row, is_int,
    int_min, int_max in *.
  cbn. split; [lia|]. repeat constructor; cbn; lia.
Qed.

Lemma demo_table_updated a :
  updated_table "bob" 31
    (committed_demo (new_table (mkTable [] a) (mkUser 0 "carol" 32)))
  = demo_table a.
Proof.
  unfold updated_table, committed_demo, new_table, new_row, demo_table.
  cbn [t_rows t_auto app name age].
  change (update_row "bob" (Some 31) <$> ?l)
    with (map (update_row "bob" (Some 31)) l).
  cbn [map]. unfold update_row. cbn [r_name r_id r_age].
  rewrite !decide_False by done. rewrite decide_True by done.
  unfold stored_age. rewrite bool_decide_eq_false_2 by done.
  replace (a + 1 + 1) with (a + 2) by lia.
  by replace (a + 1 + 2) with (a + 3) by lia.
Qed.

Lemma written_cerr_call {X} (c : Call X) r t :
  written Cerr (EvCall c r :: t) = written Cerr t.
Proof. reflexivity. Qed.

Lemma written_cerr_cout text t :
  written Cerr (EvPrint Cout text :: t) = written Cerr t.
Proof. reflexivity. Qed.

Lemma run_main_body_server w :
  1 ≤ next_id w → next_id w + 2 ≤ int_max →
  ∃ w' tr,
    run server main_body w = (inr tt, w', tr)
    ∧ users_table w' = inr ("testdb", demo_table (next_id w))
    ∧ written Cerr tr = ""
    ∧ ∃ rest, written Cout tr =
        "Inserted carol with id = " +:+ pretty (next_id w) +:+ nl +:+ rest.
Proof.
  intros Hlow Hroom.
  set (w1 := (connect w).2).
  set (w2 := bootstrapped "testdb" w1).
  destruct (bootstrapped_table "testdb" w1) as [tb Htb]. fold w2 in Htb.
  assert (t_auto tb = next_id w) as Hauto by (by apply next_id_connect).
  assert (users_table w2 = inr ("testdb", tb)) as Htable2
    by (by apply users_table_inr).
  set (a := next_id w) in *.
  set (w3 := set_databases false
               (<["testdb" := Some (mkTable [] (t_auto tb))]>
                  (databases w2)) w2).
  assert (users_table w3 = inr ("testdb", mkTable [] a)) as Htable3.
  { rewrite <- Hauto. by apply (users_table_write w2 "testdb" tb). }
  set (carol := mkUser 0 "carol" 32).
  set (w4 := inserted carol "testdb" (mkTable [] a) w3).
  assert (users_table w4 = inr ("testdb", new_table (mkTable [] a) carol))
    as Htable4 by (by apply inserted_table).
  assert (run server (insertUser carol) w3 =
            (inr a, w4,
             insertUser_trace carol 1 (mkQR ["LAST_INSERT_ID()"] [[CInt a]])))
    as Hrun4.
  { apply (run_insertUser_server w3 "testdb" (mkTable [] a) carol);
      try done.
    - split; [|constructor]. cbn [t_auto]. unfold int_max in *. lia.
    - cbn [t_auto]. lia.
    - change (char_length (name carol)) with 5%nat. lia.
    - unfold unused. cbn. apply not_elem_of_nil. }
  destruct (run_demoTransaction_server w4 "testdb"
              (new_table (mkTable [] a) carol))
    as (w5 & tr5 & Hrun5 & Htable5 & Hlive5 & _ & _ & _ & Herr5).
  { done. }
  { done. }
  { apply (bool_decide_unpack _). by vm_compute. }
  { apply (bool_decide_unpack _). by vm_compute. }
  { cbn [new_table t_auto]. lia. }
  destruct (run_getUsersByMinAge_server w5 "testdb" _ 25 Hlive5 Htable5)
    as (rs & Hrun6 & _); [by apply demo_table_wf|].
  pose proof (run_updateUserAgeByName_server w5 "testdb" _ "bob" 31
                Hlive5 Htable5 ltac:(by compute)) as Hrun7.
  set (T5 := committed_demo (new_table (mkTable [] a) carol)) in *.
  set (w6 := updated "bob" 31 "testdb" T5 w5) in *.
  assert (users_table w6 = inr ("testdb", demo_table a)) as Htable6.
  { unfold w6. rewrite <- demo_table_updated.
    by apply (users_table_write w5 "testdb" T5). }
  assert (connected w6 = true) as Hlive6 by exact Hlive5.
  exists w6. eexists. split; [|split; [exact Htable6|]].
  { unfold main_body.
    rewrite run_bind, (run_call_eq server _ w (inr tt) w1) by done.
    change (schema cfg) with "testdb".
    rewrite run_bind, (run_ensureSchemaAndTables "testdb" w1)
      by (done || by split).
    fold w2.
    rewrite run_bind, run_bind. unfold createStatement at 1.
    rewrite (run_call_eq server _ w2 (inr tt) w2)
      by (by apply server_create_statement).
    unfold execute.
    rewrite (run_call_eq server _ w2 (inr false) w3)
      by (by apply (server_delete w2 "testdb" tb)).
    fold carol. rewrite run_bind, Hrun4.
    rewrite run_bind, run_cout.
    rewrite run_bind, run_try_catch_all, Hrun5.
    rewrite run_bind, Hrun6.
    rewrite run_bind, run_cout, run_bind, run_cout.
    rewrite run_bind, run_print_users.
    rewrite run_bind, Hrun7.
    rewrite run_bind, run_cout.
    rewrite run_bind. unfold createStatement.
    rewrite (run_call_eq server _ w6 (inr tt) w6)
      by (by apply server_create_statement).
    rewrite run_bind. unfold executeQuery. rewrite run_bind.
    rewrite (run_call_eq server _ w6 _ w6
               (server_select_all w6 "testdb" (demo_table a) Hlive6 Htable6)).
    cbn [run mret prog_ret].
    rewrite run_bind, run_cout.
    unfold open_result. cbn [rs_columns rs_pending qr_columns qr_rows].
    rewrite run_print_rows. reflexivity. }
  split.
  - rewrite !written_app, Herr5, list_fmap_compose, written_cerr_couts,
      written_cerr_rows.
    reflexivity.
  - eexists. unfold ensureSchemaAndTables_trace, insertUser_trace.
    rewrite !written_app. cbn [written].
    repeat change ("" +:+ ?x) with x.
    rewrite append_nil_r, !append_assoc. reflexivity.
Qed.

(** X13.  On the server, which runs what the texts of [main] and of the
    functions it calls say, and whatever the server holds, provided the identifier counter
    of the [users] table of the configured schema has room for three more:
    [main] returns 0 and leaves in that table exactly carol with age 32,
    alice with age 25 and bob with age 31, with three consecutive
    identifiers from the counter on; the rows it found are gone. Nothing is
    written to the error stream, and the first line of output reports the
    identifier of carol. *)
Theorem main_leaves_the_demo_rows (w : Server) :
  1 ≤ next_id w → next_id w + 2 ≤ int_max →
  ∃ w' tr,
    run server main w = (inr 0, w', tr)
    ∧ users_table w' =
        inr ("testdb",
             mkTable [mkRow (next_id w) "carol" (Some 32);
                      mkRow (next_id w + 1) "alice" (Some 25);
                      mkRow (next_id w + 2) "bob" (Some 31)] (next_id w + 3))
    ∧ written Cerr tr = ""
    ∧ ∃ rest, written Cout tr =
        "Inserted carol with id = " +:+ pretty (next_id w) +:+ nl +:+ rest.
Proof.
  intros Hlow Hroom.
  destruct (run_main_body_server w Hlow Hroom)
    as (w' & tr & Hrun & Htable & Herr & Hout).
  exists w', (tr ++ []). split; [|by rewrite app_nil_r].
  unfold main. rewrite run_try_catch_sql_std, run_bind, Hrun. reflexivity.
Qed.

Lemma main_leaves_the_demo_rows_witness :
  ∃ w',
    (run server main populated).1 = (inr 0, w')
    ∧ users_table w' =
        inr ("testdb",
             mkTable [mkRow 4 "carol" (Some 32); mkRow 5 "alice" (Some 25);
                      mkRow 6 "bob" (Some 31)] 7).
Proof.
  destruct (main_leaves_the_demo_rows populated)
    as (w' & tr & Hrun & Htable & _).
  - by vm_compute.
  - by vm_compute.
  - exists w'. rewrite Hrun. split; [done|]. exact Htable.
Defined.

End Sessions.

